(** * Telegram MarkdownV2 helpers ([src/libs/markdown-v2.js])

    A shallow embedding of the two exported operations of the module,
    [processMarkdownV2Safe] and [chunkForTelegram], together with the
    regular-expression primitives they are written with.

    JavaScript strings are sequences of UTF-16 code units; [length] is the
    number of code units.  A string is therefore a [list N], and a string
    literal of the source is written [str "..."] (ASCII) or spelled out with
    its code units. *)

From Stdlib Require Import List NArith ZArith Lia Bool Arith String Ascii.
From Stdlib Require DecimalString DecimalNat.
Import ListNotations.

Set Implicit Arguments.

(** ** Strings *)

Definition char16 := N.
Definition jsstring := list char16.

Definition str (s : string) : jsstring :=
  map N_of_ascii (list_ascii_of_string s).

Definition ch (a : ascii) : char16 := N_of_ascii a.

(** Code units that appear in the source and are not ASCII. *)
Definition c_ellipsis : char16 := 8230%N.   (* U+2026 *)
Definition c_lbr : char16 := 10220%N.       (* U+27EC, opens a placeholder *)
Definition c_rbr : char16 := 10221%N.       (* U+27ED, closes a placeholder *)

Definition c_nl : char16 := 10%N.

Definition mem (c : char16) (l : list char16) : bool :=
  existsb (N.eqb c) l.

(** [\s] of ECMAScript: WhiteSpace and LineTerminator. *)
Definition is_space (c : char16) : bool :=
  mem c [9; 10; 11; 12; 13; 32; 160; 5760; 8232; 8233; 8239; 8287; 12288; 65279]%N
  || ((8192 <=? c) && (c <=? 8202))%N.

(** What [.] refuses to match (no [s] flag): the line terminators. *)
Definition is_line_terminator (c : char16) : bool :=
  mem c [10; 13; 8232; 8233]%N.

(** Decimal rendering of a non-negative integer, as a template literal
    prints an array length or a small integer. *)
Definition decimal (n : nat) : jsstring :=
  str (DecimalString.NilEmpty.string_of_uint (Nat.to_uint n)).

(** ** Completions

    The module has one place that can throw: the [RegExp] constructor.  The
    [URL] constructor throws too, but every call sits in a [try]/[catch]. *)

Inductive js_error := SyntaxError | TypeError.

Inductive completion (A : Type) : Type :=
| Normal (a : A)
| Throw (e : js_error).
Arguments Normal {A} a.
Arguments Throw {A} e.

Definition bind {A B} (m : completion A) (f : A -> completion B) : completion B :=
  match m with
  | Normal a => f a
  | Throw e => Throw e
  end.

Notation "x <- m ;; k" := (bind m (fun x => k))
  (at level 61, m at next level, right associativity).

(** ** Regular-expression primitives *)

Module Re.

(** Length of the longest prefix of [s] whose code units satisfy [p]. *)
Fixpoint run (p : char16 -> bool) (s : jsstring) : nat :=
  match s with
  | c :: s' => if p c then S (run p s') else 0
  | [] => 0
  end.

(** A separator pattern is given by the length of its match at the current
    position, [0] when it does not match there; it may look at the code unit
    before the position (a look-behind). *)
Definition sep := option char16 -> jsstring -> nat.

(** [String.prototype.split] with a pattern that never matches the empty
    string.  [cur] is the piece being collected, reversed; [skip] counts the
    code units of the current match still to be dropped. *)
Fixpoint split_go (m : sep) (prev : option char16) (s : jsstring)
    (cur : jsstring) (skip : nat) : list jsstring :=
  match s with
  | [] => [rev cur]
  | c :: s' =>
    match skip with
    | S k => split_go m (Some c) s' cur k
    | 0 =>
      match m prev s with
      | S k => rev cur :: split_go m (Some c) s' [] k
      | 0 => split_go m (Some c) s' (c :: cur) 0
      end
    end
  end.

Definition split (m : sep) (s : jsstring) : list jsstring :=
  split_go m None s [] 0.

(** [/\n{2,}/] *)
Definition newlines2 : sep := fun _ s =>
  let n := run (N.eqb c_nl) s in if 2 <=? n then n else 0.

(** [/\s+/] *)
Definition spaces : sep := fun _ s => run is_space s.

Definition is_sentence_end (c : char16) : bool :=
  mem c [ch "."; ch "!"; ch "?"; c_ellipsis].

(** [/(?<=[.!?…])\s+(?=[^\s])/u]: the greedy run of white space must be
    followed by some code unit, which is then not white space. *)
Definition sentence_gap : sep := fun prev s =>
  match prev with
  | Some c =>
    if is_sentence_end c then
      let n := run is_space s in
      match skipn n s with
      | [] => 0
      | _ :: _ => n
      end
    else 0
  | None => 0
  end.

Definition emit (cur : jsstring) : list jsstring :=
  match cur with
  | [] => []
  | _ => [rev cur]
  end.

(** [s.match(/.{1,n}/g) || []] for [n >= 1]: maximal pieces of at most [n]
    code units, none of them a line terminator.  [room] is what the piece
    being collected may still take. *)
Fixpoint dot_pieces_go (n : nat) (s : jsstring) (cur : jsstring) (room : nat)
    : list jsstring :=
  match s with
  | [] => emit cur
  | c :: s' =>
    if is_line_terminator c then emit cur ++ dot_pieces_go n s' [] n
    else
      match room with
      | S r => dot_pieces_go n s' (c :: cur) r
      | 0 => emit cur ++ dot_pieces_go n s' [c] (n - 1)
      end
  end.

Definition dot_pieces (n : nat) (s : jsstring) : list jsstring :=
  dot_pieces_go n s [] n.

Fixpoint starts_with (p s : jsstring) : bool :=
  match p, s with
  | [], _ => true
  | a :: p', b :: s' => N.eqb a b && starts_with p' s'
  | _ :: _, [] => false
  end.

(** [s.match(re) || []] for the pattern [. lit]: one code unit that is not
    a line terminator, followed by the literal text [lit]. *)
Fixpoint dot_lit_go (lit : jsstring) (s : jsstring) (skip : nat) : list jsstring :=
  match s with
  | [] => []
  | c :: s' =>
    match skip with
    | S k => dot_lit_go lit s' k
    | 0 =>
      if negb (is_line_terminator c) && starts_with lit s'
      then (c :: lit) :: dot_lit_go lit s' (List.length lit)
      else dot_lit_go lit s' 0
    end
  end.

Definition dot_lit (lit : jsstring) (s : jsstring) : list jsstring :=
  dot_lit_go lit s 0.

End Re.

(** ** The segmenter *)

Definition MAX_TELEGRAM : Z := 4096.
Definition SAFE_BUDGET : Z := 4000.

(** A string is truthy when it is not empty. *)
Definition truthy (s : jsstring) : bool :=
  match s with
  | [] => false
  | _ :: _ => true
  end.

Definition len (s : jsstring) : Z := Z.of_nat (List.length s).

Definition fits (s : jsstring) (maxLen : Z) : bool := (len s <=? maxLen)%Z.

(** [if (buf) parts.push(buf)] *)
Definition push_if (parts : list jsstring) (buf : jsstring) : list jsstring :=
  if truthy buf then parts ++ [buf] else parts.

(** [buf ? buf + sepr + unit : unit] *)
Definition candidate (buf sepr unit : jsstring) : jsstring :=
  if truthy buf then buf ++ sepr ++ unit else unit.

(** [new RegExp(`.{1,${maxLen}}`, 'g')] followed by [w.match(re) || []].
    The template prints [maxLen] in decimal (integers of magnitude below
    10^21).  A positive bound gives the bounded quantifier; [{1,0}] is a
    quantifier whose bounds are out of order, an early SyntaxError; with a
    negative bound the braces are not a quantifier and, the pattern having
    no [u] flag, they are matched literally. *)
Definition hard_pieces (maxLen : Z) (w : jsstring) : completion (list jsstring) :=
  match maxLen with
  | Zpos p => Normal (Re.dot_pieces (Pos.to_nat p) w)
  | Z0 => Throw SyntaxError
  | Zneg p => Normal (Re.dot_lit (str "{1,-" ++ decimal (Pos.to_nat p) ++ str "}") w)
  end.

(** Level 3: the loop over the words of an over-long sentence. *)
Fixpoint pack_words (maxLen : Z) (words : list jsstring)
    (parts : list jsstring) (wBuf : jsstring)
    : completion (list jsstring * jsstring) :=
  match words with
  | [] => Normal (parts, wBuf)
  | w :: rest =>
    let wCandidate := candidate wBuf (str " ") w in
    if fits wCandidate maxLen then pack_words maxLen rest parts wCandidate
    else if fits w maxLen then pack_words maxLen rest (push_if parts wBuf) w
    else
      hardPieces <- hard_pieces maxLen w ;;
      pack_words maxLen rest (push_if parts wBuf ++ hardPieces) []
  end.

(** Level 2: the loop over the sentences of an over-long paragraph. *)
Fixpoint pack_sentences (maxLen : Z) (sentences : list jsstring)
    (parts : list jsstring) (sBuf : jsstring)
    : completion (list jsstring * jsstring) :=
  match sentences with
  | [] => Normal (parts, sBuf)
  | s :: rest =>
    let sCandidate := candidate sBuf (str " ") s in
    if fits sCandidate maxLen then pack_sentences maxLen rest parts sCandidate
    else if fits s maxLen then pack_sentences maxLen rest (push_if parts sBuf) s
    else
      r <- pack_words maxLen (Re.split Re.spaces s) (push_if parts sBuf) [] ;;
      pack_sentences maxLen rest (push_if (fst r) (snd r)) []
  end.

(** Level 1: the loop over the paragraphs. *)
Fixpoint pack_paragraphs (maxLen : Z) (paragraphs : list jsstring)
    (parts : list jsstring) (buffer : jsstring)
    : completion (list jsstring * jsstring) :=
  match paragraphs with
  | [] => Normal (parts, buffer)
  | p :: rest =>
    let cand := candidate buffer [c_nl; c_nl] p in
    if fits cand maxLen then pack_paragraphs maxLen rest parts cand
    else if fits p maxLen then pack_paragraphs maxLen rest (push_if parts buffer) p
    else
      r <- pack_sentences maxLen (Re.split Re.sentence_gap p)
             (push_if parts buffer) [] ;;
      pack_paragraphs maxLen rest (push_if (fst r) (snd r)) []
  end.

(** The final safety pass over one part. *)
Definition safety (part : jsstring) : list jsstring :=
  if fits part MAX_TELEGRAM then [part]
  else Re.dot_pieces (Z.to_nat SAFE_BUDGET) part.

Definition chunkForTelegram (text : jsstring) (maxLen : Z)
    : completion (list jsstring) :=
  if negb (truthy text) || fits text maxLen then Normal [text]
  else
    r <- pack_paragraphs maxLen (Re.split Re.newlines2 text) [] [] ;;
    Normal (flat_map safety (push_if (fst r) (snd r))).

(** [chunkForTelegram(text)] with the default argument. *)
Definition chunkForTelegram_default (text : jsstring) : completion (list jsstring) :=
  chunkForTelegram text SAFE_BUDGET.



(** ** Replacement primitives of the escaper *)

Module Subst.

(** [text.replace(re, callback)] for a global pattern given by what it
    captures and how long its match is at the current position.  The
    callback threads the state it mutates (the placeholder table). *)
Fixpoint replace_at {A St : Type}
    (pat : option char16 -> jsstring -> option (A * nat))
    (cb : St -> A -> jsstring * St)
    (prev : option char16) (s : jsstring) (skip : nat) (st : St)
    : jsstring * St :=
  match s with
  | [] => ([], st)
  | c :: s' =>
    match skip with
    | S k => replace_at pat cb (Some c) s' k st
    | 0 =>
      match pat prev s with
      | Some (a, S k) =>
        let (r, st1) := cb st a in
        let (out, st2) := replace_at pat cb (Some c) s' k st1 in
        (r ++ out, st2)
      | _ =>
        let (out, st1) := replace_at pat cb (Some c) s' 0 st in
        (c :: out, st1)
      end
    end
  end.

(** [text.replace(/D([\s\S]{min,}?)D/g, callback)] for a literal delimiter
    [D]: the span opens at the first [D] and closes at the first [D] that
    leaves at least [min] code units in between.  [inner] is [Some i] while
    a span is open, [i] being its interior so far, reversed.  A span left
    open at the end of the text was no match, and nothing after its opening
    delimiter can match either. *)
Fixpoint delim_go {St : Type} (d : jsstring) (min : nat)
    (cb : St -> jsstring -> jsstring * St)
    (s : jsstring) (inner : option jsstring) (skip : nat) (st : St)
    : jsstring * St :=
  match s with
  | [] =>
    match inner with
    | None => ([], st)
    | Some i => (d ++ rev i, st)
    end
  | c :: s' =>
    match skip with
    | S k => delim_go d min cb s' inner k st
    | 0 =>
      match inner with
      | None =>
        if Re.starts_with d s
        then delim_go d min cb s' (Some []) (List.length d - 1) st
        else let (out, st1) := delim_go d min cb s' None 0 st in (c :: out, st1)
      | Some i =>
        if (min <=? List.length i) && Re.starts_with d s
        then
          let (r, st1) := cb st (rev i) in
          let (out, st2) := delim_go d min cb s' None (List.length d - 1) st1 in
          (r ++ out, st2)
        else delim_go d min cb s' (Some (c :: i)) 0 st
      end
    end
  end.

Definition replace_delim {St : Type} (d : jsstring) (min : nat)
    (cb : St -> jsstring -> jsstring * St) (s : jsstring) (st : St)
    : jsstring * St :=
  delim_go d min cb s None 0 st.

(** The replacement text of [String.prototype.replace] when the pattern is
    a string: [$$], [$&], [$`] and [$'] are substitution patterns; with no
    capture groups [$1]..[$99] and [$<] stand for themselves. *)
Fixpoint get_substitution (matched before after repl : jsstring) : jsstring :=
  match repl with
  | [] => []
  | c :: r =>
    if N.eqb c (ch "$") then
      match r with
      | c2 :: r2 =>
        if N.eqb c2 (ch "$") then ch "$" :: get_substitution matched before after r2
        else if N.eqb c2 (ch "&") then matched ++ get_substitution matched before after r2
        else if N.eqb c2 (ch "`") then before ++ get_substitution matched before after r2
        else if N.eqb c2 (ch "'") then after ++ get_substitution matched before after r2
        else c :: get_substitution matched before after r
      | [] => [c]
      end
    else c :: get_substitution matched before after r
  end.

(** [text.replace(pat, repl)] for a non-empty string [pat]: only the first
    occurrence is replaced.  [before] is the text already passed, reversed. *)
Fixpoint replace_first_go (pat repl : jsstring) (s before : jsstring) : jsstring :=
  match s with
  | [] => rev before
  | c :: s' =>
    if Re.starts_with pat s
    then
      let after := skipn (List.length pat) s in
      rev before ++ get_substitution pat (rev before) after repl ++ after
    else replace_first_go pat repl s' (c :: before)
  end.

Definition replace_first (pat repl s : jsstring) : jsstring :=
  replace_first_go pat repl s [].

(** [String.prototype.trim] *)
Fixpoint trim_start (s : jsstring) : jsstring :=
  match s with
  | c :: s' => if is_space c then trim_start s' else s
  | [] => []
  end.

Definition trim (s : jsstring) : jsstring :=
  rev (trim_start (rev (trim_start s))).

End Subst.

Module SubstC.

(** [text.replace(re, callback)] as in [Subst.replace_at], for a callback
    whose body may throw: the error leaves [replace] at once. *)
Fixpoint replace_at {A St : Type}
    (pat : option char16 -> jsstring -> option (A * nat))
    (cb : St -> A -> completion (jsstring * St))
    (prev : option char16) (s : jsstring) (skip : nat) (st : St)
    : completion (jsstring * St) :=
  match s with
  | [] => Normal ([], st)
  | c :: s' =>
    match skip with
    | S k => replace_at pat cb (Some c) s' k st
    | 0 =>
      match pat prev s with
      | Some (a, S k) =>
        r <- cb st a ;;
        o <- replace_at pat cb (Some c) s' k (snd r) ;;
        Normal (fst r ++ fst o, snd o)
      | _ =>
        o <- replace_at pat cb (Some c) s' 0 st ;;
        Normal (c :: fst o, snd o)
      end
    end
  end.

(** [try { body } catch {}] for a body that returns from the function: a
    normal completion is the function's result, an error is swallowed and
    the statements after the [try] run. *)
Definition try_return {A} (body : completion A) (after : completion A) : completion A :=
  match body with
  | Normal a => Normal a
  | Throw _ => after
  end.

End SubstC.

(** ** The escaper *)

(** The class [[\\_*[\]()~`>#+\-=|{}.!]]. *)
Definition reserved : list char16 :=
  [ch "\"; ch "_"; ch "*"; ch "["; ch "]"; ch "("; ch ")"; ch "~"; ch "`";
   ch ">"; ch "#"; ch "+"; ch "-"; ch "="; ch "|"; ch "{"; ch "}"; ch ".";
   ch "!"].

Definition is_reserved (c : char16) : bool := mem c reserved.

(** The replacement ['\\$1'] of one matched code unit, or the code unit
    itself where the class does not match. *)
Definition escape_unit (c : char16) : jsstring :=
  if is_reserved c then [ch "\"; c] else [c].

Definition escapeMarkdownV2 (text : jsstring) : jsstring :=
  if negb (truthy text) then [] else flat_map escape_unit text.

Definition escape_url_unit (c : char16) : jsstring :=
  if mem c [ch ")"; ch "\"] then [ch "\"; c] else [c].

Definition escapeForUrl (url : jsstring) : jsstring :=
  flat_map escape_url_unit url.

Definition is_alpha (c : char16) : bool :=
  ((97 <=? c) && (c <=? 122) || (65 <=? c) && (c <=? 90))%N.

Definition is_digit (c : char16) : bool := ((48 <=? c) && (c <=? 57))%N.

(** The class [[a-z0-9.-]] under the [i] flag. *)
Definition is_host_char (c : char16) : bool :=
  is_alpha c || is_digit c || mem c [ch "."; ch "-"].

(** The test [domainLike] of the source: a host of letters, digits, dots
    and hyphens (the [i] flag is on), a dot, two or more letters, and an
    optional tail that opens with one of [/ : ? #] and stays on one line,
    anchored at both ends of [raw].  The optional tail
    starts with a code unit outside the host class, so the host part is the
    longest prefix in that class; its last dot must have something before
    it and at least two letters, and only letters, after it. *)
Definition domain_like (raw : jsstring) : bool :=
  let n := Re.run is_host_char raw in
  let host := rev (firstn n raw) in
  let tl := skipn n raw in
  let b := Re.run is_alpha host in
  (2 <=? b)
  && match skipn b host with
     | c :: _ :: _ => N.eqb c (ch ".")
     | _ => false
     end
  && match tl with
     | [] => true
     | c :: r =>
       mem c [ch "/"; ch ":"; ch "?"; ch "#"]
       && forallb (fun x => negb (is_line_terminator x)) r
     end.

(** The heading pattern of [normalizeHeadings] (flags [gm]) at one
    position: one to six [#], white space, and the rest of the line as the
    title; the result is the captured title and the length of the match.
    [^] holds at the start of the text and after a line terminator. *)
Definition heading_at (prev : option char16) (s : jsstring)
    : option (jsstring * nat) :=
  let at_line_start :=
    match prev with
    | None => true
    | Some c => is_line_terminator c
    end in
  if at_line_start then
    let h := Re.run (N.eqb (ch "#")) s in
    if (1 <=? h) && (h <=? 6) then
      let s1 := skipn h s in
      match Re.run is_space s1 with
      | 0 => None
      | S _ as w =>
        let s2 := skipn w s1 in
        let t := Re.run (fun x => negb (is_line_terminator x)) s2 in
        Some (firstn t s2, h + w + t)
      end
    else None
  else None.

Definition normalizeHeadings (text : jsstring) : jsstring :=
  fst (Subst.replace_at heading_at
         (fun (_ : unit) title => (ch "*" :: Subst.trim title ++ [ch "*"], tt))
         None text 0 tt).

Definition normalizeCommonMd (text : jsstring) : jsstring :=
  let wrap (d : jsstring) := fun (_ : unit) inner => (d ++ inner ++ d, tt) in
  let t1 := fst (Subst.replace_delim (str "**") 0 (wrap (str "*")) text tt) in
  fst (Subst.replace_delim (str "__") 0 (wrap (str "_")) t1 tt).

(** [/\[([^\]\n]+)\]\(([^)]+)\)/g] at one position: label, url and the
    length of the match.  Both classes exclude the code unit that has to
    follow, so each greedy run is the only candidate. *)
Definition link_at (_ : option char16) (s : jsstring)
    : option ((jsstring * jsstring) * nat) :=
  match s with
  | c :: s1 =>
    if N.eqb c (ch "[") then
      let n := Re.run (fun x => negb (N.eqb x (ch "]") || N.eqb x c_nl)) s1 in
      match n, skipn n s1 with
      | S _, c1 :: c2 :: s2 =>
        if N.eqb c1 (ch "]") && N.eqb c2 (ch "(") then
          let m := Re.run (fun x => negb (N.eqb x (ch ")"))) s2 in
          match m, skipn m s2 with
          | S _, _ :: _ => Some ((firstn n s1, firstn m s2), n + m + 4)
          | _, _ => None
          end
        else None
      | _, _ => None
      end
    else None
  | [] => None
  end.

Record placeholders := mkPlaceholders {
  links : list jsstring;
  bolds : list jsstring;
  italics : list jsstring;
  spoilers : list jsstring
}.

Definition no_placeholders : placeholders := mkPlaceholders [] [] [] [].

(** The placeholder of category [k] and index [idx]. *)
Definition token (k : char16) (idx : nat) : jsstring :=
  c_lbr :: k :: decimal idx ++ [c_rbr].

(** [list.forEach((md, i) => { text = text.replace(token(i), md); })],
    from index [i] on. *)
Fixpoint restore (k : char16) (mds : list jsstring) (i : nat) (text : jsstring)
    : jsstring :=
  match mds with
  | [] => text
  | md :: rest => restore k rest (S i) (Subst.replace_first (token k i) md text)
  end.

Section Escaper.

(** [new URL(raw).toString()]: the serialised URL, or the TypeError the
    constructor throws when [raw] does not parse. *)
Variable URL : jsstring -> completion jsstring.

Definition normalizeAndValidateUrl (url : jsstring) : completion (option jsstring) :=
  let raw := Subst.trim url in
  SubstC.try_return (u <- URL raw ;; Normal (Some u))
    (if domain_like raw
     then SubstC.try_return (u2 <- URL (str "https://" ++ raw) ;; Normal (Some u2))
            (Normal None)
     else Normal None).

Definition link_cb (ph : placeholders) (m : jsstring * jsstring)
    : completion (jsstring * placeholders) :=
  let (label, url) := m in
  normalizedUrl <- normalizeAndValidateUrl url ;;
  match normalizedUrl with
  | Some ((_ :: _) as u) =>
    let ph_ := token (ch "L") (List.length (links ph)) in
    let safeLabel := escapeMarkdownV2 label in
    let safeUrl := escapeForUrl u in
    Normal (ph_,
            mkPlaceholders
              (links ph ++ [str "[" ++ safeLabel ++ str "](" ++ safeUrl ++ str ")"])
              (bolds ph) (italics ph) (spoilers ph))
  | _ => Normal (escapeMarkdownV2 label, ph)
  end.

Definition bold_cb (ph : placeholders) (inner : jsstring) : jsstring * placeholders :=
  (token (ch "B") (List.length (bolds ph)),
   mkPlaceholders (links ph)
     (bolds ph ++ [str "*" ++ escapeMarkdownV2 inner ++ str "*"])
     (italics ph) (spoilers ph)).

Definition italic_cb (ph : placeholders) (inner : jsstring) : jsstring * placeholders :=
  (token (ch "I") (List.length (italics ph)),
   mkPlaceholders (links ph) (bolds ph)
     (italics ph ++ [str "_" ++ escapeMarkdownV2 inner ++ str "_"])
     (spoilers ph)).

Definition spoiler_cb (ph : placeholders) (inner : jsstring) : jsstring * placeholders :=
  (token (ch "S") (List.length (spoilers ph)),
   mkPlaceholders (links ph) (bolds ph) (italics ph)
     (spoilers ph ++ [str "||" ++ escapeMarkdownV2 inner ++ str "||"])).

(** The text and the table after the three span extractions that follow
    the links. *)
Definition extract_spans (text : jsstring) (ph : placeholders)
    : jsstring * placeholders :=
  let (t1, p1) := Subst.replace_delim (str "*") 1 bold_cb text ph in
  let (t2, p2) := Subst.replace_delim (str "_") 1 italic_cb t1 p1 in
  Subst.replace_delim (str "||") 1 spoiler_cb t2 p2.

Definition restore_all (ph : placeholders) (text : jsstring) : jsstring :=
  restore (ch "S") (spoilers ph) 0
    (restore (ch "I") (italics ph) 0
       (restore (ch "B") (bolds ph) 0
          (restore (ch "L") (links ph) 0 text))).

(** The globally escaped working text and the table, before restoration. *)
Definition working_text (inputText : jsstring)
    : completion (jsstring * placeholders) :=
  let text := normalizeHeadings (normalizeCommonMd inputText) in
  r <- SubstC.replace_at link_at link_cb None text 0 no_placeholders ;;
  let (t, ph) := extract_spans (fst r) (snd r) in
  Normal (escapeMarkdownV2 t, ph).

Definition processMarkdownV2Safe (inputText : jsstring) : completion jsstring :=
  if negb (truthy inputText) then Normal []
  else
    w <- working_text inputText ;;
    Normal (restore_all (snd w) (fst w)).

End Escaper.

(** ** A fragment of the URL constructor

    The general results below hold for every behaviour of [URL].  Closed
    examples need one; [URL_fragment] follows the URL Standard on the two
    kinds of input the examples use.  With no base URL, a string without a
    scheme (an ASCII letter, then letters, digits, [+], [-] or [.], then a
    colon, after leading controls and spaces are stripped and tabs and
    newlines removed) is a failure.  An [http] or [https] URL that is
    already in serialised form (a host of dot-separated lower-case words, a
    path that starts with a slash, and only code units that the parser
    copies) is returned as it is.  Any other string with a scheme is outside
    the fragment; it is reported as a failure and no example relies on it. *)

Definition url_cleaned (raw : jsstring) : jsstring :=
  let fix strip (s : jsstring) : jsstring :=
    match s with
    | c :: s' => if (c <=? 32)%N then strip s' else s
    | [] => []
    end in
  filter (fun c => negb (mem c [9; 10; 13]%N)) (strip raw).

Definition has_scheme (raw : jsstring) : bool :=
  match url_cleaned raw with
  | c :: s =>
    is_alpha c
    && match skipn (Re.run (fun x => is_alpha x || is_digit x
                                     || mem x [ch "+"; ch "-"; ch "."]) s) s with
       | c2 :: _ => N.eqb c2 (ch ":")
       | [] => false
       end
  | [] => false
  end.

Definition is_lower (c : char16) : bool := ((97 <=? c) && (c <=? 122))%N.

(** Dot-separated non-empty lower-case words. *)
Fixpoint plain_host (s : jsstring) (word : bool) : bool :=
  match s with
  | [] => word
  | c :: s' =>
    if is_lower c then plain_host s' true
    else N.eqb c (ch ".") && word && plain_host s' false
  end.

(** Code units of a path that the parser copies as they are. *)
Definition plain_path_char (c : char16) : bool :=
  is_alpha c || is_digit c
  || mem c [ch "/"; ch "_"; ch "-"; ch "~"; ch "="; ch "&"].

Definition serialised_http (raw : jsstring) : bool :=
  let after (p : jsstring) :=
    if Re.starts_with p raw then Some (skipn (List.length p) raw) else None in
  forallb (fun c => plain_path_char c || mem c [ch ":"; ch "."]) raw
  && match (match after (str "https://") with
            | Some r => Some r
            | None => after (str "http://")
            end) with
     | Some r =>
       let n := Re.run (fun x => negb (N.eqb x (ch "/"))) r in
       plain_host (firstn n r) false
       && match skipn n r with
          | _ :: p => forallb plain_path_char p
          | [] => false
          end
     | None => false
     end.

Definition URL_fragment (raw : jsstring) : completion jsstring :=
  if has_scheme raw && serialised_http raw then Normal raw else Throw TypeError.

(** ** Vocabulary of the statements *)

Definition nl : jsstring := [c_nl].

(** [n] times the letter [a]: one unbreakable word. *)
Definition a_x (n : nat) : jsstring := repeat (ch "a") n.

(** A string has ink when some code unit of it is not white space. *)
Definition has_ink (s : jsstring) : bool :=
  existsb (fun c => negb (is_space c)) s.

(** The state of a packing loop carries ink when a finished part or the
    buffer does. *)
Definition carries_ink (parts : list jsstring) (buf : jsstring) : Prop :=
  Exists (fun p => has_ink p = true) parts \/ has_ink buf = true.

(** A separator pattern that matches white space only. *)
Definition blank_sep (m : Re.sep) : Prop :=
  forall prev s, forallb is_space (firstn (m prev s) s) = true.

(** [pat] occurs in [s] ([s.includes(pat)]). *)
Fixpoint includes (pat s : jsstring) : bool :=
  Re.starts_with pat s
  || match s with
     | [] => false
     | _ :: s' => includes pat s'
     end.

(** The positions, counted from [i], at which [pat] occurs in [s]. *)
Fixpoint occurrences_from (i : nat) (pat s : jsstring) : list nat :=
  match s with
  | [] => []
  | _ :: s' =>
    (if Re.starts_with pat s then [i] else []) ++ occurrences_from (S i) pat s'
  end.

Definition occurrences (pat s : jsstring) : list nat := occurrences_from 0 pat s.

(** The four placeholder categories. *)
Definition categories : list char16 := [ch "L"; ch "B"; ch "I"; ch "S"].


(** ** The target dialect

    A text is well escaped when it reads, from left to right, as plain code
    units that are not reserved, reserved code units behind a backslash,
    and spans: a bold, italic or spoiler span is a well escaped body
    between two equal delimiters, a link span is a well escaped label
    between brackets followed by a destination between parentheses.  What
    a destination has to satisfy is a parameter. *)

Section Dialect.

Variable destination : jsstring -> Prop.

Inductive well_escaped : jsstring -> Prop :=
| we_nil : well_escaped []
| we_plain (c : char16) (s : jsstring) :
    is_reserved c = false -> well_escaped s -> well_escaped (c :: s)
| we_escaped (c : char16) (s : jsstring) :
    is_reserved c = true -> well_escaped s -> well_escaped (ch "\" :: c :: s)
| we_span (d body s : jsstring) :
    In d [str "*"; str "_"; str "||"] ->
    well_escaped body -> well_escaped s ->
    well_escaped (d ++ body ++ d ++ s)
| we_link (label url s : jsstring) :
    well_escaped label -> destination url -> well_escaped s ->
    well_escaped (str "[" ++ label ++ str "](" ++ url ++ str ")" ++ s).

End Dialect.

(** A link destination in which every [)] and every backslash is behind a
    backslash. *)
Inductive url_escaped : jsstring -> Prop :=
| ue_nil : url_escaped []
| ue_plain (c : char16) (s : jsstring) :
    mem c [ch ")"; ch "\"] = false -> url_escaped s -> url_escaped (c :: s)
| ue_escaped (c : char16) (s : jsstring) :
    mem c [ch ")"; ch "\"] = true -> url_escaped s ->
    url_escaped (ch "\" :: c :: s).

(** The number of asterisks that are not behind a backslash. *)
Fixpoint bare_stars (s : jsstring) : nat :=
  match s with
  | [] => 0
  | c :: s' =>
    if N.eqb c (ch "\") then
      match s' with
      | [] => 0
      | _ :: s'' => bare_stars s''
      end
    else if N.eqb c (ch "*") then S (bare_stars s')
    else bare_stars s'
  end.

(** A working text is tokenized by [l] when its occurrences of the code
    unit that opens a placeholder are exactly the placeholders listed in
    [l], in order. *)
Inductive tokenized : list (char16 * nat) -> jsstring -> Prop :=
| tk_nil : tokenized [] []
| tk_char (c : char16) (l : list (char16 * nat)) (s : jsstring) :
    c <> c_lbr -> tokenized l s -> tokenized l (c :: s)
| tk_token (k : char16) (i : nat) (l : list (char16 * nat)) (s : jsstring) :
    In k categories -> tokenized l s ->
    tokenized ((k, i) :: l) (token k i ++ s).

(** No code unit of [s] is in [l]. *)
Definition avoids (l : list char16) (s : jsstring) : bool :=
  forallb (fun c => negb (mem c l)) s.

(** Code units that start or delimit markup, or open a placeholder. *)
Definition markup_units : list char16 :=
  [ch "*"; ch "_"; ch "#"; ch "["; ch "|"; c_lbr].





(** Any code unit but the one that opens a placeholder. *)
Definition no_lbr (c : char16) : Prop := c <> c_lbr.

(** Equality of placeholder marks (category and index) is decidable. *)
Definition mark_eq_dec (x y : char16 * nat) : {x = y} + {x <> y}.
Proof. decide equality; [apply Nat.eq_dec|apply N.eq_dec]. Defined.

(** The code units the span delimiters are made of. *)
Definition delimiter_units : list char16 := [ch "*"; ch "_"; ch "|"].

(** The marks of [m] link placeholders numbered from [n]. *)
Definition link_marks (n m : nat) : list (char16 * nat) :=
  map (pair (ch "L")) (seq n m).

(** The code units of a string that are not white space, in order. *)
Definition ink_of (s : jsstring) : jsstring :=
  filter (fun c => negb (is_space c)) s.

(** A string without any white space: one unbreakable token. *)
Definition unbroken (s : jsstring) : bool :=
  forallb (fun c => negb (is_space c)) s.

(** The start of a line: the start of the text, or right behind a line
    terminator. *)
Definition line_start (before : jsstring) : bool :=
  match rev before with
  | [] => true
  | c :: _ => is_line_terminator c
  end.

(** The end of a line: the end of the text, or right before a line
    terminator. *)
Definition line_end (after : jsstring) : bool :=
  match after with
  | [] => true
  | c :: _ => is_line_terminator c
  end.

(** A string that stays on one line. *)
Definition one_line (s : jsstring) : bool :=
  forallb (fun c => negb (is_line_terminator c)) s.

(** The table of one placeholder category. *)
Definition entries (k : char16) (ph : placeholders) : list jsstring :=
  if N.eqb k (ch "L") then links ph
  else if N.eqb k (ch "B") then bolds ph
  else if N.eqb k (ch "I") then italics ph
  else if N.eqb k (ch "S") then spoilers ph
  else [].

(** * Properties of the segmenter *)

Section SegmenterFacts.

Lemma truthy_nonempty (s : jsstring) : truthy s = true <-> s <> [].
Proof. destruct s; simpl; split; congruence. Qed.

Lemma fits_len (s : jsstring) (maxLen : Z) :
  fits s maxLen = true <-> (len s <= maxLen)%Z.
Proof. unfold fits. apply Z.leb_le. Qed.

Lemma emit_bound (n : nat) (cur : jsstring) :
  List.length cur <= n ->
  Forall (fun p => 1 <= List.length p <= n) (Re.emit cur).
Proof.
  destruct cur as [|c cur]; simpl; intros H; constructor; [|constructor].
  rewrite length_app, length_rev. simpl. lia.
Qed.

(** Every piece of a bounded-quantifier match has between one and [n] code
    units. *)
Lemma dot_pieces_go_bound (n : nat) (s cur : jsstring) (room : nat) :
  1 <= n -> List.length cur + room = n ->
  Forall (fun p => 1 <= List.length p <= n) (Re.dot_pieces_go n s cur room).
Proof.
  intros Hn. revert cur room.
  induction s as [|c s IH]; intros cur room Hroom; simpl.
  - apply emit_bound. lia.
  - destruct (is_line_terminator c).
    + apply Forall_app. split; [apply emit_bound; lia | apply IH; simpl; lia].
    + destruct room as [|r].
      * apply Forall_app. split; [apply emit_bound; lia | apply IH; simpl; lia].
      * apply IH. simpl. lia.
Qed.

Lemma dot_pieces_bound (n : nat) (s : jsstring) :
  1 <= n -> Forall (fun p => 1 <= List.length p <= n) (Re.dot_pieces n s).
Proof. intros Hn. apply dot_pieces_go_bound; simpl; lia. Qed.

Lemma dot_lit_go_nonempty (lit s : jsstring) (skip : nat) :
  Forall (fun p => p <> []) (Re.dot_lit_go lit s skip).
Proof.
  revert skip. induction s as [|c s IH]; intros skip; simpl; [constructor|].
  destruct skip; [|apply IH].
  destruct (negb (is_line_terminator c) && Re.starts_with lit s); [|apply IH].
  constructor; [discriminate | apply IH].
Qed.

Lemma hard_pieces_nonempty (maxLen : Z) (w : jsstring) (l : list jsstring) :
  hard_pieces maxLen w = Normal l -> Forall (fun p => p <> []) l.
Proof.
  destruct maxLen as [|p|p]; simpl; intros H; inversion H; subst; clear H.
  - eapply Forall_impl; [|apply dot_pieces_bound; lia].
    intros a [Ha _] ->. simpl in Ha. lia.
  - apply dot_lit_go_nonempty.
Qed.

Lemma hard_pieces_normal (maxLen : Z) (w : jsstring) :
  maxLen <> 0%Z -> exists l, hard_pieces maxLen w = Normal l.
Proof. destruct maxLen; simpl; intros H; [congruence | eauto | eauto]. Qed.

Lemma push_if_nonempty (parts : list jsstring) (buf : jsstring) :
  Forall (fun p => p <> []) parts -> Forall (fun p => p <> []) (push_if parts buf).
Proof.
  intros H. unfold push_if. destruct buf; simpl; [assumption|].
  apply Forall_app. split; [assumption|]. constructor; [discriminate|constructor].
Qed.

(** The three packing loops complete as soon as the bound is not zero. *)
Lemma pack_words_normal (maxLen : Z) (words parts : list jsstring) (wBuf : jsstring) :
  maxLen <> 0%Z -> exists r, pack_words maxLen words parts wBuf = Normal r.
Proof.
  intros Hm. revert parts wBuf.
  induction words as [|w rest IH]; intros parts wBuf; simpl; [eauto|].
  destruct (fits _ maxLen); [apply IH|].
  destruct (fits w maxLen); [apply IH|].
  destruct (hard_pieces_normal w Hm) as [l ->]. simpl. apply IH.
Qed.

Lemma pack_sentences_normal (maxLen : Z) (ss parts : list jsstring) (sBuf : jsstring) :
  maxLen <> 0%Z -> exists r, pack_sentences maxLen ss parts sBuf = Normal r.
Proof.
  intros Hm. revert parts sBuf.
  induction ss as [|s rest IH]; intros parts sBuf; simpl; [eauto|].
  destruct (fits _ maxLen); [apply IH|].
  destruct (fits s maxLen); [apply IH|].
  destruct (pack_words_normal (Re.split Re.spaces s) (push_if parts sBuf) [] Hm)
    as [r ->].
  simpl. apply IH.
Qed.

Lemma pack_paragraphs_normal (maxLen : Z) (ps parts : list jsstring) (buffer : jsstring) :
  maxLen <> 0%Z -> exists r, pack_paragraphs maxLen ps parts buffer = Normal r.
Proof.
  intros Hm. revert parts buffer.
  induction ps as [|p rest IH]; intros parts buffer; simpl; [eauto|].
  destruct (fits _ maxLen); [apply IH|].
  destruct (fits p maxLen); [apply IH|].
  destruct (pack_sentences_normal (Re.split Re.sentence_gap p)
              (push_if parts buffer) [] Hm) as [r ->].
  simpl. apply IH.
Qed.

(** Only non-empty strings are ever pushed. *)
Lemma pack_words_nonempty (maxLen : Z) (words parts : list jsstring)
    (wBuf : jsstring) (r : list jsstring * jsstring) :
  Forall (fun p => p <> []) parts ->
  pack_words maxLen words parts wBuf = Normal r ->
  Forall (fun p => p <> []) (fst r).
Proof.
  revert parts wBuf.
  induction words as [|w rest IH]; intros parts wBuf Hp; simpl.
  - intros H. inversion H. assumption.
  - destruct (fits _ maxLen); [apply IH; assumption|].
    destruct (fits w maxLen); [apply IH; apply push_if_nonempty; assumption|].
    destruct (hard_pieces maxLen w) as [l|e] eqn:Hh; simpl; [|discriminate].
    apply IH. apply Forall_app. split.
    + apply push_if_nonempty; assumption.
    + eapply hard_pieces_nonempty; eassumption.
Qed.

Lemma pack_sentences_nonempty (maxLen : Z) (ss parts : list jsstring)
    (sBuf : jsstring) (r : list jsstring * jsstring) :
  Forall (fun p => p <> []) parts ->
  pack_sentences maxLen ss parts sBuf = Normal r ->
  Forall (fun p => p <> []) (fst r).
Proof.
  revert parts sBuf.
  induction ss as [|s rest IH]; intros parts sBuf Hp; simpl.
  - intros H. inversion H. assumption.
  - destruct (fits _ maxLen); [apply IH; assumption|].
    destruct (fits s maxLen); [apply IH; apply push_if_nonempty; assumption|].
    destruct (pack_words maxLen _ _ _) as [rw|e] eqn:Hw; simpl; [|discriminate].
    apply IH. apply push_if_nonempty.
    eapply pack_words_nonempty; [|eassumption].
    apply push_if_nonempty; assumption.
Qed.

Lemma pack_paragraphs_nonempty (maxLen : Z) (ps parts : list jsstring)
    (buffer : jsstring) (r : list jsstring * jsstring) :
  Forall (fun p => p <> []) parts ->
  pack_paragraphs maxLen ps parts buffer = Normal r ->
  Forall (fun p => p <> []) (fst r).
Proof.
  revert parts buffer.
  induction ps as [|p rest IH]; intros parts buffer Hp; simpl.
  - intros H. inversion H. assumption.
  - destruct (fits _ maxLen); [apply IH; assumption|].
    destruct (fits p maxLen); [apply IH; apply push_if_nonempty; assumption|].
    destruct (pack_sentences maxLen _ _ _) as [rs|e] eqn:Hs; simpl; [|discriminate].
    apply IH. apply push_if_nonempty.
    eapply pack_sentences_nonempty; [|eassumption].
    apply push_if_nonempty; assumption.
Qed.

Lemma safety_nonempty (part : jsstring) :
  part <> [] -> Forall (fun p => p <> []) (safety part).
Proof.
  intros Hp. unfold safety. destruct (fits part MAX_TELEGRAM).
  - constructor; [assumption|constructor].
  - eapply Forall_impl; [|apply dot_pieces_bound; unfold SAFE_BUDGET; lia].
    intros a [Ha _] ->. simpl in Ha. lia.
Qed.

(** What the safety pass lets through is within the hard cap. *)
Lemma safety_capped (part : jsstring) :
  Forall (fun p => (len p <= MAX_TELEGRAM)%Z) (safety part).
Proof.
  unfold safety. destruct (fits part MAX_TELEGRAM) eqn:Hf.
  - constructor; [apply fits_len; assumption|constructor].
  - eapply Forall_impl; [|apply dot_pieces_bound; unfold SAFE_BUDGET; lia].
    intros a [_ Ha]. unfold len, MAX_TELEGRAM. unfold SAFE_BUDGET in Ha. lia.
Qed.

Lemma flat_map_Forall {A B} (P : A -> Prop) (Q : B -> Prop) (f : A -> list B)
    (l : list A) :
  (forall a, P a -> Forall Q (f a)) -> Forall P l -> Forall Q (flat_map f l).
Proof.
  intros Hf. induction 1 as [|a l Ha Hl IH]; simpl; [constructor|].
  apply Forall_app. split; [apply Hf; assumption | assumption].
Qed.

End SegmenterFacts.

Section InkFacts.

Lemma has_ink_app (a b : jsstring) : has_ink (a ++ b) = has_ink a || has_ink b.
Proof. apply existsb_app. Qed.

Lemma has_ink_rev (a : jsstring) : has_ink (rev a) = has_ink a.
Proof.
  induction a as [|c a IH]; simpl; [reflexivity|].
  rewrite has_ink_app, IH. simpl. rewrite orb_false_r. apply orb_comm.
Qed.

Lemma has_ink_truthy (a : jsstring) : has_ink a = true -> truthy a = true.
Proof. destruct a; simpl; [discriminate|reflexivity]. Qed.

Lemma run_firstn (p : char16 -> bool) (s : jsstring) :
  forallb p (firstn (Re.run p s) s) = true.
Proof.
  induction s as [|c s IH]; simpl; [reflexivity|].
  destruct (p c) eqn:Hc; simpl; [rewrite Hc; assumption | reflexivity].
Qed.

Lemma forallb_weaken (p q : char16 -> bool) (s : jsstring) :
  (forall c, p c = true -> q c = true) -> forallb p s = true -> forallb q s = true.
Proof.
  intros Hpq. induction s as [|c s IH]; simpl; [reflexivity|].
  intros H. apply andb_true_iff in H. destruct H as [H1 H2].
  rewrite (Hpq _ H1), (IH H2). reflexivity.
Qed.

Lemma blank_newlines2 : blank_sep Re.newlines2.
Proof.
  intros prev s. unfold Re.newlines2.
  destruct (2 <=? Re.run (N.eqb c_nl) s); [|reflexivity].
  eapply forallb_weaken; [|apply run_firstn].
  intros c Hc. apply N.eqb_eq in Hc. subst c. reflexivity.
Qed.

Lemma blank_spaces : blank_sep Re.spaces.
Proof. intros prev s. apply run_firstn. Qed.

Lemma blank_sentence_gap : blank_sep Re.sentence_gap.
Proof.
  intros prev s. unfold Re.sentence_gap.
  destruct prev as [c|]; [|reflexivity].
  destruct (Re.is_sentence_end c); [|reflexivity].
  destruct (skipn (Re.run is_space s) s); [reflexivity|apply run_firstn].
Qed.

(** Splitting on white space loses no ink. *)
Lemma split_go_ink (m : Re.sep) (Hm : blank_sep m) (s : jsstring) :
  forall prev cur skip,
    forallb is_space (firstn skip s) = true ->
    has_ink cur || has_ink s = true ->
    Exists (fun p => has_ink p = true) (Re.split_go m prev s cur skip).
Proof.
  induction s as [|c s IH]; intros prev cur skip Hskip Hink; simpl.
  - constructor. rewrite has_ink_rev. simpl in Hink. rewrite orb_false_r in Hink.
    assumption.
  - destruct skip as [|k].
    + destruct (m prev (c :: s)) as [|k] eqn:Hmk.
      * apply IH; [reflexivity|]. simpl. simpl in Hink.
        rewrite <- Hink. destruct (negb (is_space c)), (has_ink cur); reflexivity.
      * pose proof (Hm prev (c :: s)) as Hb. rewrite Hmk in Hb. simpl in Hb.
        apply andb_true_iff in Hb. destruct Hb as [Hc Hk].
        simpl in Hink. rewrite Hc in Hink. simpl in Hink.
        destruct (has_ink cur) eqn:Hcur.
        -- apply Exists_cons_hd. rewrite has_ink_rev. assumption.
        -- apply Exists_cons_tl. apply IH; [assumption|]. simpl. assumption.
    + simpl in Hskip. apply andb_true_iff in Hskip. destruct Hskip as [Hc Hk].
      apply IH; [assumption|]. simpl in Hink. rewrite Hc in Hink. assumption.
Qed.

Lemma split_ink (m : Re.sep) (s : jsstring) :
  blank_sep m -> has_ink s = true ->
  Exists (fun p => has_ink p = true) (Re.split m s).
Proof.
  intros Hm Hs. unfold Re.split. apply split_go_ink; [assumption|reflexivity|].
  simpl. assumption.
Qed.

Lemma line_terminator_is_space (c : char16) :
  is_line_terminator c = true -> is_space c = true.
Proof.
  unfold is_line_terminator, is_space, mem. simpl. intros H.
  repeat (apply orb_true_iff in H; destruct H as [H|H];
          [apply N.eqb_eq in H; subst c; reflexivity|]).
  discriminate.
Qed.

Lemma emit_ink (cur : jsstring) :
  has_ink cur = true -> Exists (fun p => has_ink p = true) (Re.emit cur).
Proof.
  intros H. destruct cur as [|c cur]; [discriminate|].
  constructor. rewrite has_ink_rev. assumption.
Qed.

(** Cutting a string into pieces that avoid line terminators loses no ink. *)
Lemma dot_pieces_go_ink (n : nat) (s : jsstring) :
  forall cur room,
    has_ink cur || has_ink s = true ->
    Exists (fun p => has_ink p = true) (Re.dot_pieces_go n s cur room).
Proof.
  induction s as [|c s IH]; intros cur room Hink; simpl.
  - apply emit_ink. simpl in Hink. rewrite orb_false_r in Hink. assumption.
  - destruct (is_line_terminator c) eqn:Hlt.
    + apply Exists_app. simpl in Hink.
      rewrite (line_terminator_is_space _ Hlt) in Hink. simpl in Hink.
      destruct (has_ink cur) eqn:Hcur; [left; apply emit_ink; assumption|].
      right. apply IH. assumption.
    + destruct room as [|r].
      * apply Exists_app.
        destruct (has_ink cur) eqn:Hcur; [left; apply emit_ink; assumption|].
        right. apply IH. simpl in *. rewrite orb_false_r. assumption.
      * apply IH. simpl in *. rewrite <- Hink.
        destruct (negb (is_space c)), (has_ink cur); reflexivity.
Qed.

Lemma dot_pieces_ink (n : nat) (s : jsstring) :
  has_ink s = true -> Exists (fun p => has_ink p = true) (Re.dot_pieces n s).
Proof. intros H. apply dot_pieces_go_ink. simpl. assumption. Qed.

Lemma push_if_ink (parts : list jsstring) (buf : jsstring) :
  carries_ink parts buf ->
  Exists (fun p => has_ink p = true) (push_if parts buf).
Proof.
  intros [H|H]; unfold push_if.
  - destruct (truthy buf); [apply Exists_app; left|]; assumption.
  - rewrite (has_ink_truthy _ H). apply Exists_app. right. constructor. assumption.
Qed.

Lemma candidate_ink_buf (buf sepr unit : jsstring) :
  has_ink buf = true -> has_ink (candidate buf sepr unit) = true.
Proof.
  intros H. unfold candidate. rewrite (has_ink_truthy _ H).
  rewrite has_ink_app, H. reflexivity.
Qed.

Lemma candidate_ink_unit (buf sepr unit : jsstring) :
  has_ink unit = true -> has_ink (candidate buf sepr unit) = true.
Proof.
  intros H. unfold candidate. destruct (truthy buf); [|assumption].
  rewrite !has_ink_app, H. rewrite !orb_true_r. reflexivity.
Qed.

End InkFacts.

Section PackingKeepsInk.

Variable maxLen : Z.
Hypothesis maxLen_pos : (1 <= maxLen)%Z.

Let inky (p : jsstring) : Prop := has_ink p = true.

Lemma hard_pieces_ink (w : jsstring) (l : list jsstring) :
  hard_pieces maxLen w = Normal l -> has_ink w = true -> Exists inky l.
Proof.
  destruct maxLen as [|p|p]; simpl; try lia.
  intros H Hw. inversion H. apply dot_pieces_ink. assumption.
Qed.

Lemma carries_ink_push (parts : list jsstring) (buf unit : jsstring) :
  carries_ink parts buf \/ has_ink unit = true ->
  carries_ink (push_if parts buf) unit.
Proof.
  intros [H|H]; [left; apply push_if_ink; assumption | right; assumption].
Qed.

Lemma carries_ink_candidate (parts : list jsstring) (buf sepr unit : jsstring) :
  carries_ink parts buf \/ has_ink unit = true ->
  carries_ink parts (candidate buf sepr unit).
Proof.
  intros [[H|H]|H].
  - left. assumption.
  - right. apply candidate_ink_buf. assumption.
  - right. apply candidate_ink_unit. assumption.
Qed.

Ltac split_units H :=
  destruct H as [H|H];
  [ left; left; exact H
  | apply Exists_cons in H; destruct H as [H|H];
    [ left; right; exact H | right; exact H ] ].

Lemma units_cases (parts : list jsstring) (buf u : jsstring) (rest : list jsstring) :
  carries_ink parts buf \/ Exists inky (u :: rest) ->
  (carries_ink parts buf \/ has_ink u = true) \/ Exists inky rest.
Proof. intros H. split_units H. Qed.

Lemma pack_words_ink (words : list jsstring) :
  forall parts wBuf r,
    pack_words maxLen words parts wBuf = Normal r ->
    carries_ink parts wBuf \/ Exists inky words ->
    carries_ink (fst r) (snd r).
Proof.
  induction words as [|w rest IH]; intros parts wBuf r; simpl.
  - intros H [Hc|Hw]; [inversion H; assumption | inversion Hw].
  - intros H Hc. apply units_cases in Hc.
    destruct (fits _ maxLen).
    { eapply IH; [exact H|]. destruct Hc as [Hc|Hc]; [left|right; exact Hc].
      apply carries_ink_candidate. exact Hc. }
    destruct (fits w maxLen).
    { eapply IH; [exact H|]. destruct Hc as [Hc|Hc]; [left|right; exact Hc].
      apply carries_ink_push. exact Hc. }
    destruct (hard_pieces maxLen w) as [l|e] eqn:Hh; simpl in H; [|discriminate].
    eapply IH; [exact H|]. destruct Hc as [[Hc|Hc]|Hc]; [| |right; exact Hc].
    + left. left. apply Exists_app. left. apply push_if_ink. exact Hc.
    + left. left. apply Exists_app. right. eapply hard_pieces_ink; eassumption.
Qed.

Lemma pack_sentences_ink (ss : list jsstring) :
  forall parts sBuf r,
    pack_sentences maxLen ss parts sBuf = Normal r ->
    carries_ink parts sBuf \/ Exists inky ss ->
    carries_ink (fst r) (snd r).
Proof.
  induction ss as [|s rest IH]; intros parts sBuf r; simpl.
  - intros H [Hc|Hw]; [inversion H; assumption | inversion Hw].
  - intros H Hc. apply units_cases in Hc.
    destruct (fits _ maxLen).
    { eapply IH; [exact H|]. destruct Hc as [Hc|Hc]; [left|right; exact Hc].
      apply carries_ink_candidate. exact Hc. }
    destruct (fits s maxLen).
    { eapply IH; [exact H|]. destruct Hc as [Hc|Hc]; [left|right; exact Hc].
      apply carries_ink_push. exact Hc. }
    destruct (pack_words maxLen _ _ _) as [rw|e] eqn:Hw; simpl in H; [|discriminate].
    eapply IH; [exact H|]. destruct Hc as [Hc|Hc]; [left|right; exact Hc].
    left. apply push_if_ink. eapply pack_words_ink; [exact Hw|].
    destruct Hc as [Hc|Hc].
    + left. left. apply push_if_ink. exact Hc.
    + right. apply split_ink; [apply blank_spaces | exact Hc].
Qed.

Lemma pack_paragraphs_ink (ps : list jsstring) :
  forall parts buffer r,
    pack_paragraphs maxLen ps parts buffer = Normal r ->
    carries_ink parts buffer \/ Exists inky ps ->
    carries_ink (fst r) (snd r).
Proof.
  induction ps as [|p rest IH]; intros parts buffer r; simpl.
  - intros H [Hc|Hw]; [inversion H; assumption | inversion Hw].
  - intros H Hc. apply units_cases in Hc.
    destruct (fits _ maxLen).
    { eapply IH; [exact H|]. destruct Hc as [Hc|Hc]; [left|right; exact Hc].
      apply carries_ink_candidate. exact Hc. }
    destruct (fits p maxLen).
    { eapply IH; [exact H|]. destruct Hc as [Hc|Hc]; [left|right; exact Hc].
      apply carries_ink_push. exact Hc. }
    destruct (pack_sentences maxLen _ _ _) as [rs|e] eqn:Hs; simpl in H; [|discriminate].
    eapply IH; [exact H|]. destruct Hc as [Hc|Hc]; [left|right; exact Hc].
    left. apply push_if_ink. eapply pack_sentences_ink; [exact Hs|].
    destruct Hc as [Hc|Hc].
    + left. left. apply push_if_ink. exact Hc.
    + right. apply split_ink; [apply blank_sentence_gap | exact Hc].
Qed.

End PackingKeepsInk.

Lemma safety_ink (part : jsstring) :
  has_ink part = true -> Exists (fun p => has_ink p = true) (safety part).
Proof.
  intros H. unfold safety. destruct (fits part MAX_TELEGRAM).
  - constructor. assumption.
  - apply dot_pieces_ink. assumption.
Qed.

Lemma flat_map_Exists {A B} (P : A -> Prop) (Q : B -> Prop) (f : A -> list B)
    (l : list A) :
  (forall a, P a -> Exists Q (f a)) -> Exists P l -> Exists Q (flat_map f l).
Proof.
  intros Hf. induction 1 as [a l Ha|a l Hl IH]; simpl; apply Exists_app.
  - left. apply Hf. assumption.
  - right. assumption.
Qed.

(** On the splitting path some chunk carries ink whenever the text does. *)
Lemma chunk_keeps_ink (text : jsstring) (maxLen : Z) :
  (1 <= maxLen)%Z -> has_ink text = true ->
  exists parts,
    chunkForTelegram text maxLen = Normal parts
    /\ Exists (fun p => has_ink p = true) parts.
Proof.
  intros Hm Hink. unfold chunkForTelegram.
  destruct (negb (truthy text) || fits text maxLen).
  - eexists. split; [reflexivity|]. constructor. assumption.
  - assert (Hnz : maxLen <> 0%Z) by lia.
    destruct (pack_paragraphs_normal (Re.split Re.newlines2 text) [] [] Hnz)
      as [r Hr].
    rewrite Hr. simpl. eexists. split; [reflexivity|].
    apply flat_map_Exists with (P := fun p => has_ink p = true); [apply safety_ink|].
    apply push_if_ink. eapply pack_paragraphs_ink; [exact Hm|exact Hr|].
    right. apply split_ink; [apply blank_newlines2 | assumption].
Qed.

(** * The segmenter: the claims *)

Lemma chunk_short_path (text : jsstring) (maxLen : Z) :
  text = [] \/ (len text <= maxLen)%Z ->
  chunkForTelegram text maxLen = Normal [text].
Proof.
  intros H. unfold chunkForTelegram.
  replace (negb (truthy text) || fits text maxLen) with true; [reflexivity|].
  symmetry. apply orb_true_iff. destruct H as [->|H]; [left; reflexivity|].
  right. apply fits_len. assumption.
Qed.

(** On the splitting path the safety pass bounds every chunk by the hard
    cap, whatever [maxLen] is. *)
Lemma chunk_split_path_capped (text : jsstring) (maxLen : Z) (parts : list jsstring) :
  text <> [] -> (maxLen < len text)%Z ->
  chunkForTelegram text maxLen = Normal parts ->
  Forall (fun p => (len p <= MAX_TELEGRAM)%Z) parts.
Proof.
  intros Ht Hlen. unfold chunkForTelegram.
  replace (negb (truthy text) || fits text maxLen) with false.
  - destruct (pack_paragraphs maxLen _ _ _) as [r|e]; simpl; [|discriminate].
    intros H. inversion H.
    apply flat_map_Forall with (P := fun _ => True).
    + intros a _. apply safety_capped.
    + apply Forall_forall. trivial.
  - symmetry. apply orb_false_iff. split.
    + apply negb_false_iff. apply truthy_nonempty. assumption.
    + apply not_true_is_false. rewrite fits_len. lia.
Qed.

(** C1 (fails on the code).  A text of 5000 code units passed with
    [maxLen = 5000] leaves through the first line of [chunkForTelegram]
    and is returned whole: the single chunk is longer than [MAX_TELEGRAM],
    the final safety pass never having seen it. *)
Theorem chunk_first_line_skips_safety_pass :
  chunkForTelegram (a_x 5000) 5000 = Normal [a_x 5000]
  /\ (MAX_TELEGRAM < len (a_x 5000))%Z.
Proof. split; vm_compute; reflexivity. Qed.

(** C7.  A text that is empty, or no longer than [maxLen], comes back as
    the one-element sequence holding it unchanged (the empty string for
    the empty text). *)
Theorem chunk_fitting_text_single (text : jsstring) (maxLen : Z) :
  text = [] \/ (len text <= maxLen)%Z ->
  chunkForTelegram text maxLen = Normal [text].
Proof. apply chunk_short_path. Qed.

Lemma chunk_fitting_text_single_witness :
  chunkForTelegram (str "hello") 10 = Normal [str "hello"].
Proof.
  apply (@chunk_fitting_text_single (str "hello") 10).
  right. vm_compute. discriminate.
Defined.

(** C4 (as stated it fails): three newlines with [maxLen = 2] split into
    two empty paragraphs, the buffer stays empty, nothing is pushed, and
    the result is the empty sequence. *)
Lemma chunk_blank_text_empty_sequence :
  chunkForTelegram (nl ++ nl ++ nl) 2 = Normal []
  /\ ~ (exists c cs, chunkForTelegram (nl ++ nl ++ nl) 2 = Normal (c :: cs)).
Proof.
  split; [reflexivity|]. intros (c & cs & H). vm_compute in H. discriminate.
Qed.

(** C4, amended.  The result has at least one element when the text is
    empty or fits [maxLen], and also when [maxLen >= 1] and the text has a
    code unit that is not white space. *)
Theorem chunk_sequence_nonempty (text : jsstring) (maxLen : Z) :
  (text = [] \/ (len text <= maxLen)%Z)
  \/ ((1 <= maxLen)%Z /\ has_ink text = true) ->
  exists c cs, chunkForTelegram text maxLen = Normal (c :: cs).
Proof.
  intros [H|[Hm Hink]].
  - rewrite (chunk_short_path H). eauto.
  - destruct (chunk_keeps_ink text Hm Hink) as (parts & Hp & Hex).
    rewrite Hp. destruct parts as [|c cs]; [inversion Hex|eauto].
Qed.

Lemma chunk_sequence_nonempty_witness :
  exists c cs,
    chunkForTelegram (str "Hello world. This is it! ok") 8 = Normal (c :: cs).
Proof.
  apply (@chunk_sequence_nonempty (str "Hello world. This is it! ok") 8).
  right. split; [lia | vm_compute; reflexivity].
Defined.

(** C10.  For a non-empty text longer than [maxLen], with [maxLen >= 1],
    the call completes and every chunk it returns is a non-empty string. *)
Theorem chunk_elements_nonempty (text : jsstring) (maxLen : Z) :
  text <> [] -> (maxLen < len text)%Z -> (1 <= maxLen)%Z ->
  exists parts,
    chunkForTelegram text maxLen = Normal parts
    /\ Forall (fun p => p <> []) parts.
Proof.
  intros Ht Hlen Hm. unfold chunkForTelegram.
  replace (negb (truthy text) || fits text maxLen) with false.
  - assert (Hnz : maxLen <> 0%Z) by lia.
    destruct (pack_paragraphs_normal (Re.split Re.newlines2 text) [] [] Hnz)
      as [r Hr].
    rewrite Hr. simpl. eexists. split; [reflexivity|].
    apply flat_map_Forall with (P := fun p => p <> []); [apply safety_nonempty|].
    apply push_if_nonempty.
    eapply pack_paragraphs_nonempty; [|exact Hr]. constructor.
  - symmetry. apply orb_false_iff. split.
    + apply negb_false_iff. apply truthy_nonempty. assumption.
    + apply not_true_is_false. rewrite fits_len. lia.
Qed.

Lemma chunk_elements_nonempty_witness :
  exists parts,
    chunkForTelegram (str "para1" ++ nl ++ nl ++ str "para2") 10 = Normal parts
    /\ Forall (fun p => p <> []) parts.
Proof.
  apply (@chunk_elements_nonempty (str "para1" ++ nl ++ nl ++ str "para2") 10).
  - discriminate.
  - vm_compute. reflexivity.
  - lia.
Defined.

(** * The escaper: completion *)

Arguments link_at : simpl never.
Arguments heading_at : simpl never.

Section EscaperCompletes.

Variable URL : jsstring -> completion jsstring.

Lemma normalizeAndValidateUrl_normal (url : jsstring) :
  exists r, normalizeAndValidateUrl URL url = Normal r.
Proof.
  unfold normalizeAndValidateUrl.
  destruct (URL (Subst.trim url)) as [u|e]; simpl; [eauto|].
  destruct (domain_like (Subst.trim url)); [|eauto].
  destruct (URL _) as [u2|e2]; simpl; eauto.
Qed.

Lemma link_cb_normal (ph : placeholders) (m : jsstring * jsstring) :
  exists r, link_cb URL ph m = Normal r.
Proof.
  destruct m as [label url]. unfold link_cb.
  destruct (normalizeAndValidateUrl_normal url) as [r ->]. simpl.
  destruct r as [[|c u]|]; eauto.
Qed.

Lemma replace_links_normal (s : jsstring) :
  forall prev skip ph,
    exists r, SubstC.replace_at link_at (link_cb URL) prev s skip ph = Normal r.
Proof.
  induction s as [|c s IH]; intros prev skip ph; simpl; [eauto|].
  destruct skip as [|k]; [|apply IH].
  destruct (link_at prev (c :: s)) as [[a [|k]]|].
  - destruct (IH (Some c) 0 ph) as [o Ho]. rewrite Ho. simpl. eauto.
  - destruct (link_cb_normal ph a) as [r Hr]. rewrite Hr. simpl.
    destruct (IH (Some c) k (snd r)) as [o Ho]. rewrite Ho. simpl. eauto.
  - destruct (IH (Some c) 0 ph) as [o Ho]. rewrite Ho. simpl. eauto.
Qed.



End EscaperCompletes.




(** * The escaper: concrete cases *)

Section BareStars.

Variable destination : jsstring -> Prop.

Lemma not_reserved_neq (c r : char16) :
  is_reserved c = false -> In r reserved -> N.eqb c r = false.
Proof.
  unfold is_reserved, mem. intros H Hr.
  destruct (N.eqb c r) eqn:E; [|reflexivity].
  rewrite <- H. symmetry. apply existsb_exists. exists r. split; assumption.
Qed.

Lemma bare_stars_plain (c : char16) (s : jsstring) :
  is_reserved c = false -> bare_stars (c :: s) = bare_stars s.
Proof.
  intros H.
  assert (E1 : N.eqb c (ch "\") = false)
    by (apply not_reserved_neq; [assumption | simpl; tauto]).
  assert (E2 : N.eqb c (ch "*") = false)
    by (apply not_reserved_neq; [assumption | simpl; tauto]).
  simpl in *. rewrite E1, E2. reflexivity.
Qed.

Lemma not_in_app {A} (x : A) (a b : list A) :
  ~ In x (a ++ b) -> ~ In x a /\ ~ In x b.
Proof. intros H. split; intros Hin; apply H; apply in_or_app; tauto. Qed.

Lemma bare_stars_app (s : jsstring) :
  well_escaped destination s -> ~ In (ch "[") s ->
  forall t, bare_stars (s ++ t) = bare_stars s + bare_stars t.
Proof.
  induction 1 as [|c s Hc Hs IH|c s Hc Hs IH|d body s Hd Hb IHb Hs IHs
                  |label url s Hl IHl Hu Hs IHs]; intros Hno t.
  - reflexivity.
  - rewrite <- app_comm_cons, !bare_stars_plain by assumption.
    apply IH. intros Hin. apply Hno. right. assumption.
  - simpl. apply IH. intros Hin. apply Hno. right. right. assumption.
  - apply not_in_app in Hno. destruct Hno as [_ Hno].
    apply not_in_app in Hno. destruct Hno as [Hnb Hno].
    apply not_in_app in Hno. destruct Hno as [_ Hns].
    simpl in Hd. destruct Hd as [<-|[<-|[<-|[]]]]; simpl;
      rewrite <- !app_assoc, IHb, (IHb Hnb (_ :: _)) by assumption; simpl;
      rewrite ?IHs by assumption; lia.
  - exfalso. apply Hno. left. reflexivity.
Qed.

(** Without links, the asterisks of a well escaped text pair up. *)
Lemma bare_stars_even (s : jsstring) :
  well_escaped destination s -> ~ In (ch "[") s ->
  Nat.even (bare_stars s) = true.
Proof.
  induction 1 as [|c s Hc Hs IH|c s Hc Hs IH|d body s Hd Hb IHb Hs IHs
                  |label url s Hl IHl Hu Hs IHs]; intros Hno.
  - reflexivity.
  - rewrite bare_stars_plain by assumption.
    apply IH. intros Hin. apply Hno. right. assumption.
  - simpl. apply IH. intros Hin. apply Hno. right. right. assumption.
  - apply not_in_app in Hno. destruct Hno as [_ Hno].
    apply not_in_app in Hno. destruct Hno as [Hnb Hno].
    apply not_in_app in Hno. destruct Hno as [_ Hns].
    specialize (IHb Hnb). specialize (IHs Hns).
    simpl in Hd. destruct Hd as [<-|[<-|[<-|[]]]]; simpl;
      rewrite (bare_stars_app Hb Hnb); simpl; try assumption.
    + rewrite Nat.add_succ_r. simpl. rewrite Nat.even_add, IHb, IHs. reflexivity.
    + rewrite Nat.even_add, IHb, IHs. reflexivity.
    + rewrite Nat.even_add, IHb, IHs. reflexivity.
  - exfalso. apply Hno. left. reflexivity.
Qed.

End BareStars.

(** C8 (as stated it fails).  In ['**bold** and _ital_ and # Heading'] the
    [#] is not at the start of a line, so the heading pattern does not
    match it: the output has no bold span around [Heading]. *)
Lemma sample_heading_not_converted :
  exists out,
    processMarkdownV2Safe URL_fragment
      (str "**bold** and _ital_ and # Heading") = Normal out
    /\ includes (str "*Heading*") out = false.
Proof. eexists. split; [vm_compute; reflexivity | vm_compute; reflexivity]. Qed.

(** C8, amended.  [processMarkdownV2Safe('**bold** and _ital_ and # Heading')]
    is [*bold* and _ital_ and \# Heading]: the bold and italic spans are
    kept with single delimiters, and the [#], which is in the middle of
    the line, is escaped like any other reserved character.  A heading at
    the start of a line does become a bold span. *)
Theorem sample_output (URL : jsstring -> completion jsstring) :
  processMarkdownV2Safe URL (str "**bold** and _ital_ and # Heading")
  = Normal (str "*bold* and _ital_ and \# Heading")
  /\ processMarkdownV2Safe URL (str "# Heading") = Normal (str "*Heading*").
Proof. split; vm_compute; reflexivity. Qed.

(** C9.  The escaper is not idempotent: [a.b] becomes [a\.b], and
    escaping that again gives [a\\\.b], in which the backslash and the dot
    of the first pass are both escaped once more. *)
Theorem escaper_not_idempotent (URL : jsstring -> completion jsstring) :
  exists y x x2,
    is_reserved (ch ".") = true /\ In (ch ".") y
    /\ processMarkdownV2Safe URL y = Normal x
    /\ processMarkdownV2Safe URL x = Normal x2
    /\ x2 <> x
    /\ x = str "a\.b" /\ x2 = str "a\\\.b".
Proof.
  exists (str "a.b"), (str "a\.b"), (str "a\\\.b").
  repeat split; try (vm_compute; reflexivity).
  - simpl. tauto.
  - discriminate.
Qed.

(** C2 (fails on the code).  Restoration calls [text.replace(token, md)]
    with the stored span as the replacement string, in which [$'] stands
    for the text after the match.  For [*a$'* _b$'_ c] it copies the tail
    of the working text into the bold span, and then the closing asterisk
    into the italic span: the output has three asterisks that are not
    escaped, so one of them delimits nothing and the output is not well
    escaped, whatever the link destinations are allowed to hold.  The text
    has no link, so this holds for every URL constructor. *)
Theorem dollar_pattern_breaks_escaping (URL : jsstring -> completion jsstring) :
  exists out,
    processMarkdownV2Safe URL (str "*a$'* _b$'_ c") = Normal out
    /\ out = str "*a _b c* " ++ token (ch "I") 0 ++ str " c_ c* "
             ++ token (ch "I") 0 ++ str " c"
    /\ bare_stars out = 3
    /\ ~ well_escaped (fun _ => True) out.
Proof.
  eexists. split; [vm_compute; reflexivity|].
  split; [vm_compute; reflexivity|].
  split; [vm_compute; reflexivity|].
  intros H. apply bare_stars_even in H.
  - vm_compute in H. discriminate.
  - vm_compute. intuition discriminate.
Qed.

(** C5 (as stated it fails).  A text can carry a placeholder itself: for
    [⟬B0⟭ *x*] the working text holds the token twice, at 0 (from the
    input) and at 5 (inserted by the bold extraction), and restoration puts
    the span at the first. *)
Lemma literal_token_is_restored :
  let input := token (ch "B") 0 ++ str " *x*" in
  exists w,
    working_text URL_fragment input = Normal w
    /\ bolds (snd w) = [str "*x*"]
    /\ occurrences (token (ch "B") 0) (fst w) = [0; 5]
    /\ processMarkdownV2Safe URL_fragment input
       = Normal (str "*x* " ++ token (ch "B") 0).
Proof. eexists. repeat split; vm_compute; reflexivity. Qed.

(** Spans are extracted stage by stage, with no support for nesting.  A
    link inside a bold span: its url parses, but the bold extraction takes
    the link's placeholder into the span and the link is never restored.
    And when the url does not parse, a label with a reserved character is
    escaped twice. *)
Lemma nested_link_is_lost :
  normalizeAndValidateUrl URL_fragment (str "https://x.y/")
  = Normal (Some (str "https://x.y/"))
  /\ (exists out,
        processMarkdownV2Safe URL_fragment (str "*[a](https://x.y/)*") = Normal out
        /\ out = str "*" ++ token (ch "L") 0 ++ str "*"
        /\ includes (str "[a](https://x.y/)") out = false)
  /\ normalizeAndValidateUrl URL_fragment (str "not a url") = Normal None
  /\ (exists out,
        processMarkdownV2Safe URL_fragment (str "[a.b](not a url)") = Normal out
        /\ out = str "a\\\.b"
        /\ includes (escapeMarkdownV2 (str "a.b")) out = false).
Proof.
  split; [vm_compute; reflexivity|]. split.
  - eexists. repeat split; vm_compute; reflexivity.
  - split; [vm_compute; reflexivity|].
    eexists. repeat split; vm_compute; reflexivity.
Qed.

(** * The escaper: how the stages act on quiet text *)

Section QuietStages.

Lemma escapeMarkdownV2_flat (s : jsstring) :
  escapeMarkdownV2 s = flat_map escape_unit s.
Proof. destruct s; reflexivity. Qed.

Lemma escapeMarkdownV2_app (a b : jsstring) :
  escapeMarkdownV2 (a ++ b) = escapeMarkdownV2 a ++ escapeMarkdownV2 b.
Proof. rewrite !escapeMarkdownV2_flat. apply flat_map_app. Qed.

Lemma escapeMarkdownV2_plain (s : jsstring) :
  Forall (fun c => is_reserved c = false) s -> escapeMarkdownV2 s = s.
Proof.
  rewrite escapeMarkdownV2_flat.
  induction 1 as [|c s Hc Hs IH]; simpl; [reflexivity|].
  rewrite IH. unfold escape_unit. rewrite Hc. reflexivity.
Qed.

Lemma starts_with_head (h c : char16) (d s : jsstring) :
  c <> h -> Re.starts_with (h :: d) (c :: s) = false.
Proof.
  intros Hc. simpl. destruct (N.eqb_spec h c); [congruence|reflexivity].
Qed.

Lemma starts_with_app (p s : jsstring) : Re.starts_with p (p ++ s) = true.
Proof.
  induction p as [|a p IH]; simpl; [reflexivity|].
  rewrite N.eqb_refl, IH. reflexivity.
Qed.

Lemma skipn_app_exact {A} (a b : list A) : skipn (List.length a) (a ++ b) = b.
Proof. induction a; simpl; [reflexivity|assumption]. Qed.

Lemma firstn_app_exact {A} (a b : list A) : firstn (List.length a) (a ++ b) = a.
Proof. induction a; simpl; [reflexivity|f_equal; assumption]. Qed.

Lemma run_stop (p : char16 -> bool) (a : jsstring) (c : char16) (b : jsstring) :
  Forall (fun x => p x = true) a -> p c = false ->
  Re.run p (a ++ c :: b) = List.length a.
Proof.
  intros Ha Hc. induction Ha as [|x a Hx Ha IH]; simpl.
  - rewrite Hc. reflexivity.
  - rewrite Hx, IH. reflexivity.
Qed.

(** A text without the first code unit of the delimiter has no span. *)
Lemma delim_go_quiet {St : Type} (h : char16) (d : jsstring) (min : nat)
    (cb : St -> jsstring -> jsstring * St) (s : jsstring) (st : St) :
  ~ In h s -> Subst.delim_go (h :: d) min cb s None 0 st = (s, st).
Proof.
  induction s as [|c s IH]; intros Hno; [reflexivity|].
  cbn [Subst.delim_go]. rewrite starts_with_head.
  - rewrite IH; [reflexivity|]. intros Hin. apply Hno. right. assumption.
  - intros ->. apply Hno. left. reflexivity.
Qed.

Lemma heading_at_quiet (prev : option char16) (c : char16) (s : jsstring) :
  c <> ch "#" -> heading_at prev (c :: s) = None.
Proof.
  intros Hc.
  assert (R : Re.run (N.eqb (ch "#")) (c :: s) = 0).
  { cbn [Re.run]. destruct (N.eqb_spec (ch "#") c) as [E|_]; [congruence|reflexivity]. }
  unfold heading_at. rewrite R.
  destruct prev as [p|]; [destruct (is_line_terminator p)|]; reflexivity.
Qed.

Lemma normalizeHeadings_go_quiet {St : Type}
    (cb : St -> jsstring -> jsstring * St) (s : jsstring) :
  forall prev st,
    ~ In (ch "#") s -> Subst.replace_at heading_at cb prev s 0 st = (s, st).
Proof.
  induction s as [|c s IH]; intros prev st Hno; [reflexivity|].
  cbn [Subst.replace_at]. rewrite heading_at_quiet.
  - rewrite IH; [reflexivity|]. intros Hin. apply Hno. right. assumption.
  - intros ->. apply Hno. left. reflexivity.
Qed.

Lemma normalizeHeadings_quiet (s : jsstring) :
  ~ In (ch "#") s -> normalizeHeadings s = s.
Proof.
  intros H. unfold normalizeHeadings.
  rewrite normalizeHeadings_go_quiet by assumption. reflexivity.
Qed.

Lemma normalizeCommonMd_quiet (s : jsstring) :
  ~ In (ch "*") s -> ~ In (ch "_") s -> normalizeCommonMd s = s.
Proof.
  intros H1 H2. unfold normalizeCommonMd, Subst.replace_delim.
  change (str "**") with (ch "*" :: [ch "*"]).
  change (str "__") with (ch "_" :: [ch "_"]).
  rewrite (@delim_go_quiet unit (ch "*") [ch "*"] 0 _ s tt H1). simpl fst.
  rewrite (@delim_go_quiet unit (ch "_") [ch "_"] 0 _ s tt H2). reflexivity.
Qed.

Lemma extract_spans_quiet (ph : placeholders) (s : jsstring) :
  ~ In (ch "*") s -> ~ In (ch "_") s -> ~ In (ch "|") s ->
  extract_spans s ph = (s, ph).
Proof.
  intros H1 H2 H3. unfold extract_spans, Subst.replace_delim.
  change (str "*") with (ch "*" :: []).
  change (str "_") with (ch "_" :: []).
  change (str "||") with (ch "|" :: [ch "|"]).
  rewrite (@delim_go_quiet _ (ch "*") [] 1 _ s ph H1).
  rewrite (@delim_go_quiet _ (ch "_") [] 1 _ s ph H2).
  rewrite (@delim_go_quiet _ (ch "|") [ch "|"] 1 _ s ph H3). reflexivity.
Qed.

End QuietStages.

Section LinkStage.

Context {St : Type}.
Variable cb : St -> jsstring * jsstring -> completion (jsstring * St).

Lemma replace_links_prev (s : jsstring) :
  forall prev prev' skip st,
    SubstC.replace_at link_at cb prev s skip st
    = SubstC.replace_at link_at cb prev' s skip st.
Proof.
  induction s as [|c s IH]; intros prev prev' skip st; reflexivity.
Qed.

Lemma bind_eta {A B} (m : completion (A * B)) :
  (o <- m ;; Normal (fst o, snd o)) = m.
Proof. destruct m as [[a b]|e]; reflexivity. Qed.

Lemma link_at_quiet (prev : option char16) (c : char16) (s : jsstring) :
  c <> ch "[" -> link_at prev (c :: s) = None.
Proof.
  intros Hc. unfold link_at.
  destruct (N.eqb_spec c (ch "[")); [congruence|reflexivity].
Qed.

(** Text without an opening bracket is copied by the link extraction. *)
Lemma replace_links_copy (pre rest : jsstring) :
  forall prev st,
    ~ In (ch "[") pre ->
    SubstC.replace_at link_at cb prev (pre ++ rest) 0 st
    = (o <- SubstC.replace_at link_at cb None rest 0 st ;;
       Normal (pre ++ fst o, snd o)).
Proof.
  induction pre as [|c pre IH]; intros prev st Hno.
  - simpl app. rewrite bind_eta. apply replace_links_prev.
  - rewrite <- app_comm_cons. cbn [SubstC.replace_at].
    rewrite link_at_quiet by (intros ->; apply Hno; left; reflexivity).
    rewrite IH by (intros Hin; apply Hno; right; assumption).
    destruct (SubstC.replace_at link_at cb None rest 0 st) as [o|e]; reflexivity.
Qed.

Lemma replace_links_skip (a b : jsstring) :
  forall prev st,
    SubstC.replace_at link_at cb prev (a ++ b) (List.length a) st
    = SubstC.replace_at link_at cb None b 0 st.
Proof.
  induction a as [|c a IH]; intros prev st.
  - apply replace_links_prev.
  - simpl. apply IH.
Qed.

Lemma link_at_match (prev : option char16) (label url post : jsstring) :
  label <> [] -> url <> [] ->
  Forall (fun c => c <> ch "]" /\ c <> c_nl) label ->
  Forall (fun c => c <> ch ")") url ->
  link_at prev (ch "[" :: label ++ ch "]" :: ch "(" :: url ++ ch ")" :: post)
  = Some ((label, url), List.length label + List.length url + 4).
Proof.
  intros Hl Hu Fl Fu. unfold link_at. rewrite N.eqb_refl.
  rewrite run_stop.
  - destruct (List.length label) as [|n0] eqn:En.
    { destruct label; [congruence|discriminate]. }
    rewrite <- En, skipn_app_exact, firstn_app_exact.
    rewrite !N.eqb_refl. cbn [andb].
    rewrite run_stop.
    + destruct (List.length url) as [|m0] eqn:Em.
      { destruct url; [congruence|discriminate]. }
      rewrite <- Em, skipn_app_exact, firstn_app_exact. reflexivity.
    + eapply Forall_impl; [|exact Fu]. intros c Hc. cbn beta.
      destruct (N.eqb_spec c (ch ")")); [congruence|reflexivity].
    + reflexivity.
  - eapply Forall_impl; [|exact Fl]. intros c [H1 H2]. cbn beta.
    destruct (N.eqb_spec c (ch "]")); [congruence|].
    destruct (N.eqb_spec c c_nl); [congruence|reflexivity].
  - reflexivity.
Qed.

(** The link extraction on a text whose only opening bracket starts a
    well-formed span. *)
Lemma replace_links_single (pre label url post : jsstring) (st : St) :
  ~ In (ch "[") pre -> ~ In (ch "[") post ->
  label <> [] -> url <> [] ->
  Forall (fun c => c <> ch "]" /\ c <> c_nl) label ->
  Forall (fun c => c <> ch ")") url ->
  SubstC.replace_at link_at cb None
    (pre ++ ch "[" :: label ++ ch "]" :: ch "(" :: url ++ ch ")" :: post) 0 st
  = (r <- cb st (label, url) ;; Normal (pre ++ fst r ++ post, snd r)).
Proof.
  intros Hpre Hpost Hl Hu Fl Fu.
  rewrite replace_links_copy by assumption.
  cbn [SubstC.replace_at]. rewrite link_at_match by assumption.
  replace (List.length label + List.length url + 4)
    with (S (List.length (label ++ ch "]" :: ch "(" :: url ++ [ch ")"]))).
  2:{ rewrite length_app. cbn [List.length]. rewrite length_app. simpl. lia. }
  destruct (cb st (label, url)) as [r|e]; [|reflexivity]. cbn [bind].
  replace (label ++ ch "]" :: ch "(" :: url ++ ch ")" :: post)
    with ((label ++ ch "]" :: ch "(" :: url ++ [ch ")"]) ++ post).
  2:{ rewrite <- !app_assoc. simpl. rewrite <- !app_assoc. reflexivity. }
  rewrite replace_links_skip.
  pose proof (replace_links_copy post [] None (snd r) Hpost) as Hc.
  rewrite app_nil_r in Hc. rewrite Hc. simpl. rewrite app_nil_r. reflexivity.
Qed.

End LinkStage.

Section Avoiding.

Lemma avoids_not_in (l : list char16) (s : jsstring) (c : char16) :
  avoids l s = true -> In c l -> ~ In c s.
Proof.
  unfold avoids. intros H Hl Hs.
  rewrite forallb_forall in H. specialize (H c Hs).
  apply negb_true_iff in H. unfold mem in H.
  assert (E : existsb (N.eqb c) l = true).
  { apply existsb_exists. exists c. split; [assumption|apply N.eqb_refl]. }
  congruence.
Qed.

Lemma avoids_app (l : list char16) (a b : jsstring) :
  avoids l (a ++ b) = avoids l a && avoids l b.
Proof. apply forallb_app. Qed.

Lemma avoids_Forall (l : list char16) (s : jsstring) :
  avoids l s = true -> Forall (fun c => forall x, In x l -> c <> x) s.
Proof.
  intros H. apply Forall_forall. intros c Hc x Hx ->.
  exact (@avoids_not_in l s x H Hx Hc).
Qed.

Lemma not_in_app_intro {A} (x : A) (a b : list A) :
  ~ In x a -> ~ In x b -> ~ In x (a ++ b).
Proof. intros Ha Hb H. apply in_app_or in H. tauto. Qed.

Lemma not_in_cons_intro {A} (x c : A) (s : list A) :
  x <> c -> ~ In x s -> ~ In x (c :: s).
Proof. intros Hc Hs [H|H]; [congruence|tauto]. Qed.

Lemma escape_keeps_out (c : char16) (s : jsstring) :
  c <> ch "\" -> ~ In c s -> ~ In c (escapeMarkdownV2 s).
Proof.
  intros Hc. rewrite escapeMarkdownV2_flat.
  induction s as [|x s IH]; intros Hs; simpl; [tauto|].
  apply not_in_app_intro.
  - unfold escape_unit. destruct (is_reserved x); simpl; intros H.
    + destruct H as [H|[H|[]]]; [apply Hc; symmetry; exact H|].
      apply Hs. left. assumption.
    + destruct H as [H|[]]. apply Hs. left. assumption.
  - apply IH. intros H. apply Hs. right. assumption.
Qed.

Lemma escapeForUrl_keeps_out (c : char16) (s : jsstring) :
  c <> ch "\" -> ~ In c s -> ~ In c (escapeForUrl s).
Proof.
  intros Hc. unfold escapeForUrl.
  induction s as [|x s IH]; intros Hs; simpl; [tauto|].
  apply not_in_app_intro.
  - unfold escape_url_unit. destruct (mem x _); simpl; intros H.
    + destruct H as [H|[H|[]]]; [apply Hc; symmetry; exact H|].
      apply Hs. left. assumption.
    + destruct H as [H|[]]. apply Hs. left. assumption.
  - apply IH. intros H. apply Hs. right. assumption.
Qed.

Lemma get_substitution_plain (matched before after repl : jsstring) :
  ~ In (ch "$") repl ->
  Subst.get_substitution matched before after repl = repl.
Proof.
  induction repl as [|c r IH]; intros Hno; [reflexivity|].
  cbn [Subst.get_substitution].
  destruct (N.eqb_spec c (ch "$")) as [E|_].
  - exfalso. apply Hno. left. assumption.
  - f_equal. apply IH. intros H. apply Hno. right. assumption.
Qed.

(** [replace] finds the pattern where it first can start. *)
Lemma replace_first_go_here (h : char16) (p repl a b : jsstring) :
  forall before,
    ~ In h a ->
    Subst.replace_first_go (h :: p) repl (a ++ (h :: p) ++ b) before
    = rev before ++ a
      ++ Subst.get_substitution (h :: p) (rev before ++ a) b repl ++ b.
Proof.
  induction a as [|c a IH]; intros before Hno.
  - rewrite app_nil_l, app_nil_r. rewrite <- app_comm_cons.
    cbn [Subst.replace_first_go]. rewrite app_comm_cons, starts_with_app.
    rewrite skipn_app_exact. reflexivity.
  - rewrite <- app_comm_cons. cbn [Subst.replace_first_go].
    rewrite starts_with_head by (intros ->; apply Hno; left; reflexivity).
    rewrite IH by (intros H; apply Hno; right; assumption).
    cbn [rev]. rewrite <- !app_assoc. reflexivity.
Qed.

Lemma replace_first_here (h : char16) (p repl a b : jsstring) :
  ~ In h a -> ~ In (ch "$") repl ->
  Subst.replace_first (h :: p) repl (a ++ (h :: p) ++ b) = a ++ repl ++ b.
Proof.
  intros Ha Hr. unfold Subst.replace_first.
  rewrite replace_first_go_here by assumption.
  rewrite get_substitution_plain by assumption. reflexivity.
Qed.

End Avoiding.

(** * The escaper: one link in quiet text *)

Section SingleLink.

Variable URL : jsstring -> completion jsstring.
Variables pre label url post : jsstring.

Hypothesis pre_quiet : avoids markup_units pre = true.
Hypothesis post_quiet : avoids markup_units post = true.
Hypothesis label_nonempty : label <> [].
Hypothesis label_quiet :
  avoids [ch "]"; c_nl; ch "*"; ch "_"; ch "#"; ch "$"] label = true.
Hypothesis url_nonempty : url <> [].
Hypothesis url_quiet : avoids [ch ")"; ch "*"; ch "_"; ch "#"] url = true.

Let input : jsstring :=
  pre ++ ch "[" :: label ++ ch "]" :: ch "(" :: url ++ ch ")" :: post.

Ltac not_in_parts :=
  repeat first
    [ apply not_in_app_intro
    | apply not_in_cons_intro; [discriminate|]
    | apply in_nil
    | eapply avoids_not_in; [eassumption | simpl; tauto] ].

Lemma input_no_star : ~ In (ch "*") input.
Proof. unfold input. not_in_parts. Qed.

Lemma input_no_underscore : ~ In (ch "_") input.
Proof. unfold input. not_in_parts. Qed.

Lemma input_no_hash : ~ In (ch "#") input.
Proof. unfold input. not_in_parts. Qed.

Lemma input_truthy : truthy input = true.
Proof. unfold input. destruct pre; reflexivity. Qed.

Lemma link_stage (ph : placeholders) :
  SubstC.replace_at link_at (link_cb URL) None input 0 ph
  = (r <- link_cb URL ph (label, url) ;; Normal (pre ++ fst r ++ post, snd r)).
Proof.
  unfold input. apply replace_links_single; try assumption.
  - not_in_parts.
  - not_in_parts.
  - eapply Forall_impl; [|apply (avoids_Forall _ _ label_quiet)].
    intros c Hc. split; apply Hc; simpl; tauto.
  - eapply Forall_impl; [|apply (avoids_Forall _ _ url_quiet)].
    intros c Hc. apply Hc; simpl; tauto.
Qed.

Lemma token_L0 : token (ch "L") 0 = c_lbr :: [ch "L"; ch "0"; c_rbr].
Proof. reflexivity. Qed.

Lemma rendering_valid (href : jsstring) :
  normalizeAndValidateUrl URL url = Normal (Some href) ->
  href <> [] -> avoids [ch "$"] href = true ->
  processMarkdownV2Safe URL input
  = Normal (escapeMarkdownV2 pre
            ++ str "[" ++ escapeMarkdownV2 label ++ str "](" ++ escapeForUrl href
            ++ str ")" ++ escapeMarkdownV2 post).
Proof.
  intros Hn Hne Hd.
  unfold processMarkdownV2Safe. rewrite input_truthy. cbn [negb].
  unfold working_text.
  rewrite normalizeCommonMd_quiet by (apply input_no_star || apply input_no_underscore).
  rewrite normalizeHeadings_quiet by apply input_no_hash.
  rewrite link_stage. unfold link_cb. rewrite Hn. cbn [bind].
  destruct href as [|h0 href']; [congruence|]. cbn [bind fst snd].
  set (href := h0 :: href') in *. clearbody href.
  change (List.length (links no_placeholders)) with 0. rewrite token_L0.
  rewrite extract_spans_quiet by not_in_parts.
  cbn [bind fst snd]. f_equal.
  unfold restore_all, no_placeholders.
  cbn [links bolds italics spoilers app restore].
  rewrite token_L0.
  change (pre ++ c_lbr :: ch "L" :: ch "0" :: c_rbr :: post)
    with (pre ++ (c_lbr :: [ch "L"; ch "0"; c_rbr]) ++ post).
  rewrite !escapeMarkdownV2_app.
  change (escapeMarkdownV2 (c_lbr :: [ch "L"; ch "0"; c_rbr]))
    with (c_lbr :: [ch "L"; ch "0"; c_rbr]).
  rewrite replace_first_here.
  - rewrite <- !app_assoc. reflexivity.
  - apply escape_keeps_out; [discriminate|]. not_in_parts.
  - not_in_parts; try (apply escape_keeps_out; [discriminate|]; not_in_parts).
    apply escapeForUrl_keeps_out; [discriminate|]. not_in_parts.
Qed.

End SingleLink.

(** * Placeholders *)

Section TokenFacts.

Lemma str_digits (d : Decimal.uint) :
  Forall (fun c => is_digit c = true)
         (str (DecimalString.NilEmpty.string_of_uint d)).
Proof.
  induction d; simpl; constructor; try reflexivity; assumption.
Qed.

Lemma decimal_digits (n : nat) : Forall (fun c => is_digit c = true) (decimal n).
Proof. apply str_digits. Qed.

Lemma N_of_ascii_inj (a b : ascii) : N_of_ascii a = N_of_ascii b -> a = b.
Proof.
  intros H. rewrite <- (ascii_N_embedding a), <- (ascii_N_embedding b), H.
  reflexivity.
Qed.

Lemma str_inj (s t : string) : str s = str t -> s = t.
Proof.
  unfold str. intros H.
  rewrite <- (string_of_list_ascii_of_string s),
          <- (string_of_list_ascii_of_string t).
  f_equal. revert H.
  generalize (list_ascii_of_string s) (list_ascii_of_string t).
  induction l as [|a l IH]; intros [|b l'] H; simpl in H; try discriminate.
  - reflexivity.
  - injection H as Hab Hl. f_equal; [apply N_of_ascii_inj; assumption|].
    apply IH. assumption.
Qed.

Lemma decimal_inj (i j : nat) : decimal i = decimal j -> i = j.
Proof.
  unfold decimal. intros H. apply str_inj in H.
  apply DecimalNat.Unsigned.to_uint_inj.
  assert (E : Some (Nat.to_uint i) = Some (Nat.to_uint j)).
  { rewrite <- !DecimalString.NilEmpty.usu, H. reflexivity. }
  injection E. trivial.
Qed.

(** The code units of a placeholder. *)
Lemma token_units (k : char16) (i : nat) (c : char16) :
  In c (token k i) ->
  c = c_lbr \/ c = k \/ is_digit c = true \/ c = c_rbr.
Proof.
  unfold token. intros [H|[H|H]]; [auto|auto|].
  apply in_app_or in H. destruct H as [H|[H|[]]]; [|auto].
  right. right. left.
  pose proof (decimal_digits i) as Hd. rewrite Forall_forall in Hd. auto.
Qed.

Lemma category_plain (k : char16) :
  In k categories -> is_reserved k = false /\ k <> ch "$" /\ k <> c_lbr.
Proof.
  intros [<-|[<-|[<-|[<-|[]]]]]; repeat split; discriminate.
Qed.

Lemma reserved_not_digit (c : char16) :
  is_reserved c = true -> is_digit c = false.
Proof.
  unfold is_reserved, mem. intros H. apply existsb_exists in H.
  destruct H as (r & Hr & E). apply N.eqb_eq in E. subst c.
  simpl in Hr.
  repeat (destruct Hr as [<-|Hr]; [reflexivity|]). destruct Hr.
Qed.

Lemma digit_plain (c : char16) :
  is_digit c = true -> is_reserved c = false /\ c <> ch "$" /\ c <> c_lbr.
Proof.
  intros H. repeat split.
  - destruct (is_reserved c) eqn:E; [|reflexivity].
    apply reserved_not_digit in E. congruence.
  - intros ->. discriminate.
  - intros ->. discriminate.
Qed.

Lemma token_plain (k : char16) (i : nat) :
  In k categories -> Forall (fun c => is_reserved c = false) (token k i).
Proof.
  intros Hk. apply Forall_forall. intros c Hc.
  destruct (@token_units k i c Hc) as [->|[->|[H| ->]]]; try reflexivity.
  - apply category_plain. assumption.
  - apply digit_plain. assumption.
Qed.


End TokenFacts.

(** * Restoring a placeholder keeps a text well escaped *)

Unset Implicit Arguments.

Section Occurrences.

Context {A : Type}.



End Occurrences.

Section WellEscaped.

Variable U : jsstring -> Prop.





Variable t : jsstring.
Hypothesis t_nonempty : t <> [].
Hypothesis t_plain : Forall (fun c => is_reserved c = false) t.
Hypothesis U_clear :
  forall url, U url -> forall c, hd_error t = Some c -> ~ In c url.




End WellEscaped.

(** * What the stages keep *)

Section StagesKeep.

Variable P : char16 -> Prop.

Lemma Forall_firstn_keep (n : nat) (s : jsstring) :
  Forall P s -> Forall P (firstn n s).
Proof.
  intros H. revert n. induction H as [|c s Hc Hs IH]; intros [|n]; simpl;
    constructor; auto.
Qed.

Lemma Forall_skipn_keep (n : nat) (s : jsstring) :
  Forall P s -> Forall P (skipn n s).
Proof.
  intros H. revert n. induction H as [|c s Hc Hs IH]; intros [|n]; simpl;
    auto.
Qed.

Lemma Forall_rev_keep (s : jsstring) : Forall P s -> Forall P (rev s).
Proof.
  intros H. apply Forall_forall. intros c Hc. apply in_rev in Hc.
  rewrite Forall_forall in H. auto.
Qed.

Lemma trim_start_keep (s : jsstring) : Forall P s -> Forall P (Subst.trim_start s).
Proof.
  induction 1 as [|c s Hc Hs IH]; simpl; [constructor|].
  destruct (is_space c); [assumption|constructor; assumption].
Qed.

Lemma trim_keep (s : jsstring) : Forall P s -> Forall P (Subst.trim s).
Proof.
  intros H. unfold Subst.trim.
  apply Forall_rev_keep, trim_start_keep, Forall_rev_keep, trim_start_keep.
  assumption.
Qed.

Lemma escape_keep (s : jsstring) :
  P (ch "\") -> Forall P s -> Forall P (escapeMarkdownV2 s).
Proof.
  intros Hb. rewrite escapeMarkdownV2_flat.
  induction 1 as [|c s Hc Hs IH]; simpl; [constructor|].
  apply Forall_app. split; [|assumption].
  unfold escape_unit. destruct (is_reserved c); repeat constructor; assumption.
Qed.

Section Primitives.

Context {A St : Type}.
Variable I : St -> Prop.

Lemma replace_at_keep
    (pat : option char16 -> jsstring -> option (A * nat))
    (cb : St -> A -> jsstring * St) :
  (forall prev s a n st,
      pat prev s = Some (a, n) -> Forall P s -> I st ->
      Forall P (fst (cb st a)) /\ I (snd (cb st a))) ->
  forall s prev skip st,
    Forall P s -> I st ->
    Forall P (fst (Subst.replace_at pat cb prev s skip st))
    /\ I (snd (Subst.replace_at pat cb prev s skip st)).
Proof.
  intros Hcb s. induction s as [|c s IH]; intros prev skip st Hs Hst.
  - simpl. split; [constructor|assumption].
  - cbn [Subst.replace_at]. inversion Hs as [|c0 s0 Hc Hs']. subst c0 s0.
    destruct skip as [|k]; [|apply IH; assumption].
    destruct (pat prev (c :: s)) as [[a [|k]]|] eqn:E.
    + destruct (IH (Some c) 0 st Hs' Hst) as [H1 H2].
      destruct (Subst.replace_at pat cb (Some c) s 0 st) as [out st1].
      simpl in *. split; [constructor|]; assumption.
    + destruct (Hcb _ _ _ _ st E Hs Hst) as [H1 H2].
      destruct (cb st a) as [r st1]. simpl in H1, H2.
      destruct (IH (Some c) k st1 Hs' H2) as [H3 H4].
      destruct (Subst.replace_at pat cb (Some c) s k st1) as [out st2].
      simpl in *. split; [apply Forall_app; split|]; assumption.
    + destruct (IH (Some c) 0 st Hs' Hst) as [H1 H2].
      destruct (Subst.replace_at pat cb (Some c) s 0 st) as [out st1].
      simpl in *. split; [constructor|]; assumption.
Qed.


End Primitives.

Lemma delim_go_keep {St : Type} (I : St -> Prop) (d : jsstring) (min : nat)
    (cb : St -> jsstring -> jsstring * St) :
  Forall P d ->
  (forall st i, Forall P i -> I st ->
                Forall P (fst (cb st i)) /\ I (snd (cb st i))) ->
  forall s inner skip st,
    Forall P s -> (forall i, inner = Some i -> Forall P i) -> I st ->
    Forall P (fst (Subst.delim_go d min cb s inner skip st))
    /\ I (snd (Subst.delim_go d min cb s inner skip st)).
Proof.
  intros Hd Hcb s.
  induction s as [|c s IH]; intros inner skip st Hs Hi Hst.
  - simpl. destruct inner as [i|]; simpl; split; try assumption.
    apply Forall_app. split; [assumption|].
    apply Forall_rev_keep. apply Hi. reflexivity.
  - cbn [Subst.delim_go].
    inversion Hs as [|c0 s0 Hc Hs']. subst c0 s0.
    destruct skip as [|k]; [|apply IH; assumption].
    destruct inner as [i|].
    + destruct ((min <=? List.length i) && Re.starts_with d (c :: s)).
      * assert (Fi : Forall P (rev i))
          by (apply Forall_rev_keep; apply Hi; reflexivity).
        destruct (Hcb st (rev i) Fi Hst) as [H1 H2].
        destruct (cb st (rev i)) as [r st1]. simpl in H1, H2.
        assert (Hn : forall i0 : list char16, None = Some i0 -> Forall P i0)
          by discriminate.
        destruct (IH None (List.length d - 1) st1 Hs' Hn H2) as [H3 H4].
        match goal with
        | |- context [let (_, _) := ?X in _] =>
          change (Forall P (fst X)) in H3; change (I (snd X)) in H4;
          destruct X as [out st2]
        end.
        simpl in *. split; [apply Forall_app; split|]; assumption.
      * apply IH; try assumption.
        intros i0 E. inversion E. constructor; [assumption|].
        apply Hi. reflexivity.
    + destruct (Re.starts_with d (c :: s)).
      * apply IH; try assumption. intros i0 E. inversion E. constructor.
      * assert (Hn : forall i0 : jsstring, None = Some i0 -> Forall P i0)
          by discriminate.
        destruct (IH None 0 st Hs' Hn Hst) as [H1 H2].
        match goal with
        | |- context [let (_, _) := ?X in _] =>
          change (Forall P (fst X)) in H1; change (I (snd X)) in H2;
          destruct X as [out st1]
        end.
        simpl in *. split; [constructor|]; assumption.
Qed.

End StagesKeep.

(** * The output is well escaped *)

Section Restoration.

Lemma starts_with_spec (p s : jsstring) :
  Re.starts_with p s = true -> s = p ++ skipn (List.length p) s.
Proof.
  revert s. induction p as [|a p IH]; intros s H; [reflexivity|].
  destruct s as [|b s]; [discriminate|]. simpl in H.
  apply andb_true_iff in H. destruct H as [H1 H2].
  apply N.eqb_eq in H1. subst b. simpl. f_equal. apply IH. assumption.
Qed.






End Restoration.

Section StagePatterns.

Variable P : char16 -> Prop.

Lemma heading_at_title (prev : option char16) (s title : jsstring) (n : nat) :
  heading_at prev s = Some (title, n) -> Forall P s -> Forall P title.
Proof.
  unfold heading_at. intros H Hs.
  destruct (match prev with Some c => is_line_terminator c | None => true end);
    [|discriminate].
  destruct ((1 <=? Re.run (N.eqb (ch "#")) s) && (Re.run (N.eqb (ch "#")) s <=? 6));
    [|discriminate].
  destruct (Re.run is_space (skipn (Re.run (N.eqb (ch "#")) s) s)) eqn:E;
    [discriminate|].
  injection H as <- _.
  exact (Forall_firstn_keep P _ _
           (Forall_skipn_keep P (S n0) _ (Forall_skipn_keep P _ _ Hs))).
Qed.

Lemma link_at_label (prev : option char16) (s label url : jsstring) (n : nat) :
  link_at prev s = Some ((label, url), n) -> Forall P s -> Forall P label.
Proof.
  unfold link_at. intros H Hs.
  destruct s as [|c s1]; [discriminate|].
  destruct (N.eqb c (ch "[")); [|discriminate].
  inversion Hs as [|c0 s0 Hc Hs1]. subst c0 s0.
  destruct (Re.run _ s1) as [|n0] eqn:En; [discriminate|].
  destruct (skipn (S n0) s1) as [|c1 [|c2 s2]]; try discriminate.
  destruct (N.eqb c1 (ch "]") && N.eqb c2 (ch "(")); [|discriminate].
  destruct (Re.run _ s2) as [|m0]; [discriminate|].
  destruct (skipn (S m0) s2); [discriminate|].
  injection H as <- _ _. exact (Forall_firstn_keep P (S n0) _ Hs1).
Qed.


Lemma normalize_keep (s : jsstring) :
  P (ch "*") -> P (ch "_") -> Forall P s ->
  Forall P (normalizeHeadings (normalizeCommonMd s)).
Proof.
  intros Hs1 Hu Hs. unfold normalizeHeadings, normalizeCommonMd.
  apply (replace_at_keep P (fun _ : unit => True)); [| |exact Logic.I].
  - intros prev s0 title n st E Hs0 _. split; [|exact Logic.I]. simpl.
    constructor; [assumption|]. apply Forall_app. split.
    + apply trim_keep. eapply heading_at_title; eassumption.
    + repeat constructor. assumption.
  - unfold Subst.replace_delim.
    apply (delim_go_keep P (fun _ : unit => True)); try exact Logic.I.
    + repeat constructor; assumption.
    + intros st i Hi _. split; [|exact Logic.I]. simpl.
      constructor; [assumption|]. apply Forall_app. split; [assumption|].
      repeat constructor. assumption.
    + apply (delim_go_keep P (fun _ : unit => True)); try exact Logic.I.
      * repeat constructor; assumption.
      * intros st i Hi _. split; [|exact Logic.I]. simpl.
        constructor; [assumption|]. apply Forall_app. split; [assumption|].
        repeat constructor. assumption.
      * assumption.
      * discriminate.
    + discriminate.
Qed.

End StagePatterns.

Section EscapedOutput.

Variable URL : jsstring -> completion jsstring.

(** Two facts about the serialiser of the URL Standard, which
    percent-encodes every code point that is not ASCII and writes no [$]
    of its own: a serialised URL does not hold the code unit that opens a
    placeholder, and it holds a [$] only if the string that was parsed
    did. *)
Hypothesis URL_ascii :
  forall raw u, URL raw = Normal u -> ~ In c_lbr u.
Hypothesis URL_no_new_dollar :
  forall raw u, URL raw = Normal u -> ~ In (ch "$") raw -> ~ In (ch "$") u.


Lemma escapeForUrl_escaped (u : jsstring) : url_escaped (escapeForUrl u).
Proof.
  unfold escapeForUrl. induction u as [|c u IH]; simpl; [constructor|].
  unfold escape_url_unit at 1.
  destruct (mem c [ch ")"; ch "\"]) eqn:E; simpl.
  - apply ue_escaped; assumption.
  - apply ue_plain; assumption.
Qed.










End EscapedOutput.





(** * Placeholders in the working text *)

Section Tokenized.

Lemma token_unfold (k : char16) (i : nat) :
  token k i = c_lbr :: (k :: decimal i ++ [c_rbr]).
Proof. reflexivity. Qed.

Lemma token_tail_no_lbr (k : char16) (i : nat) :
  In k categories -> Forall no_lbr (k :: decimal i ++ [c_rbr]).
Proof.
  intros Hk. constructor; [apply category_plain; assumption|].
  apply Forall_app. split.
  - eapply Forall_impl; [|apply decimal_digits].
    intros c Hc. apply digit_plain. assumption.
  - repeat constructor. discriminate.
Qed.

Lemma digits_prefix (a b s : jsstring) :
  Forall (fun c => is_digit c = true) a ->
  Forall (fun c => is_digit c = true) b ->
  Re.starts_with (a ++ [c_rbr]) (b ++ c_rbr :: s) = true -> a = b.
Proof.
  intros Ha. revert b. induction Ha as [|a0 a Ha0 Ha IH]; intros b Hb H.
  - destruct b as [|b0 b]; [reflexivity|]. cbn [Re.starts_with app] in H.
    apply andb_true_iff in H. destruct H as [H _]. apply N.eqb_eq in H.
    inversion Hb as [|x y Hb0 _]. subst. discriminate.
  - destruct b as [|b0 b]; cbn [Re.starts_with app] in H;
      apply andb_true_iff in H; destruct H as [H1 H2]; apply N.eqb_eq in H1.
    + subst a0. discriminate.
    + subst b0. f_equal. inversion Hb. apply IH; assumption.
Qed.

(** No placeholder is a prefix of another one followed by more text. *)
Lemma token_prefix_free (k k' : char16) (i i' : nat) (s : jsstring) :
  Re.starts_with (token k i) (token k' i' ++ s) = true -> k = k' /\ i = i'.
Proof.
  rewrite !token_unfold. cbn [Re.starts_with app].
  rewrite N.eqb_refl. cbn [andb]. intros H.
  apply andb_true_iff in H. destruct H as [H1 H2]. apply N.eqb_eq in H1.
  split; [assumption|]. apply decimal_inj.
  rewrite <- app_assoc in H2.
  apply (digits_prefix _ _ s); [apply decimal_digits|apply decimal_digits|].
  exact H2.
Qed.

Lemma occurrences_from_length (pat s : jsstring) (n m : nat) :
  List.length (occurrences_from n pat s) = List.length (occurrences_from m pat s).
Proof.
  revert n m. induction s as [|c s IH]; intros n m; [reflexivity|].
  simpl. rewrite !length_app. rewrite (IH (S n) (S m)).
  destruct (Re.starts_with pat (c :: s)); reflexivity.
Qed.

Lemma occurrences_from_cons (n : nat) (pat : jsstring) (c : char16) (s : jsstring) :
  occurrences_from n pat (c :: s)
  = (if Re.starts_with pat (c :: s) then [n] else [])
    ++ occurrences_from (S n) pat s.
Proof. reflexivity. Qed.

(** Code units other than the opening one start no placeholder. *)
Lemma occurrences_skip (k : char16) (i : nat) (a s : jsstring) (n : nat) :
  Forall no_lbr a ->
  List.length (occurrences_from n (token k i) (a ++ s))
  = List.length (occurrences (token k i) s).
Proof.
  intros Ha. revert n. induction Ha as [|c a Hc Ha IH]; intros n.
  - apply occurrences_from_length.
  - rewrite <- app_comm_cons, occurrences_from_cons, token_unfold.
    rewrite starts_with_head by exact Hc. rewrite <- token_unfold. apply IH.
Qed.

(** In a tokenized text a placeholder occurs as often as it is listed. *)
Lemma tokenized_occurrences (l : list (char16 * nat)) (s : jsstring)
    (k : char16) (i : nat) :
  tokenized l s ->
  List.length (occurrences (token k i) s) = count_occ mark_eq_dec l (k, i).
Proof.
  induction 1 as [|c l s Hc Hs IH|k' i' l s Hk Hs IH].
  - reflexivity.
  - rewrite <- IH. apply (occurrences_skip k i [c] s 0).
    repeat constructor. assumption.
  - unfold occurrences.
    change (token k' i' ++ s)
      with (c_lbr :: ((k' :: decimal i' ++ [c_rbr]) ++ s)) at 1.
    rewrite occurrences_from_cons, length_app.
    rewrite (occurrences_skip k i _ s 1) by (apply token_tail_no_lbr; assumption).
    rewrite IH. change (c_lbr :: (k' :: decimal i' ++ [c_rbr]) ++ s)
      with (token k' i' ++ s).
    cbn [count_occ].
    destruct (mark_eq_dec (k', i') (k, i)) as [E|E].
    + injection E as -> ->. rewrite starts_with_app. reflexivity.
    + destruct (Re.starts_with (token k i) (token k' i' ++ s)) eqn:Es;
        [|reflexivity].
      apply token_prefix_free in Es. destruct Es as [-> ->]. congruence.
Qed.

Lemma tokenized_app (l1 l2 : list (char16 * nat)) (a b : jsstring) :
  tokenized l1 a -> tokenized l2 b -> tokenized (l1 ++ l2) (a ++ b).
Proof.
  intros Ha Hb. induction Ha as [|c l s Hc Hs IH|k i l s Hk Hs IH].
  - assumption.
  - simpl. apply tk_char; assumption.
  - rewrite <- app_assoc. simpl. apply tk_token; assumption.
Qed.

Lemma tokenized_plain (s : jsstring) : Forall no_lbr s -> tokenized [] s.
Proof.
  induction 1 as [|c s Hc Hs IH]; [constructor|apply tk_char; assumption].
Qed.

Lemma tokenized_escape (l : list (char16 * nat)) (s : jsstring) :
  tokenized l s -> tokenized l (escapeMarkdownV2 s).
Proof.
  induction 1 as [|c l s Hc Hs IH|k i l s Hk Hs IH].
  - constructor.
  - change (c :: s) with ([c] ++ s). rewrite escapeMarkdownV2_app.
    apply (tokenized_app [] l); [|assumption].
    apply tokenized_plain. apply escape_keep; [discriminate|].
    repeat constructor. assumption.
  - rewrite escapeMarkdownV2_app.
    rewrite (@escapeMarkdownV2_plain _ (@token_plain k i Hk)).
    apply tk_token; assumption.
Qed.

End Tokenized.

(** * The span extraction, one match at a time *)

Lemma delim_go_skip {St : Type} (d : jsstring) (min : nat)
    (cb : St -> jsstring -> jsstring * St)
    (a b : jsstring) (inner : option jsstring) (st : St) :
  Subst.delim_go d min cb (a ++ b) inner (List.length a) st
  = Subst.delim_go d min cb b inner 0 st.
Proof. induction a as [|c a IH]; [reflexivity|]. simpl. exact IH. Qed.

Lemma delim_go_after_delimiter {St : Type} (d : jsstring) (min : nat)
    (cb : St -> jsstring -> jsstring * St)
    (c : char16) (s : jsstring) (inner : option jsstring) (st : St) :
  d <> [] -> Re.starts_with d (c :: s) = true ->
  exists rest,
    c :: s = d ++ rest
    /\ Subst.delim_go d min cb s inner (List.length d - 1) st
       = Subst.delim_go d min cb rest inner 0 st.
Proof.
  intros Hd H. apply starts_with_spec in H.
  destruct d as [|dh d']; [congruence|].
  exists (skipn (List.length (dh :: d')) (c :: s)). split; [assumption|].
  simpl in H. injection H as _ H. simpl skipn.
  replace (List.length (dh :: d') - 1) with (List.length d')
    by (simpl; lia).
  rewrite H at 1. apply delim_go_skip.
Qed.

Section DelimSpec.

Context {St : Type}.
Variable d : jsstring.
Variable min : nat.
Variable cb : St -> jsstring -> jsstring * St.
Hypothesis d_nonempty : d <> [].

Local Abbreviation go := (Subst.delim_go d min cb).

(** With a span open, either no closing delimiter follows, or the span
    closes at the first one that leaves enough inside. *)
Lemma delim_go_open (s : jsstring) :
  forall i st,
    go s (Some i) 0 st = (d ++ rev i ++ s, st)
    \/ exists inner post,
        s = inner ++ d ++ post
        /\ go s (Some i) 0 st
           = (fst (cb st (rev i ++ inner))
              ++ fst (go post None 0 (snd (cb st (rev i ++ inner)))),
              snd (go post None 0 (snd (cb st (rev i ++ inner))))).
Proof.
  induction s as [|c s IH]; intros i st.
  - left. simpl. rewrite app_nil_r. reflexivity.
  - cbn [Subst.delim_go].
    destruct ((min <=? List.length i) && Re.starts_with d (c :: s)) eqn:E.
    + right. apply andb_true_iff in E. destruct E as [_ E].
      exists [], (skipn (List.length d) (c :: s)).
      split; [apply starts_with_spec; assumption|].
      rewrite app_nil_r.
      destruct (cb st (rev i)) as [r st1]. cbn [fst snd].
      destruct (delim_go_after_delimiter d min cb c s None st1 d_nonempty E)
        as (rest & E1 & E2).
      rewrite E2.
      assert (Er : rest = skipn (List.length d) (c :: s)).
      { rewrite E1. symmetry. apply skipn_app_exact. }
      rewrite <- Er.
      destruct (Subst.delim_go d min cb rest None 0 st1). reflexivity.
    + destruct (IH (c :: i) st) as [H|(inner & post & H1 & H2)].
      * left. etransitivity; [exact H|].
        simpl. rewrite <- !app_assoc. reflexivity.
      * right. exists (c :: inner), post. split; [simpl; f_equal; assumption|].
        etransitivity; [exact H2|].
        simpl. rewrite <- !app_assoc. reflexivity.
Qed.

(** Either the text has no span, or it splits around its first one. *)
Lemma delim_go_spec (s : jsstring) :
  forall st,
    go s None 0 st = (s, st)
    \/ exists pre inner post,
        s = pre ++ d ++ inner ++ d ++ post
        /\ go s None 0 st
           = (pre ++ fst (cb st inner)
              ++ fst (go post None 0 (snd (cb st inner))),
              snd (go post None 0 (snd (cb st inner)))).
Proof.
  induction s as [|c s IH]; intros st.
  - left. reflexivity.
  - cbn [Subst.delim_go].
    destruct (Re.starts_with d (c :: s)) eqn:E.
    + destruct (delim_go_after_delimiter d min cb c s (Some []) st d_nonempty E)
        as (rest & E1 & E2).
      destruct (delim_go_open rest [] st) as [H|(inner & post & H1 & H2)].
      * left. etransitivity; [exact E2|]. etransitivity; [exact H|].
        simpl. rewrite E1. reflexivity.
      * right. exists [], inner, post. split; [rewrite E1, H1; reflexivity|].
        etransitivity; [exact E2|]. etransitivity; [exact H2|]. reflexivity.
    + destruct (IH st) as [H|(pre & inner & post & H1 & H2)].
      * left.
        replace (Subst.delim_go d min cb s None 0 st) with (s, st)
          by (symmetry; exact H).
        reflexivity.
      * right. exists (c :: pre), inner, post.
        split; [simpl; f_equal; assumption|].
        match goal with
        | |- context [let (_, _) := ?X in _] =>
          replace X with
            (pre ++ fst (cb st inner)
             ++ fst (go post None 0 (snd (cb st inner))),
             snd (go post None 0 (snd (cb st inner))))
            by (symmetry; exact H2)
        end.
        reflexivity.
Qed.

End DelimSpec.

Section TokenizedSplit.

Lemma delimiter_not_in_token (r k : char16) (i : nat) :
  In r delimiter_units -> In k categories -> ~ In r (token k i).
Proof.
  intros Hr Hk Hin.
  destruct (@token_units k i r Hin) as [E|[E|[E|E]]].
  - subst r. simpl in Hr. intuition discriminate.
  - subst r. simpl in Hr, Hk. intuition (subst; discriminate).
  - simpl in Hr. destruct Hr as [<-|[<-|[<-|[]]]]; discriminate.
  - subst r. simpl in Hr. intuition discriminate.
Qed.

Lemma delimiter_no_lbr (r : char16) : In r delimiter_units -> r <> c_lbr.
Proof. intros Hr ->. simpl in Hr. intuition discriminate. Qed.

Lemma tokenized_cons_inv (r : char16) (l : list (char16 * nat)) (x : jsstring) :
  r <> c_lbr -> tokenized l (r :: x) -> tokenized l x.
Proof.
  intros Hr H. inversion H as [|c l0 s Hc Hs E1|k i l0 s Hk Hs E1].
  - assumption.
  - exfalso. subst. apply Hr. reflexivity.
Qed.

Lemma tokenized_strip (d : jsstring) (l : list (char16 * nat)) (x : jsstring) :
  Forall (fun r => In r delimiter_units) d ->
  tokenized l (d ++ x) -> tokenized l x.
Proof.
  induction 1 as [|r d Hr Hd IH]; intros H; [assumption|].
  apply IH. apply tokenized_cons_inv with (r := r); [|assumption].
  apply delimiter_no_lbr. assumption.
Qed.

(** A tokenized text splits at a delimiter into tokenized halves. *)
Lemma tokenized_split (r : char16) (b : jsstring) :
  In r delimiter_units ->
  forall l x, tokenized l x ->
  forall a, x = a ++ r :: b ->
  exists l1 l2, l = l1 ++ l2 /\ tokenized l1 a /\ tokenized l2 b.
Proof.
  intros Hr l x H.
  induction H as [|c l s Hc Hs IH|k i l s Hk Hs IH]; intros a E.
  - destruct a; discriminate.
  - destruct a as [|c' a].
    + simpl in E. injection E as -> ->. exists [], l.
      repeat split; [constructor|assumption].
    + simpl in E. injection E as -> E.
      destruct (IH _ E) as (l1 & l2 & -> & H1 & H2).
      exists l1, l2. repeat split; [apply tk_char|]; assumption.
  - apply app_eq_app in E. destruct E as (l0 & [[E1 E2]|[E1 E2]]).
    + destruct l0 as [|r' l0].
      * rewrite app_nil_r in E1. simpl in E2. subst a s.
        exists [(k, i)], l. repeat split.
        -- rewrite <- (app_nil_r (token k i)). apply tk_token; [assumption|constructor].
        -- apply tokenized_cons_inv with (r := r);
             [apply delimiter_no_lbr|]; assumption.
      * simpl in E2. injection E2 as <- _. exfalso.
        apply (delimiter_not_in_token r k i Hr Hk). rewrite E1.
        apply in_or_app. right. left. reflexivity.
    + destruct (IH _ E2) as (l1 & l2 & -> & H1 & H2).
      exists ((k, i) :: l1), l2. subst a.
      repeat split; [apply tk_token|]; assumption.
Qed.

Lemma tokenized_around (d pre inner post : jsstring) (l : list (char16 * nat)) :
  d <> [] -> Forall (fun r => In r delimiter_units) d ->
  tokenized l (pre ++ d ++ inner ++ d ++ post) ->
  exists l1 lm l3, l = l1 ++ lm ++ l3 /\ tokenized l1 pre /\ tokenized l3 post.
Proof.
  intros Hd Hdel H. destruct d as [|r d']; [congruence|].
  inversion Hdel as [|r0 d0 Hr Hd']. subst r0 d0.
  destruct (tokenized_split r _ Hr _ _ H pre eq_refl) as (l1 & l2 & -> & H1 & H2).
  apply tokenized_strip in H2; [|assumption].
  destruct (tokenized_split r _ Hr _ _ H2 inner eq_refl) as (lm & l3 & -> & H3 & H4).
  apply tokenized_strip in H4; [|assumption].
  exists l1, lm, l3. auto.
Qed.

End TokenizedSplit.

Section TokenizedStage.

Context {St : Type}.
Variable d : jsstring.
Variable min : nat.
Variable K : char16.
Variable cnt : St -> nat.
Variable cb : St -> jsstring -> jsstring * St.

Hypothesis d_nonempty : d <> [].
Hypothesis d_delimiter : Forall (fun r => In r delimiter_units) d.
Hypothesis K_category : In K categories.
Hypothesis cb_token : forall st inner, fst (cb st inner) = token K (cnt st).
Hypothesis cb_count : forall st inner, cnt (snd (cb st inner)) = S (cnt st).

(** The marks of the text after the stage: those that were there, and the
    new ones of category [K], numbered from the table's length on. *)
Lemma stage_tokenized (n : nat) :
  forall s l st,
    List.length s <= n -> tokenized l s ->
    exists l',
      tokenized l' (fst (Subst.delim_go d min cb s None 0 st))
      /\ cnt st <= cnt (snd (Subst.delim_go d min cb s None 0 st))
      /\ (forall x, In x l' ->
            In x l
            \/ (fst x = K
                /\ cnt st <= snd x
                   < cnt (snd (Subst.delim_go d min cb s None 0 st))))
      /\ (NoDup l -> (forall x, In x l -> fst x <> K) -> NoDup l').
Proof.
  induction n as [|n IH]; intros s l st Hlen Hs;
    destruct (delim_go_spec d min cb d_nonempty s st)
      as [E|(pre & inner & post & E1 & E2)];
    try (rewrite E; simpl; exists l; repeat split; auto; lia).
  - exfalso. subst s. rewrite !length_app in Hlen.
    destruct d; [congruence|]. simpl in Hlen. lia.
  - rewrite E2. cbn [fst snd].
    assert (Hpost : List.length post <= n).
    { subst s. rewrite !length_app in Hlen.
      destruct d; [congruence|]. simpl in Hlen. lia. }
    subst s.
    destruct (tokenized_around d pre inner post l d_nonempty d_delimiter Hs)
      as (l1 & lm & l3 & -> & H1 & H3).
    destruct (IH post l3 (snd (cb st inner)) Hpost H3)
      as (l3' & T & C & M & N).
    rewrite cb_count in C, M. rewrite cb_token.
    exists (l1 ++ (K, cnt st) :: l3'). split; [|split; [|split]].
    + apply tokenized_app; [assumption|]. apply tk_token; assumption.
    + lia.
    + intros x Hx. apply in_app_or in Hx. destruct Hx as [Hx|[Hx|Hx]].
      * left. apply in_or_app. left. assumption.
      * right. subst x. simpl. split; [reflexivity|lia].
      * destruct (M x Hx) as [Hl|[Hk Hr]].
        -- left. apply in_or_app. right. apply in_or_app. right. assumption.
        -- right. split; [assumption|lia].
    + intros Hnd Hkind.
      assert (Hk3 : forall x, In x l3 -> fst x <> K).
      { intros x Hx. apply Hkind. apply in_or_app. right.
        apply in_or_app. right. assumption. }
      assert (Hk1 : forall x, In x l1 -> fst x <> K).
      { intros x Hx. apply Hkind. apply in_or_app. left. assumption. }
      pose proof (NoDup_app_remove_r _ _ Hnd) as Hnd1.
      pose proof (NoDup_app_remove_l _ _ (NoDup_app_remove_l _ _ Hnd)) as Hnd3.
      apply NoDup_app.
      * assumption.
      * constructor; [|apply N; assumption].
        intros Hin. destruct (M _ Hin) as [Hl|[_ Hr]].
        -- apply (Hk3 _ Hl). reflexivity.
        -- simpl in Hr. lia.
      * intros x Hx1 [Hx|Hx].
        -- subst x. apply (Hk1 _ Hx1). reflexivity.
        -- destruct (M _ Hx) as [Hl|[Hk _]].
           ++ revert Hnd Hx1 Hl. clear. intros Hnd Hx1 Hl.
              induction l1 as [|y l1 IHl]; [contradiction|].
              simpl in Hnd. inversion Hnd as [|y0 t Hy Ht]. subst.
              destruct Hx1 as [->|Hx1].
              ** apply Hy. apply in_or_app. right. apply in_or_app. right.
                 assumption.
              ** apply IHl; assumption.
           ++ apply (Hk1 _ Hx1). assumption.
Qed.

End TokenizedStage.

Section TokenizedWorkingText.

Variable URL : jsstring -> completion jsstring.

(** The link extraction on a text without placeholders leaves the link
    placeholders [n], [n+1], ... in order, [n] being the table's length. *)
Lemma links_tokenized (s : jsstring) :
  forall prev skip ph r,
    Forall no_lbr s ->
    SubstC.replace_at link_at (link_cb URL) prev s skip ph = Normal r ->
    exists m,
      tokenized (link_marks (List.length (links ph)) m) (fst r)
      /\ List.length (links (snd r)) = List.length (links ph) + m.
Proof.
  induction s as [|c s IH]; intros prev skip ph r Hs.
  - simpl. intros H. inversion H. exists 0. split; [constructor|simpl; lia].
  - cbn [SubstC.replace_at]. inversion Hs as [|c0 s0 Hc Hs']. subst c0 s0.
    destruct skip as [|k]; [|apply IH; assumption].
    assert (Hcopy :
      forall o, SubstC.replace_at link_at (link_cb URL) (Some c) s 0 ph = Normal o ->
      exists m,
        tokenized (link_marks (List.length (links ph)) m) (c :: fst o)
        /\ List.length (links (snd o)) = List.length (links ph) + m).
    { intros o Eo. destruct (IH _ _ _ _ Hs' Eo) as (m & T & L).
      exists m. split; [apply tk_char; assumption|assumption]. }
    destruct (link_at prev (c :: s)) as [[[label url] [|k]]|] eqn:E.
    + destruct (SubstC.replace_at link_at (link_cb URL) (Some c) s 0 ph)
        as [o|e] eqn:Eo; simpl; intros H; inversion H; subst r; clear H.
      exact (Hcopy _ eq_refl).
    + pose proof (link_at_label no_lbr _ _ _ _ _ E Hs) as Hl.
      unfold link_cb at 1.
      destruct (normalizeAndValidateUrl_normal URL url) as [nu Hnu].
      rewrite Hnu. cbn [bind].
      assert (Hplain :
        forall o, SubstC.replace_at link_at (link_cb URL) (Some c) s k ph = Normal o ->
        exists m,
          tokenized (link_marks (List.length (links ph)) m)
                    (escapeMarkdownV2 label ++ fst o)
          /\ List.length (links (snd o)) = List.length (links ph) + m).
      { intros o Eo. destruct (IH _ _ _ _ Hs' Eo) as (m & T & L).
        exists m. split; [|assumption].
        apply (tokenized_app [] _); [|assumption].
        apply tokenized_plain. apply escape_keep; [discriminate|assumption]. }
      destruct nu as [[|u0 u]|]; cbn [bind fst snd].
      * destruct (SubstC.replace_at link_at (link_cb URL) (Some c) s k ph)
          as [o|e] eqn:Eo; simpl; intros H; inversion H; subst r; clear H.
        exact (Hplain _ eq_refl).
      * match goal with
        | |- context [SubstC.replace_at link_at (link_cb URL) (Some c) s k ?p] =>
          destruct (SubstC.replace_at link_at (link_cb URL) (Some c) s k p)
            as [o|e] eqn:Eo; simpl; intros H; inversion H; subst r; clear H;
          destruct (IH _ _ _ _ Hs' Eo) as (m & T & L)
        end.
        simpl in T, L. rewrite length_app in T, L. simpl in T, L.
        exists (S m). split; [|simpl; lia].
        unfold link_marks. simpl.
        apply tk_token; [simpl; tauto|].
        replace (S (List.length (links ph))) with (List.length (links ph) + 1)
          by lia.
        exact T.
      * destruct (SubstC.replace_at link_at (link_cb URL) (Some c) s k ph)
          as [o|e] eqn:Eo; simpl; intros H; inversion H; subst r; clear H.
        exact (Hplain _ eq_refl).
    + destruct (SubstC.replace_at link_at (link_cb URL) (Some c) s 0 ph)
        as [o|e] eqn:Eo; simpl; intros H; inversion H; subst r; clear H.
      exact (Hcopy _ eq_refl).
Qed.

End TokenizedWorkingText.

Section PlaceholdersOnce.

Variable URL : jsstring -> completion jsstring.

Lemma link_marks_kind (n m : nat) (x : char16 * nat) :
  In x (link_marks n m) -> fst x = ch "L" /\ n <= snd x.
Proof.
  unfold link_marks. intros H. apply in_map_iff in H.
  destruct H as (j & <- & Hj). apply in_seq in Hj. simpl. split; [reflexivity|lia].
Qed.

Lemma link_marks_NoDup (m : nat) : forall n, NoDup (link_marks n m).
Proof.
  induction m as [|m IH]; intros n; [constructor|].
  unfold link_marks. simpl. constructor; [|apply IH].
  intros H. apply (link_marks_kind (S n) m) in H. simpl in H. lia.
Qed.

Lemma extract_spans_unfold (text : jsstring) (ph : placeholders) :
  extract_spans text ph
  = let r1 := Subst.delim_go (str "*") 1 bold_cb text None 0 ph in
    let r2 := Subst.delim_go (str "_") 1 italic_cb (fst r1) None 0 (snd r1) in
    Subst.delim_go (str "||") 1 spoiler_cb (fst r2) None 0 (snd r2).
Proof.
  unfold extract_spans, Subst.replace_delim.
  destruct (Subst.delim_go (str "*") 1 bold_cb text None 0 ph) as [t1 p1].
  cbn [fst snd].
  destruct (Subst.delim_go (str "_") 1 italic_cb t1 None 0 p1) as [t2 p2].
  reflexivity.
Qed.

Lemma delimiters_are_delimiters :
  Forall (fun r => In r delimiter_units) (str "*")
  /\ Forall (fun r => In r delimiter_units) (str "_")
  /\ Forall (fun r => In r delimiter_units) (str "||").
Proof. repeat split; repeat constructor; simpl; tauto. Qed.

End PlaceholdersOnce.

Section IssuedTokens.

Variable URL : jsstring -> completion jsstring.

(** A stage leaves alone what its callback leaves alone. *)
Lemma delim_go_frame {St X : Type} (f : St -> X) (d : jsstring) (min : nat)
    (cb : St -> jsstring -> jsstring * St) :
  (forall st inner, f (snd (cb st inner)) = f st) ->
  forall s inner skip st,
    f (snd (Subst.delim_go d min cb s inner skip st)) = f st.
Proof.
  intros Hcb. induction s as [|c s IH]; intros inner skip st.
  - destruct inner; reflexivity.
  - cbn [Subst.delim_go]. destruct skip as [|k]; [|apply IH].
    destruct inner as [i|].
    + destruct ((min <=? List.length i) && Re.starts_with d (c :: s)).
      * pose proof (Hcb st (rev i)) as H1.
        destruct (cb st (rev i)) as [r st1]. cbn [snd] in H1.
        pose proof (IH None (List.length d - 1) st1) as H2.
        destruct (Subst.delim_go d min cb s None (List.length d - 1) st1)
          as [out st2].
        cbn [snd] in *. congruence.
      * apply IH.
    + destruct (Re.starts_with d (c :: s)); [apply IH|].
      pose proof (IH None 0 st) as H2.
      destruct (Subst.delim_go d min cb s None 0 st) as [out st1].
      exact H2.
Qed.

(** The marks of the text after the three span extractions are distinct,
    and each one indexes an entry of its table. *)
Lemma extract_spans_marks (text : jsstring) (ph : placeholders)
    (l : list (char16 * nat)) :
  tokenized l text -> NoDup l ->
  (forall x, In x l -> fst x = ch "L" /\ snd x < List.length (links ph)) ->
  exists l',
    tokenized l' (fst (extract_spans text ph)) /\ NoDup l'
    /\ forall x, In x l' ->
         In (fst x) categories
         /\ snd x < List.length (entries (fst x) (snd (extract_spans text ph))).
Proof.
  intros T0 N0 K0. rewrite extract_spans_unfold. cbv zeta.
  destruct delimiters_are_delimiters as (D1 & D2 & D3).
  destruct (stage_tokenized (str "*") 1 (ch "B")
              (fun p => List.length (bolds p)) bold_cb
              ltac:(discriminate) D1 ltac:(simpl; tauto)
              (fun st inner => eq_refl)
              ltac:(intros st inner; simpl; rewrite length_app; simpl; lia)
              (List.length text) text l ph (le_n _) T0)
    as (l1 & T1 & _ & M1 & N1).
  set (r1 := Subst.delim_go (str "*") 1 bold_cb text None 0 ph) in *.
  destruct (stage_tokenized (str "_") 1 (ch "I")
              (fun p => List.length (italics p)) italic_cb
              ltac:(discriminate) D2 ltac:(simpl; tauto)
              (fun st inner => eq_refl)
              ltac:(intros st inner; simpl; rewrite length_app; simpl; lia)
              (List.length (fst r1)) (fst r1) l1 (snd r1) (le_n _) T1)
    as (l2 & T2 & _ & M2 & N2).
  set (r2 := Subst.delim_go (str "_") 1 italic_cb (fst r1) None 0 (snd r1)) in *.
  destruct (stage_tokenized (str "||") 1 (ch "S")
              (fun p => List.length (spoilers p)) spoiler_cb
              ltac:(discriminate) D3 ltac:(simpl; tauto)
              (fun st inner => eq_refl)
              ltac:(intros st inner; simpl; rewrite length_app; simpl; lia)
              (List.length (fst r2)) (fst r2) l2 (snd r2) (le_n _) T2)
    as (l3 & T3 & _ & M3 & N3).
  set (r3 := Subst.delim_go (str "||") 1 spoiler_cb (fst r2) None 0 (snd r2)) in *.
  (* what each stage leaves alone *)
  assert (L1 : links (snd r1) = links ph)
    by (apply (delim_go_frame links); reflexivity).
  assert (L2 : links (snd r2) = links (snd r1))
    by (apply (delim_go_frame links); reflexivity).
  assert (L3 : links (snd r3) = links (snd r2))
    by (apply (delim_go_frame links); reflexivity).
  assert (B2 : bolds (snd r2) = bolds (snd r1))
    by (apply (delim_go_frame bolds); reflexivity).
  assert (B3 : bolds (snd r3) = bolds (snd r2))
    by (apply (delim_go_frame bolds); reflexivity).
  assert (I3 : italics (snd r3) = italics (snd r2))
    by (apply (delim_go_frame italics); reflexivity).
  assert (K1 : forall x, In x l1 -> fst x = ch "L" \/ fst x = ch "B").
  { intros x Hx. destruct (M1 x Hx) as [H|[H _]];
      [left; apply (K0 x H)|right; assumption]. }
  assert (K2 : forall x, In x l2 ->
                 fst x = ch "L" \/ fst x = ch "B" \/ fst x = ch "I").
  { intros x Hx. destruct (M2 x Hx) as [H|[H _]]; [|tauto].
    destruct (K1 x H); tauto. }
  exists l3. split; [exact T3|]. split.
  - apply N3.
    + apply N2.
      * apply N1; [assumption|]. intros x Hx E.
        rewrite (proj1 (K0 x Hx)) in E. discriminate.
      * intros x Hx E. destruct (K1 x Hx) as [H|H]; rewrite H in E; discriminate.
    + intros x Hx E.
      destruct (K2 x Hx) as [H|[H|H]]; rewrite H in E; discriminate.
  - intros x Hx.
    destruct (M3 x Hx) as [H3|[Hk Hb]].
    2:{ rewrite Hk. split; [simpl; tauto|].
        change (entries (ch "S") (snd r3)) with (spoilers (snd r3)). lia. }
    destruct (M2 x H3) as [H2|[Hk Hb]].
    2:{ rewrite Hk. split; [simpl; tauto|].
        change (entries (ch "I") (snd r3)) with (italics (snd r3)).
        rewrite I3. lia. }
    destruct (M1 x H2) as [H1|[Hk Hb]].
    2:{ rewrite Hk. split; [simpl; tauto|].
        change (entries (ch "B") (snd r3)) with (bolds (snd r3)).
        rewrite B3, B2. lia. }
    destruct (K0 x H1) as [Hk Hb]. rewrite Hk. split; [simpl; tauto|].
    change (entries (ch "L") (snd r3)) with (links (snd r3)).
    rewrite L3, L2, L1. assumption.
Qed.

Lemma link_marks_bound (n m : nat) (x : char16 * nat) :
  In x (link_marks n m) -> fst x = ch "L" /\ snd x < n + m.
Proof.
  unfold link_marks. intros H. apply in_map_iff in H.
  destruct H as (j & <- & Hj). apply in_seq in Hj. simpl.
  split; [reflexivity|lia].
Qed.

Lemma working_text_marks (inputText : jsstring) :
  ~ In c_lbr inputText ->
  exists w l,
    working_text URL inputText = Normal w /\ tokenized l (fst w) /\ NoDup l
    /\ forall x, In x l ->
         In (fst x) categories
         /\ snd x < List.length (entries (fst x) (snd w)).
Proof.
  intros Hin. unfold working_text.
  assert (Hn : Forall no_lbr (normalizeHeadings (normalizeCommonMd inputText))).
  { apply normalize_keep; try discriminate.
    apply Forall_forall. intros c Hc ->. contradiction. }
  destruct (replace_links_normal URL
              (normalizeHeadings (normalizeCommonMd inputText)) None 0
              no_placeholders) as [r Hr].
  rewrite Hr. cbn [bind].
  destruct (links_tokenized URL _ _ _ _ _ Hn Hr) as (m & T & Lm).
  destruct (extract_spans_marks (fst r) (snd r) _ T
              (link_marks_NoDup m _)
              (fun x Hx =>
                 eq_ind_r (fun n => fst x = ch "L" /\ snd x < n)
                          (link_marks_bound _ _ x Hx) Lm))
    as (l & Tl & Nl & Bl).
  destruct (extract_spans (fst r) (snd r)) as [t ph].
  eexists. exists l. split; [reflexivity|]. split; [|split; assumption].
  simpl. apply tokenized_escape. assumption.
Qed.

End IssuedTokens.

(** C5, amended.  When the input does not contain [U+27EC], the code unit
    that opens a placeholder, the globally escaped working text is plain
    text mixed with placeholders: every [U+27EC] in it opens a placeholder
    that the extraction issued (its category is one of the four and its
    index is below the length of that category's table), and no
    placeholder occurs twice.  Nothing is said of the text once
    restoration has begun to change it, nor that every issued placeholder
    is still in the working text. *)
Theorem placeholder_occurs_once (URL : jsstring -> completion jsstring)
    (inputText : jsstring) :
  ~ In c_lbr inputText ->
  exists w l,
    working_text URL inputText = Normal w
    /\ tokenized l (fst w)
    /\ NoDup l
    /\ (forall k i, In (k, i) l ->
          In k categories /\ i < List.length (entries k (snd w)))
    /\ (forall k i, List.length (occurrences (token k i) (fst w)) <= 1).
Proof.
  intros Hin.
  destruct (working_text_marks URL inputText Hin) as (w & l & Hw & T & N & B).
  exists w, l. split; [assumption|]. split; [assumption|].
  split; [assumption|]. split.
  - intros k i Hl. exact (B (k, i) Hl).
  - intros k i. rewrite (tokenized_occurrences l (fst w) k i T).
    apply NoDup_count_occ. assumption.
Qed.

Lemma placeholder_occurs_once_witness :
  exists w l,
    working_text URL_fragment (str "*a* and *b* [c](https://x.y/)") = Normal w
    /\ tokenized l (fst w)
    /\ NoDup l
    /\ (forall k i, In (k, i) l ->
          In k categories /\ i < List.length (entries k (snd w)))
    /\ (forall k i, List.length (occurrences (token k i) (fst w)) <= 1).
Proof.
  apply (placeholder_occurs_once URL_fragment
           (str "*a* and *b* [c](https://x.y/)")).
  vm_compute. intuition discriminate.
Defined.

(** Two limits of the statement above.  A span extracted inside a later
    span takes its placeholder into the stored span: for [_a *b* c_] the
    working text is the italic placeholder alone, the bold one does not
    occur in it and comes out unrestored.  And a placeholder can be put
    together from parts: [⟬B[0](x)⟭ *y*] holds no placeholder, but once
    the link with the unparseable url [x] is reduced to its label the
    working text holds the bold placeholder at 0 and at 5. *)
Lemma placeholder_limits (URL : jsstring -> completion jsstring)
    (e : js_error) :
  URL (str "x") = Throw e ->
  (exists w,
     working_text URL (str "_a *b* c_") = Normal w
     /\ fst w = token (ch "I") 0
     /\ bolds (snd w) = [str "*b*"]
     /\ occurrences (token (ch "B") 0) (fst w) = []
     /\ processMarkdownV2Safe URL (str "_a *b* c_")
        = Normal (str "_a " ++ token (ch "B") 0 ++ str " c_"))
  /\ (let input := [c_lbr; ch "B"] ++ str "[0](x)" ++ [c_rbr] ++ str " *y*" in
      exists w,
        includes (token (ch "B") 0) input = false
        /\ working_text URL input = Normal w
        /\ occurrences (token (ch "B") 0) (fst w) = [0; 5]).
Proof.
  intros Hx. split.
  - eexists. repeat split; vm_compute; reflexivity.
  - cbv zeta. unfold working_text.
    assert (Hn : normalizeAndValidateUrl URL (str "x") = Normal None).
    { unfold normalizeAndValidateUrl. cbv zeta.
      change (Subst.trim (str "x")) with (str "x"). rewrite Hx. reflexivity. }
    assert (E : SubstC.replace_at link_at (link_cb URL) None
                  (normalizeHeadings (normalizeCommonMd
                     ([c_lbr; ch "B"] ++ str "[0](x)" ++ [c_rbr] ++ str " *y*")))
                  0 no_placeholders
                = Normal (token (ch "B") 0 ++ str " *y*", no_placeholders)).
    { change (normalizeHeadings (normalizeCommonMd
                ([c_lbr; ch "B"] ++ str "[0](x)" ++ [c_rbr] ++ str " *y*")))
        with ([c_lbr; ch "B"] ++ ch "[" :: str "0" ++ ch "]" :: ch "("
              :: str "x" ++ ch ")" :: ([c_rbr] ++ str " *y*")).
      rewrite replace_links_single.
      - unfold link_cb. rewrite Hn. reflexivity.
      - simpl. intuition discriminate.
      - simpl. intuition discriminate.
      - discriminate.
      - discriminate.
      - repeat constructor; discriminate.
      - repeat constructor; discriminate. }
    rewrite E. eexists. repeat split; vm_compute; reflexivity.
Qed.

(** * More on the segmenter *)

Section ChunksWithinBudget.

Variable maxLen : Z.
Hypothesis maxLen_pos : (1 <= maxLen)%Z.

Let within (p : jsstring) : Prop := (len p <= maxLen)%Z.

Lemma hard_pieces_within (w : jsstring) (l : list jsstring) :
  hard_pieces maxLen w = Normal l -> Forall within l.
Proof.
  destruct maxLen as [|p|p] eqn:E; simpl; try lia.
  intros H. inversion H. subst l.
  eapply Forall_impl; [|apply (@dot_pieces_bound (Pos.to_nat p) w); lia].
  intros a [_ Ha]. unfold within, len. lia.
Qed.

Lemma push_if_within (parts : list jsstring) (buf : jsstring) :
  Forall within parts -> within buf -> Forall within (push_if parts buf).
Proof.
  intros Hp Hb. unfold push_if. destruct (truthy buf); [|assumption].
  apply Forall_app. split; [assumption|]. constructor; [assumption|constructor].
Qed.

Lemma empty_within : within [].
Proof. unfold within, len. simpl. lia. Qed.

Lemma pack_words_within (words : list jsstring) :
  forall parts wBuf r,
    Forall within parts -> within wBuf ->
    pack_words maxLen words parts wBuf = Normal r ->
    Forall within (fst r) /\ within (snd r).
Proof.
  induction words as [|w rest IH]; intros parts wBuf r Hp Hb; simpl.
  - intros H. inversion H. simpl. auto.
  - destruct (fits (candidate wBuf (str " ") w) maxLen) eqn:Ec.
    { apply IH; [assumption|]. apply fits_len. assumption. }
    destruct (fits w maxLen) eqn:Ew.
    { apply IH; [apply push_if_within; assumption|]. apply fits_len. assumption. }
    destruct (hard_pieces maxLen w) as [l|e] eqn:Eh; simpl; [|discriminate].
    apply IH; [|apply empty_within].
    apply Forall_app. split; [apply push_if_within; assumption|].
    eapply hard_pieces_within. eassumption.
Qed.

Lemma pack_sentences_within (ss : list jsstring) :
  forall parts sBuf r,
    Forall within parts -> within sBuf ->
    pack_sentences maxLen ss parts sBuf = Normal r ->
    Forall within (fst r) /\ within (snd r).
Proof.
  induction ss as [|s rest IH]; intros parts sBuf r Hp Hb; simpl.
  - intros H. inversion H. simpl. auto.
  - destruct (fits (candidate sBuf (str " ") s) maxLen) eqn:Ec.
    { apply IH; [assumption|]. apply fits_len. assumption. }
    destruct (fits s maxLen) eqn:Ew.
    { apply IH; [apply push_if_within; assumption|]. apply fits_len. assumption. }
    destruct (pack_words maxLen (Re.split Re.spaces s) (push_if parts sBuf) [])
      as [rw|e] eqn:Eh; simpl; [|discriminate].
    destruct (pack_words_within _ _ _ _ (push_if_within _ _ Hp Hb) empty_within Eh)
      as [H1 H2].
    apply IH; [|apply empty_within]. apply push_if_within; assumption.
Qed.

Lemma pack_paragraphs_within (ps : list jsstring) :
  forall parts buffer r,
    Forall within parts -> within buffer ->
    pack_paragraphs maxLen ps parts buffer = Normal r ->
    Forall within (fst r) /\ within (snd r).
Proof.
  induction ps as [|p rest IH]; intros parts buffer r Hp Hb; simpl.
  - intros H. inversion H. simpl. auto.
  - destruct (fits (candidate buffer [c_nl; c_nl] p) maxLen) eqn:Ec.
    { apply IH; [assumption|]. apply fits_len. assumption. }
    destruct (fits p maxLen) eqn:Ew.
    { apply IH; [apply push_if_within; assumption|]. apply fits_len. assumption. }
    destruct (pack_sentences maxLen (Re.split Re.sentence_gap p)
                (push_if parts buffer) []) as [rs|e] eqn:Eh; simpl; [|discriminate].
    destruct (pack_sentences_within _ _ _ _ (push_if_within _ _ Hp Hb)
                empty_within Eh) as [H1 H2].
    apply IH; [|apply empty_within]. apply push_if_within; assumption.
Qed.

Lemma safety_within (part : jsstring) :
  within part -> Forall within (safety part).
Proof.
  intros Hp. unfold safety. destruct (fits part MAX_TELEGRAM) eqn:Ef.
  - constructor; [assumption|constructor].
  - assert (Hbig : (MAX_TELEGRAM < len part)%Z).
    { destruct (Z.leb_spec (len part) MAX_TELEGRAM) as [H|H];
        [|assumption]. unfold fits in Ef.
      apply Z.leb_le in H. congruence. }
    eapply Forall_impl;
      [|apply (@dot_pieces_bound (Z.to_nat SAFE_BUDGET) part);
        unfold SAFE_BUDGET; lia].
    intros a [_ Ha]. unfold within, len in *.
    unfold SAFE_BUDGET, MAX_TELEGRAM in *. lia.
Qed.

End ChunksWithinBudget.

(** X1.  With [maxLen >= 1] the call completes and every chunk has at most
    [maxLen] code units, on both paths and for a [maxLen] above the hard
    cap as well. *)
Theorem chunks_within_maxLen (text : jsstring) (maxLen : Z) :
  (1 <= maxLen)%Z ->
  exists parts,
    chunkForTelegram text maxLen = Normal parts
    /\ Forall (fun p => (len p <= maxLen)%Z) parts.
Proof.
  intros Hm. unfold chunkForTelegram.
  destruct (negb (truthy text) || fits text maxLen) eqn:E.
  - eexists. split; [reflexivity|]. constructor; [|constructor].
    apply orb_true_iff in E. destruct E as [E|E].
    + destruct text; [unfold len; simpl; lia|discriminate].
    + apply fits_len. assumption.
  - assert (Hnz : maxLen <> 0%Z) by lia.
    destruct (@pack_paragraphs_normal maxLen (Re.split Re.newlines2 text) [] [] Hnz)
      as [r Hr].
    rewrite Hr. simpl. eexists. split; [reflexivity|].
    destruct (pack_paragraphs_within maxLen Hm _ _ _ _
                (Forall_nil _) (empty_within maxLen Hm) Hr) as [H1 H2].
    apply flat_map_Forall with (P := fun p => (len p <= maxLen)%Z).
    + intros a Ha. apply (safety_within maxLen a Ha).
    + apply (push_if_within maxLen); assumption.
Qed.

Lemma chunks_within_maxLen_witness :
  exists parts,
    chunkForTelegram (str "Hello world. This is it! ok") 8 = Normal parts
    /\ Forall (fun p => (len p <= 8)%Z) parts.
Proof.
  apply (chunks_within_maxLen (str "Hello world. This is it! ok") 8). lia.
Defined.

(** X2.  Chunking is stable: with [maxLen >= 1], every chunk of the result
    is returned as it is when it is chunked again with the same bound. *)
Theorem rechunking_a_chunk (text : jsstring) (maxLen : Z) :
  (1 <= maxLen)%Z ->
  exists parts,
    chunkForTelegram text maxLen = Normal parts
    /\ Forall (fun c => chunkForTelegram c maxLen = Normal [c]) parts.
Proof.
  intros Hm. destruct (chunks_within_maxLen text maxLen Hm) as (parts & Hp & Hf).
  exists parts. split; [assumption|].
  eapply Forall_impl; [|exact Hf].
  intros c Hc. apply chunk_short_path. right. assumption.
Qed.

Lemma rechunking_a_chunk_witness :
  exists parts,
    chunkForTelegram (str "para1" ++ nl ++ nl ++ str "para2") 10 = Normal parts
    /\ Forall (fun c => chunkForTelegram c 10 = Normal [c]) parts.
Proof.
  apply (rechunking_a_chunk (str "para1" ++ nl ++ nl ++ str "para2") 10). lia.
Defined.

(** X3.  Whenever the text is actually split (it is not empty and longer
    than [maxLen]) and [maxLen] is not zero, the call completes and every
    chunk is within the hard cap [MAX_TELEGRAM], also for a [maxLen] above
    the cap and for a negative one. *)
Theorem split_chunks_within_cap (text : jsstring) (maxLen : Z) :
  text <> [] -> (maxLen < len text)%Z -> maxLen <> 0%Z ->
  exists parts,
    chunkForTelegram text maxLen = Normal parts
    /\ Forall (fun p => (len p <= MAX_TELEGRAM)%Z) parts.
Proof.
  intros Ht Hlen Hnz.
  assert (Hc : exists parts, chunkForTelegram text maxLen = Normal parts).
  { unfold chunkForTelegram.
    destruct (negb (truthy text) || fits text maxLen); [eauto|].
    destruct (@pack_paragraphs_normal maxLen (Re.split Re.newlines2 text) [] [] Hnz)
      as [r Hr].
    rewrite Hr. simpl. eauto. }
  destruct Hc as [parts Hp].
  exists parts. split; [assumption|].
  eapply chunk_split_path_capped; eassumption.
Qed.

Lemma split_chunks_within_cap_witness :
  exists parts,
    chunkForTelegram (str "para1" ++ nl ++ nl ++ str "para2") (-3) = Normal parts
    /\ Forall (fun p => (len p <= MAX_TELEGRAM)%Z) parts.
Proof.
  apply (split_chunks_within_cap (str "para1" ++ nl ++ nl ++ str "para2") (-3)).
  - discriminate.
  - vm_compute. reflexivity.
  - discriminate.
Defined.

Section InkIsKept.

Lemma ink_of_app (a b : jsstring) : ink_of (a ++ b) = ink_of a ++ ink_of b.
Proof. apply filter_app. Qed.

Lemma ink_of_blank (s : jsstring) : forallb is_space s = true -> ink_of s = [].
Proof.
  induction s as [|c s IH]; simpl; [reflexivity|].
  intros H. apply andb_true_iff in H. destruct H as [Hc Hs].
  rewrite Hc. simpl. apply IH. assumption.
Qed.

Lemma ink_of_candidate (buf sepr unit : jsstring) :
  forallb is_space sepr = true ->
  ink_of (candidate buf sepr unit) = ink_of buf ++ ink_of unit.
Proof.
  intros Hs. unfold candidate. destruct buf as [|b buf]; [reflexivity|].
  cbn [truthy]. rewrite !ink_of_app, (ink_of_blank sepr Hs). reflexivity.
Qed.

Lemma ink_of_push_if (parts : list jsstring) (buf : jsstring) :
  ink_of (List.concat (push_if parts buf)) = ink_of (List.concat parts) ++ ink_of buf.
Proof.
  unfold push_if. destruct buf as [|b buf]; cbn [truthy].
  - simpl. rewrite app_nil_r. reflexivity.
  - rewrite concat_app. simpl List.concat. rewrite app_nil_r. apply ink_of_app.
Qed.

Lemma concat_emit (cur : jsstring) : List.concat (Re.emit cur) = rev cur.
Proof. destruct cur; simpl; [reflexivity|rewrite app_nil_r; reflexivity]. Qed.

(** Splitting on white space keeps the ink, in order. *)
Lemma split_go_ink_of (m : Re.sep) (Hm : blank_sep m) (s : jsstring) :
  forall prev cur skip,
    forallb is_space (firstn skip s) = true ->
    ink_of (List.concat (Re.split_go m prev s cur skip))
    = ink_of (rev cur) ++ ink_of s.
Proof.
  induction s as [|c s IH]; intros prev cur skip Hskip.
  - simpl. rewrite !app_nil_r. reflexivity.
  - cbn [Re.split_go]. destruct skip as [|k].
    + destruct (m prev (c :: s)) as [|k] eqn:Hmk.
      * rewrite IH by reflexivity. cbn [rev]. rewrite ink_of_app.
        rewrite <- app_assoc. change (c :: s) with ([c] ++ s).
        rewrite (ink_of_app [c] s). reflexivity.
      * pose proof (Hm prev (c :: s)) as Hb. rewrite Hmk in Hb.
        cbn [firstn forallb] in Hb.
        apply andb_true_iff in Hb. destruct Hb as [Hc Hk].
        cbn [List.concat]. rewrite ink_of_app, IH by assumption.
        cbn [rev ink_of filter app]. rewrite Hc. reflexivity.
    + cbn [firstn forallb] in Hskip.
      apply andb_true_iff in Hskip. destruct Hskip as [Hc Hk].
      rewrite IH by assumption. cbn [ink_of filter]. rewrite Hc. reflexivity.
Qed.

Lemma split_ink_of (m : Re.sep) (s : jsstring) :
  blank_sep m -> ink_of (List.concat (Re.split m s)) = ink_of s.
Proof.
  intros Hm. unfold Re.split. rewrite split_go_ink_of by (assumption || reflexivity).
  reflexivity.
Qed.

(** Cutting at line terminators keeps the ink, in order. *)
Lemma dot_pieces_go_ink_of (n : nat) (s : jsstring) :
  forall cur room,
    ink_of (List.concat (Re.dot_pieces_go n s cur room))
    = ink_of (rev cur) ++ ink_of s.
Proof.
  induction s as [|c s IH]; intros cur room.
  - cbn [Re.dot_pieces_go]. rewrite concat_emit.
    simpl. rewrite app_nil_r. reflexivity.
  - cbn [Re.dot_pieces_go]. destruct (is_line_terminator c) eqn:Hlt.
    + rewrite concat_app, ink_of_app, concat_emit, IH.
      cbn [rev ink_of filter app].
      rewrite (line_terminator_is_space _ Hlt). reflexivity.
    + destruct room as [|r].
      * rewrite concat_app, ink_of_app, concat_emit, IH.
        change (c :: s) with ([c] ++ s). rewrite (ink_of_app [c] s).
        reflexivity.
      * rewrite IH. cbn [rev]. rewrite ink_of_app, <- app_assoc.
        change (c :: s) with ([c] ++ s). rewrite (ink_of_app [c] s).
        reflexivity.
Qed.

Lemma dot_pieces_ink_of (n : nat) (s : jsstring) :
  ink_of (List.concat (Re.dot_pieces n s)) = ink_of s.
Proof. unfold Re.dot_pieces. rewrite dot_pieces_go_ink_of. reflexivity. Qed.

Lemma safety_ink_of (l : list jsstring) :
  ink_of (List.concat (flat_map safety l)) = ink_of (List.concat l).
Proof.
  induction l as [|p l IH]; [reflexivity|].
  cbn [flat_map List.concat]. rewrite concat_app, !ink_of_app, IH. f_equal.
  unfold safety. destruct (fits p MAX_TELEGRAM).
  - simpl. rewrite app_nil_r. reflexivity.
  - apply dot_pieces_ink_of.
Qed.

Variable maxLen : Z.
Hypothesis maxLen_pos : (1 <= maxLen)%Z.

Lemma hard_pieces_ink_of (w : jsstring) (l : list jsstring) :
  hard_pieces maxLen w = Normal l -> ink_of (List.concat l) = ink_of w.
Proof.
  destruct maxLen as [|p|p]; simpl; try lia.
  intros H. inversion H. apply dot_pieces_ink_of.
Qed.

Lemma pack_words_ink_of (words : list jsstring) :
  forall parts wBuf r,
    pack_words maxLen words parts wBuf = Normal r ->
    ink_of (List.concat (fst r)) ++ ink_of (snd r)
    = ink_of (List.concat parts) ++ ink_of wBuf ++ ink_of (List.concat words).
Proof.
  induction words as [|w rest IH]; intros parts wBuf r; cbn [pack_words].
  - intros H. inversion H. simpl. rewrite app_nil_r. reflexivity.
  - cbn [List.concat]. rewrite ink_of_app.
    destruct (fits (candidate wBuf (str " ") w) maxLen).
    { intros H. rewrite (IH _ _ _ H), ink_of_candidate by reflexivity.
      rewrite <- !app_assoc. reflexivity. }
    destruct (fits w maxLen).
    { intros H. rewrite (IH _ _ _ H), ink_of_push_if.
      rewrite <- !app_assoc. reflexivity. }
    destruct (hard_pieces maxLen w) as [l|e] eqn:Eh; cbn [bind]; [|discriminate].
    intros H. rewrite (IH _ _ _ H), concat_app, ink_of_app, ink_of_push_if.
    rewrite (hard_pieces_ink_of _ _ Eh). simpl. rewrite <- !app_assoc.
    reflexivity.
Qed.

Lemma pack_sentences_ink_of (ss : list jsstring) :
  forall parts sBuf r,
    pack_sentences maxLen ss parts sBuf = Normal r ->
    ink_of (List.concat (fst r)) ++ ink_of (snd r)
    = ink_of (List.concat parts) ++ ink_of sBuf ++ ink_of (List.concat ss).
Proof.
  induction ss as [|s rest IH]; intros parts sBuf r; cbn [pack_sentences].
  - intros H. inversion H. simpl. rewrite app_nil_r. reflexivity.
  - cbn [List.concat]. rewrite ink_of_app.
    destruct (fits (candidate sBuf (str " ") s) maxLen).
    { intros H. rewrite (IH _ _ _ H), ink_of_candidate by reflexivity.
      rewrite <- !app_assoc. reflexivity. }
    destruct (fits s maxLen).
    { intros H. rewrite (IH _ _ _ H), ink_of_push_if.
      rewrite <- !app_assoc. reflexivity. }
    destruct (pack_words maxLen (Re.split Re.spaces s) (push_if parts sBuf) [])
      as [rw|e] eqn:Ew; cbn [bind]; [|discriminate].
    intros H. rewrite (IH _ _ _ H), ink_of_push_if.
    rewrite (pack_words_ink_of _ _ _ _ Ew), ink_of_push_if.
    rewrite (split_ink_of _ s blank_spaces). simpl.
    rewrite <- !app_assoc. reflexivity.
Qed.

Lemma pack_paragraphs_ink_of (ps : list jsstring) :
  forall parts buffer r,
    pack_paragraphs maxLen ps parts buffer = Normal r ->
    ink_of (List.concat (fst r)) ++ ink_of (snd r)
    = ink_of (List.concat parts) ++ ink_of buffer ++ ink_of (List.concat ps).
Proof.
  induction ps as [|p rest IH]; intros parts buffer r; cbn [pack_paragraphs].
  - intros H. inversion H. simpl. rewrite app_nil_r. reflexivity.
  - cbn [List.concat]. rewrite ink_of_app.
    destruct (fits (candidate buffer [c_nl; c_nl] p) maxLen).
    { intros H. rewrite (IH _ _ _ H), ink_of_candidate by reflexivity.
      rewrite <- !app_assoc. reflexivity. }
    destruct (fits p maxLen).
    { intros H. rewrite (IH _ _ _ H), ink_of_push_if.
      rewrite <- !app_assoc. reflexivity. }
    destruct (pack_sentences maxLen (Re.split Re.sentence_gap p)
                (push_if parts buffer) []) as [rs|e] eqn:Es; cbn [bind];
      [|discriminate].
    intros H. rewrite (IH _ _ _ H), ink_of_push_if.
    rewrite (pack_sentences_ink_of _ _ _ _ Es), ink_of_push_if.
    rewrite (split_ink_of _ p blank_sentence_gap). simpl.
    rewrite <- !app_assoc. reflexivity.
Qed.

End InkIsKept.

(** X4.  With [maxLen >= 1] chunking loses no text and keeps its order:
    the code units that are not white space, read through the chunks one
    after the other, are exactly those of the input.  Only white space is
    dropped or replaced at the cuts and joins. *)
Theorem chunks_keep_the_text (text : jsstring) (maxLen : Z) :
  (1 <= maxLen)%Z ->
  exists parts,
    chunkForTelegram text maxLen = Normal parts
    /\ ink_of (List.concat parts) = ink_of text.
Proof.
  intros Hm. unfold chunkForTelegram.
  destruct (negb (truthy text) || fits text maxLen).
  - eexists. split; [reflexivity|]. simpl. rewrite app_nil_r. reflexivity.
  - assert (Hnz : maxLen <> 0%Z) by lia.
    destruct (@pack_paragraphs_normal maxLen (Re.split Re.newlines2 text) [] [] Hnz)
      as [r Hr].
    rewrite Hr. simpl. eexists. split; [reflexivity|].
    rewrite safety_ink_of, ink_of_push_if.
    rewrite (pack_paragraphs_ink_of maxLen Hm _ _ _ _ Hr).
    simpl. apply split_ink_of. apply blank_newlines2.
Qed.

Lemma chunks_keep_the_text_witness :
  exists parts,
    chunkForTelegram (str "Hello world. This is it! ok") 8 = Normal parts
    /\ ink_of (List.concat parts) = ink_of (str "Hello world. This is it! ok").
Proof.
  apply (chunks_keep_the_text (str "Hello world. This is it! ok") 8). lia.
Defined.

Section ZeroBudget.

Lemma hard_pieces_throw (maxLen : Z) (w : jsstring) (e : js_error) :
  hard_pieces maxLen w = Throw e -> e = SyntaxError.
Proof. destruct maxLen; simpl; intros H; inversion H; reflexivity. Qed.

Lemma pack_words_throw (maxLen : Z) (words : list jsstring) :
  forall parts wBuf e,
    pack_words maxLen words parts wBuf = Throw e -> e = SyntaxError.
Proof.
  induction words as [|w rest IH]; intros parts wBuf e; cbn [pack_words].
  - discriminate.
  - destruct (fits _ maxLen); [apply IH|].
    destruct (fits w maxLen); [apply IH|].
    destruct (hard_pieces maxLen w) as [l|e0] eqn:Eh; cbn [bind]; [apply IH|].
    intros H. inversion H. subst e0. eapply hard_pieces_throw. eassumption.
Qed.

Lemma pack_sentences_throw (maxLen : Z) (ss : list jsstring) :
  forall parts sBuf e,
    pack_sentences maxLen ss parts sBuf = Throw e -> e = SyntaxError.
Proof.
  induction ss as [|s rest IH]; intros parts sBuf e; cbn [pack_sentences].
  - discriminate.
  - destruct (fits _ maxLen); [apply IH|].
    destruct (fits s maxLen); [apply IH|].
    destruct (pack_words maxLen _ _ _) as [rw|e0] eqn:Ew; cbn [bind]; [apply IH|].
    intros H. inversion H. subst e0. eapply pack_words_throw. eassumption.
Qed.

Lemma inky_does_not_fit_zero (s : jsstring) :
  has_ink s = true -> fits s 0 = false.
Proof.
  intros H. destruct s as [|c s]; [discriminate|].
  unfold fits, len. apply Z.leb_gt. simpl List.length. lia.
Qed.

Let inky (p : jsstring) : Prop := has_ink p = true.

Lemma pack_words_zero (words : list jsstring) :
  Exists inky words ->
  forall parts wBuf, pack_words 0 words parts wBuf = Throw SyntaxError.
Proof.
  induction 1 as [w rest Hw|w rest Hrest IH]; intros parts wBuf;
    cbn [pack_words].
  - rewrite (inky_does_not_fit_zero _ (candidate_ink_unit wBuf (str " ") w Hw)).
    rewrite (inky_does_not_fit_zero _ Hw). reflexivity.
  - destruct (fits _ 0); [apply IH|].
    destruct (fits w 0); [apply IH|]. reflexivity.
Qed.

Lemma pack_sentences_zero (ss : list jsstring) :
  Exists inky ss ->
  forall parts sBuf, pack_sentences 0 ss parts sBuf = Throw SyntaxError.
Proof.
  induction 1 as [s rest Hs|s rest Hrest IH]; intros parts sBuf;
    cbn [pack_sentences].
  - rewrite (inky_does_not_fit_zero _ (candidate_ink_unit sBuf (str " ") s Hs)).
    rewrite (inky_does_not_fit_zero _ Hs).
    rewrite pack_words_zero; [reflexivity|].
    apply split_ink; [apply blank_spaces|assumption].
  - destruct (fits _ 0); [apply IH|].
    destruct (fits s 0); [apply IH|].
    destruct (pack_words 0 _ _ _) as [rw|e] eqn:Ew; cbn [bind]; [apply IH|].
    f_equal. eapply pack_words_throw. eassumption.
Qed.

Lemma pack_paragraphs_zero (ps : list jsstring) :
  Exists inky ps ->
  forall parts buffer, pack_paragraphs 0 ps parts buffer = Throw SyntaxError.
Proof.
  induction 1 as [p rest Hp|p rest Hrest IH]; intros parts buffer;
    cbn [pack_paragraphs].
  - rewrite (inky_does_not_fit_zero _
               (candidate_ink_unit buffer [c_nl; c_nl] p Hp)).
    rewrite (inky_does_not_fit_zero _ Hp).
    rewrite pack_sentences_zero; [reflexivity|].
    apply split_ink; [apply blank_sentence_gap|assumption].
  - destruct (fits _ 0); [apply IH|].
    destruct (fits p 0); [apply IH|].
    destruct (pack_sentences 0 _ _ _) as [rs|e] eqn:Es; cbn [bind]; [apply IH|].
    f_equal. eapply pack_sentences_throw. eassumption.
Qed.

End ZeroBudget.

(** X5.  With [maxLen = 0] every text that has a code unit other than
    white space makes the call throw a SyntaxError: some word reaches the
    hard slice, whose pattern [.{1,0}] is rejected. *)
Theorem zero_maxLen_throws (text : jsstring) :
  has_ink text = true -> chunkForTelegram text 0 = Throw SyntaxError.
Proof.
  intros H. unfold chunkForTelegram.
  rewrite (inky_does_not_fit_zero _ H), (has_ink_truthy _ H). cbn [negb orb].
  rewrite pack_paragraphs_zero; [reflexivity|].
  apply split_ink; [apply blank_newlines2|assumption].
Qed.

Lemma zero_maxLen_throws_witness :
  chunkForTelegram (str "two words") 0 = Throw SyntaxError.
Proof. apply (zero_maxLen_throws (str "two words")). reflexivity. Defined.

Section UnbrokenToken.

Lemma split_go_unbroken (m : Re.sep) (Hm : blank_sep m) (s : jsstring) :
  unbroken s = true ->
  forall prev cur, Re.split_go m prev s cur 0 = [rev cur ++ s].
Proof.
  induction s as [|c s IH]; intros Hs prev cur.
  - simpl. rewrite app_nil_r. reflexivity.
  - cbn [unbroken forallb] in Hs. apply andb_true_iff in Hs.
    destruct Hs as [Hc Hs]. cbn [Re.split_go].
    destruct (m prev (c :: s)) as [|k] eqn:Hmk.
    + rewrite (IH Hs). cbn [rev]. rewrite <- app_assoc. reflexivity.
    + pose proof (Hm prev (c :: s)) as Hb. rewrite Hmk in Hb.
      cbn [firstn forallb] in Hb. apply andb_true_iff in Hb.
      destruct Hb as [Hb _]. rewrite Hb in Hc. discriminate.
Qed.

Lemma split_unbroken (m : Re.sep) (s : jsstring) :
  blank_sep m -> unbroken s = true -> Re.split m s = [s].
Proof. intros Hm Hs. apply (split_go_unbroken m Hm s Hs None []). Qed.

Lemma unbroken_no_terminator (c : char16) :
  negb (is_space c) = true -> is_line_terminator c = false.
Proof.
  intros H. destruct (is_line_terminator c) eqn:E; [|reflexivity].
  rewrite (line_terminator_is_space _ E) in H. discriminate.
Qed.

Lemma dot_pieces_go_concat (n : nat) (s : jsstring) :
  unbroken s = true ->
  forall cur room,
    List.concat (Re.dot_pieces_go n s cur room) = rev cur ++ s.
Proof.
  induction s as [|c s IH]; intros Hs cur room.
  - cbn [Re.dot_pieces_go]. rewrite concat_emit, app_nil_r. reflexivity.
  - cbn [unbroken forallb] in Hs. apply andb_true_iff in Hs.
    destruct Hs as [Hc Hs]. cbn [Re.dot_pieces_go].
    rewrite (unbroken_no_terminator c Hc). destruct room as [|r].
    + rewrite concat_app, concat_emit, (IH Hs). reflexivity.
    + rewrite (IH Hs). cbn [rev]. rewrite <- app_assoc. reflexivity.
Qed.

Lemma dot_pieces_go_some (n : nat) (s : jsstring) :
  unbroken s = true ->
  forall cur room, cur <> [] -> Re.dot_pieces_go n s cur room <> [].
Proof.
  induction s as [|c s IH]; intros Hs cur room Hcur.
  - destruct cur; [congruence|discriminate].
  - cbn [unbroken forallb] in Hs. apply andb_true_iff in Hs.
    destruct Hs as [Hc Hs]. cbn [Re.dot_pieces_go].
    rewrite (unbroken_no_terminator c Hc). destruct room as [|r].
    + destruct cur; [congruence|discriminate].
    + apply (IH Hs). discriminate.
Qed.

(** All pieces but the last are full. *)
Lemma dot_pieces_go_full (n : nat) (s : jsstring) :
  unbroken s = true ->
  forall cur room,
    List.length cur + room = n -> 1 <= n ->
    Forall (fun p => List.length p = n)
           (removelast (Re.dot_pieces_go n s cur room)).
Proof.
  induction s as [|c s IH]; intros Hs cur room Hroom Hn.
  - destruct cur; simpl; constructor.
  - cbn [unbroken forallb] in Hs. apply andb_true_iff in Hs.
    destruct Hs as [Hc Hs]. cbn [Re.dot_pieces_go].
    rewrite (unbroken_no_terminator c Hc). destruct room as [|r].
    + destruct cur as [|c0 cur]; [simpl in Hroom; lia|].
      cbn [Re.emit app].
      assert (Hne : Re.dot_pieces_go n s [c] (n - 1) <> [])
        by (apply (dot_pieces_go_some n s Hs); discriminate).
      destruct (Re.dot_pieces_go n s [c] (n - 1)) as [|x xs] eqn:E;
        [congruence|].
      change (removelast (rev (c0 :: cur) :: x :: xs))
        with (rev (c0 :: cur) :: removelast (x :: xs)).
      constructor.
      * rewrite length_rev. lia.
      * rewrite <- E. apply (IH Hs). simpl. lia. assumption.
    + apply (IH Hs); [simpl; lia|assumption].
Qed.

Lemma safety_identity (l : list jsstring) :
  Forall (fun p => (len p <= MAX_TELEGRAM)%Z) l -> flat_map safety l = l.
Proof.
  induction 1 as [|p l Hp Hl IH]; [reflexivity|].
  cbn [flat_map]. rewrite IH. unfold safety.
  replace (fits p MAX_TELEGRAM) with true; [reflexivity|].
  symmetry. apply fits_len. assumption.
Qed.

(** The whole run on one token that is too long. *)
Lemma chunk_unbroken (text : jsstring) (p : positive) :
  unbroken text = true -> (Zpos p < len text)%Z ->
  chunkForTelegram text (Zpos p)
  = Normal (flat_map safety (Re.dot_pieces (Pos.to_nat p) text)).
Proof.
  intros Hu Hlen.
  assert (Hf : fits text (Zpos p) = false).
  { apply not_true_is_false. rewrite fits_len. lia. }
  assert (Ht : truthy text = true).
  { destruct text; [unfold len in Hlen; simpl in Hlen; lia|reflexivity]. }
  unfold chunkForTelegram. rewrite Hf, Ht. cbn [negb orb].
  rewrite (split_unbroken _ text blank_newlines2 Hu).
  cbn [pack_paragraphs candidate truthy]. rewrite Hf.
  rewrite (split_unbroken _ text blank_sentence_gap Hu).
  cbn [pack_sentences candidate truthy push_if]. rewrite Hf.
  rewrite (split_unbroken _ text blank_spaces Hu).
  cbn [pack_words candidate truthy push_if]. rewrite Hf.
  cbn [hard_pieces bind fst snd app pack_words pack_sentences pack_paragraphs].
  unfold push_if at 1. cbn [truthy].
  unfold push_if at 1. cbn [truthy].
  unfold push_if at 1. cbn [truthy]. reflexivity.
Qed.

End UnbrokenToken.

(** X6.  A text without white space that is longer than [maxLen], for
    [1 <= maxLen <= MAX_TELEGRAM], is cut into consecutive pieces of exactly
    [maxLen] code units, the last one possibly shorter: the chunks
    concatenate to the text and all but the last have length [maxLen]. *)
Theorem unbroken_token_is_sliced (text : jsstring) (maxLen : Z) :
  unbroken text = true ->
  (1 <= maxLen <= MAX_TELEGRAM)%Z -> (maxLen < len text)%Z ->
  exists parts,
    chunkForTelegram text maxLen = Normal parts
    /\ List.concat parts = text
    /\ Forall (fun p => len p = maxLen) (removelast parts)
    /\ parts <> [].
Proof.
  intros Hu [Hm1 Hm2] Hlen. destruct maxLen as [|p|p]; try lia.
  rewrite (chunk_unbroken text p Hu Hlen).
  assert (Hb : Forall (fun q => (len q <= MAX_TELEGRAM)%Z)
                      (Re.dot_pieces (Pos.to_nat p) text)).
  { eapply Forall_impl; [|apply (@dot_pieces_bound (Pos.to_nat p) text); lia].
    intros a [_ Ha]. unfold len, MAX_TELEGRAM in *. lia. }
  rewrite (safety_identity _ Hb).
  eexists. split; [reflexivity|]. unfold Re.dot_pieces. split; [|split].
  - rewrite (dot_pieces_go_concat _ text Hu). reflexivity.
  - eapply Forall_impl;
      [|apply (dot_pieces_go_full (Pos.to_nat p) text Hu [] (Pos.to_nat p));
        simpl; lia].
    intros a Ha. unfold len. cbn beta in Ha. rewrite Ha.
    apply positive_nat_Z.
  - intros E.
    pose proof (dot_pieces_go_concat (Pos.to_nat p) text Hu [] (Pos.to_nat p)) as C.
    rewrite E in C. simpl in C. subst text. unfold len in Hlen. simpl in Hlen. lia.
Qed.

Lemma unbroken_token_is_sliced_witness :
  exists parts,
    chunkForTelegram (a_x 25) 10 = Normal parts
    /\ List.concat parts = a_x 25
    /\ Forall (fun p => len p = 10%Z) (removelast parts)
    /\ parts <> [].
Proof.
  apply (unbroken_token_is_sliced (a_x 25) 10).
  - reflexivity.
  - unfold MAX_TELEGRAM. lia.
  - vm_compute. reflexivity.
Defined.

Section TwoParagraphs.

Lemma split_newlines_prev (s : jsstring) :
  forall prev prev' cur skip,
    Re.split_go Re.newlines2 prev s cur skip
    = Re.split_go Re.newlines2 prev' s cur skip.
Proof. induction s as [|c s IH]; intros prev prev' cur skip; reflexivity. Qed.

Lemma newlines2_quiet (prev : option char16) (c : char16) (s : jsstring) :
  c <> c_nl -> Re.newlines2 prev (c :: s) = 0.
Proof.
  intros Hc. unfold Re.newlines2. cbn [Re.run].
  destruct (N.eqb_spec c_nl c) as [E|_]; [congruence|reflexivity].
Qed.

Lemma split_newlines_copy (a rest : jsstring) :
  Forall (fun c => c <> c_nl) a ->
  forall prev cur,
    Re.split_go Re.newlines2 prev (a ++ rest) cur 0
    = Re.split_go Re.newlines2 None rest (rev a ++ cur) 0.
Proof.
  induction 1 as [|c a Hc Ha IH]; intros prev cur.
  - apply split_newlines_prev.
  - rewrite <- app_comm_cons. cbn [Re.split_go].
    rewrite (newlines2_quiet prev c (a ++ rest) Hc).
    rewrite IH. cbn [rev]. rewrite <- app_assoc. reflexivity.
Qed.

Lemma split_newlines_skip (a b : jsstring) :
  forall prev cur,
    Re.split_go Re.newlines2 prev (a ++ b) cur (List.length a)
    = Re.split_go Re.newlines2 None b cur 0.
Proof.
  induction a as [|c a IH]; intros prev cur.
  - apply split_newlines_prev.
  - simpl. apply IH.
Qed.

(** Two paragraphs and the run of newlines between them. *)
Lemma split_two_paragraphs (p1 p2 : jsstring) (k : nat) :
  Forall (fun c => c <> c_nl) p1 -> Forall (fun c => c <> c_nl) p2 ->
  p2 <> [] -> 2 <= k ->
  Re.split Re.newlines2 (p1 ++ repeat c_nl k ++ p2) = [p1; p2].
Proof.
  intros H1 H2 Hne Hk. unfold Re.split.
  rewrite (split_newlines_copy p1 _ H1). rewrite app_nil_r.
  destruct k as [|k]; [lia|]. cbn [repeat app Re.split_go].
  assert (Hrun : Re.run (N.eqb c_nl) (c_nl :: repeat c_nl k ++ p2) = S k).
  { destruct p2 as [|c2 p2']; [congruence|]. inversion H2 as [|x y Hc2 _]. subst.
    change (c_nl :: repeat c_nl k ++ c2 :: p2')
      with (repeat c_nl (S k) ++ c2 :: p2').
    rewrite run_stop.
    - apply repeat_length.
    - apply Forall_forall. intros x Hx. apply repeat_spec in Hx. subst x.
      apply N.eqb_refl.
    - destruct (N.eqb_spec c_nl c2); [congruence|reflexivity]. }
  unfold Re.newlines2 at 1. rewrite Hrun.
  replace (2 <=? S k) with true by (symmetry; apply Nat.leb_le; lia).
  rewrite rev_involutive. f_equal.
  replace k with (List.length (repeat c_nl k)) at 2 by apply repeat_length.
  rewrite split_newlines_skip.
  pose proof (split_newlines_copy p2 [] H2 None []) as Hc.
  rewrite !app_nil_r in Hc. rewrite Hc. simpl. rewrite rev_involutive.
  reflexivity.
Qed.

End TwoParagraphs.

(** X7.  Two non-empty paragraphs, each within [maxLen <= MAX_TELEGRAM],
    separated by two or more newlines, in a text longer than [maxLen]:
    they come back as one chunk joined by exactly two newlines when that
    fits, and as two chunks otherwise. *)
Theorem two_paragraphs (p1 p2 : jsstring) (k : nat) (maxLen : Z) :
  p1 <> [] -> p2 <> [] ->
  Forall (fun c => c <> c_nl) p1 -> Forall (fun c => c <> c_nl) p2 ->
  2 <= k ->
  (len p1 <= maxLen)%Z -> (len p2 <= maxLen)%Z ->
  (maxLen <= MAX_TELEGRAM)%Z ->
  (maxLen < len (p1 ++ repeat c_nl k ++ p2))%Z ->
  chunkForTelegram (p1 ++ repeat c_nl k ++ p2) maxLen
  = Normal (if fits (p1 ++ [c_nl; c_nl] ++ p2) maxLen
            then [p1 ++ [c_nl; c_nl] ++ p2]
            else [p1; p2]).
Proof.
  intros N1 N2 H1 H2 Hk L1 L2 Hcap Hlong.
  unfold chunkForTelegram.
  replace (fits (p1 ++ repeat c_nl k ++ p2) maxLen) with false
    by (symmetry; apply not_true_is_false; rewrite fits_len; lia).
  replace (truthy (p1 ++ repeat c_nl k ++ p2)) with true
    by (destruct p1; [congruence|reflexivity]).
  cbn [negb orb].
  rewrite (split_two_paragraphs p1 p2 k H1 H2 N2 Hk).
  assert (Tp1 : truthy p1 = true) by (destruct p1; [congruence|reflexivity]).
  assert (Tp2 : truthy p2 = true) by (destruct p2; [congruence|reflexivity]).
  assert (F1 : fits p1 maxLen = true) by (apply fits_len; assumption).
  assert (F2 : fits p2 maxLen = true) by (apply fits_len; assumption).
  assert (C1 : candidate [] [c_nl; c_nl] p1 = p1) by reflexivity.
  assert (C2 : candidate p1 [c_nl; c_nl] p2 = p1 ++ [c_nl; c_nl] ++ p2)
    by (unfold candidate; rewrite Tp1; reflexivity).
  cbn [pack_paragraphs]. rewrite C1, F1, C2.
  destruct (fits (p1 ++ [c_nl; c_nl] ++ p2) maxLen) eqn:Ef.
  - cbn [bind fst snd]. unfold push_if.
    replace (truthy (p1 ++ [c_nl; c_nl] ++ p2)) with true
      by (destruct p1; [congruence|reflexivity]).
    cbn [app flat_map]. unfold safety.
    replace (fits (p1 ++ c_nl :: c_nl :: p2) MAX_TELEGRAM) with true;
      [reflexivity|].
    symmetry. apply fits_len. apply fits_len in Ef. simpl app in Ef. lia.
  - rewrite F2. cbn [bind fst snd]. unfold push_if. rewrite Tp1, Tp2.
    cbn [app flat_map]. unfold safety.
    replace (fits p1 MAX_TELEGRAM) with true
      by (symmetry; apply fits_len; lia).
    replace (fits p2 MAX_TELEGRAM) with true
      by (symmetry; apply fits_len; lia).
    reflexivity.
Qed.

Lemma two_paragraphs_witness :
  chunkForTelegram (str "para1" ++ repeat c_nl 2 ++ str "para2") 10
  = Normal [str "para1"; str "para2"].
Proof.
  apply (two_paragraphs (str "para1") (str "para2") 2 10);
    try discriminate; try lia;
    try (repeat constructor; discriminate);
    try (vm_compute; intuition discriminate).
Defined.

(** * More on the escaper *)

(** X8.  [escapeMarkdownV2] works code unit by code unit: it distributes
    over concatenation, and the result is longer than the text by exactly
    the number of reserved code units, hence at most twice as long. *)
Theorem escape_length (a b : jsstring) :
  escapeMarkdownV2 (a ++ b) = escapeMarkdownV2 a ++ escapeMarkdownV2 b
  /\ List.length (escapeMarkdownV2 a)
     = List.length a + List.length (filter is_reserved a)
  /\ List.length (escapeMarkdownV2 a) <= 2 * List.length a.
Proof.
  split; [apply escapeMarkdownV2_app|].
  assert (H : List.length (escapeMarkdownV2 a)
              = List.length a + List.length (filter is_reserved a)).
  { rewrite escapeMarkdownV2_flat.
    induction a as [|c a IH]; [reflexivity|].
    cbn [flat_map filter]. rewrite length_app, IH. unfold escape_unit.
    destruct (is_reserved c); simpl; lia. }
  split; [assumption|]. rewrite H.
  pose proof (filter_length_le is_reserved a). lia.
Qed.

(** X9.  [escapeMarkdownV2] loses nothing: two texts with the same escaped
    form are equal. *)
Theorem escape_injective (a b : jsstring) :
  escapeMarkdownV2 a = escapeMarkdownV2 b -> a = b.
Proof.
  rewrite !escapeMarkdownV2_flat. revert b.
  induction a as [|x a IH]; intros b H.
  - destruct b as [|y b]; [reflexivity|].
    simpl in H. unfold escape_unit in H. destruct (is_reserved y); discriminate.
  - destruct b as [|y b].
    + simpl in H. unfold escape_unit in H. destruct (is_reserved x); discriminate.
    + cbn [flat_map] in H. unfold escape_unit in H at 1 3.
      destruct (is_reserved x) eqn:Ex, (is_reserved y) eqn:Ey;
        cbn [app] in H.
      * injection H as Hxy Hab. subst y. f_equal. apply IH. assumption.
      * injection H as Hy _. subst y. discriminate.
      * injection H as Hx _. subst x. discriminate.
      * injection H as Hxy Hab. subst y. f_equal. apply IH. assumption.
Qed.

Lemma escape_injective_witness : str "a.b" = str "a.b".
Proof. apply (escape_injective (str "a.b") (str "a.b")). reflexivity. Defined.

(** X10.  [escapeForUrl] puts a backslash before every [)] and every
    backslash and before nothing else: its result is an escaped
    destination, its length grows by the number of those two code units,
    and a url without them is returned unchanged. *)
Theorem url_escaping (u : jsstring) :
  url_escaped (escapeForUrl u)
  /\ List.length (escapeForUrl u)
     = List.length u
       + List.length (filter (fun c => mem c [ch ")"; ch "\"]) u)
  /\ (avoids [ch ")"; ch "\"] u = true -> escapeForUrl u = u).
Proof.
  split; [apply escapeForUrl_escaped|]. split.
  - unfold escapeForUrl. induction u as [|c u IH]; [reflexivity|].
    cbn [flat_map filter]. rewrite length_app, IH. unfold escape_url_unit.
    destruct (mem c [ch ")"; ch "\"]); simpl; lia.
  - unfold escapeForUrl, avoids. induction u as [|c u IH]; [reflexivity|].
    cbn [forallb flat_map]. intros H. apply andb_true_iff in H.
    destruct H as [Hc Hu]. rewrite (IH Hu). unfold escape_url_unit.
    apply negb_true_iff in Hc. rewrite Hc. reflexivity.
Qed.

Section PlainText.

Variable URL : jsstring -> completion jsstring.

(** From the text that the two normalisations produce to the result. *)
Lemma process_from_normalized (inputText text : jsstring) :
  inputText <> [] ->
  normalizeHeadings (normalizeCommonMd inputText) = text ->
  processMarkdownV2Safe URL inputText
  = (r <- SubstC.replace_at link_at (link_cb URL) None text 0 no_placeholders ;;
     Normal (restore_all (snd (extract_spans (fst r) (snd r)))
               (escapeMarkdownV2 (fst (extract_spans (fst r) (snd r)))))).
Proof.
  intros Hne Hn. unfold processMarkdownV2Safe, working_text.
  destruct inputText as [|c s]; [congruence|]. cbn [truthy negb].
  rewrite Hn.
  destruct (SubstC.replace_at link_at (link_cb URL) None text 0 no_placeholders)
    as [r|e]; [|reflexivity].
  cbn [bind]. destruct (extract_spans (fst r) (snd r)) as [t ph]. reflexivity.
Qed.

Lemma links_quiet (text : jsstring) (ph : placeholders) :
  ~ In (ch "[") text ->
  SubstC.replace_at link_at (link_cb URL) None text 0 ph = Normal (text, ph).
Proof.
  intros H.
  pose proof (@replace_links_copy _ (link_cb URL) text [] None ph H) as E.
  rewrite app_nil_r in E. rewrite E. simpl. rewrite app_nil_r. reflexivity.
Qed.

End PlainText.

(** X11.  A text without any of [* _ # [ |] has no markup to find: the
    result of [processMarkdownV2Safe] is the text escaped by
    [escapeMarkdownV2], whatever the URL constructor does. *)
Theorem plain_text_is_escaped (URL : jsstring -> completion jsstring)
    (inputText : jsstring) :
  avoids [ch "*"; ch "_"; ch "#"; ch "["; ch "|"] inputText = true ->
  processMarkdownV2Safe URL inputText = Normal (escapeMarkdownV2 inputText).
Proof.
  intros H.
  assert (N : forall c, In c [ch "*"; ch "_"; ch "#"; ch "["; ch "|"] ->
                        ~ In c inputText)
    by (intros c Hc; exact (@avoids_not_in _ inputText c H Hc)).
  destruct inputText as [|c0 s] eqn:E; [reflexivity|]. rewrite <- E in *.
  rewrite (process_from_normalized URL inputText inputText).
  - rewrite links_quiet by (apply N; simpl; tauto). cbn [bind fst snd].
    rewrite extract_spans_quiet by (apply N; simpl; tauto). reflexivity.
  - rewrite E. discriminate.
  - rewrite normalizeCommonMd_quiet by (apply N; simpl; tauto).
    apply normalizeHeadings_quiet. apply N. simpl. tauto.
Qed.

Lemma plain_text_is_escaped_witness :
  processMarkdownV2Safe URL_fragment (str "1+1=2. (ok!)")
  = Normal (str "1\+1\=2\. \(ok\!\)").
Proof.
  apply (plain_text_is_escaped URL_fragment (str "1+1=2. (ok!)")). reflexivity.
Defined.

(** * The escaper: one span in quiet text *)

Section FirstSpan.

Context {St : Type}.
Variable h : char16.
Variable d' : jsstring.
Variable min : nat.
Variable cb : St -> jsstring -> jsstring * St.

Local Abbreviation dl := (h :: d').
Local Abbreviation scan := (Subst.delim_go (h :: d') min cb).

(** Outside a span, text without the delimiter's first code unit is
    copied. *)
Lemma delim_go_copy (pre rest : jsstring) (st : St) :
  ~ In h pre ->
  scan (pre ++ rest) None 0 st
  = (pre ++ fst (scan rest None 0 st), snd (scan rest None 0 st)).
Proof.
  induction pre as [|c pre IH]; intros Hno.
  - simpl app. destruct (scan rest None 0 st). reflexivity.
  - rewrite <- app_comm_cons. cbn [Subst.delim_go].
    rewrite starts_with_head by (intros ->; apply Hno; left; reflexivity).
    rewrite IH by (intros Hin; apply Hno; right; assumption).
    reflexivity.
Qed.

Lemma delim_go_past_delimiter (rest : jsstring) (inner : option jsstring) (st : St) :
  Subst.delim_go dl min cb (d' ++ rest) inner (List.length dl - 1) st
  = scan rest inner 0 st.
Proof.
  replace (List.length dl - 1) with (List.length d') by (simpl; lia).
  apply delim_go_skip.
Qed.

(** Inside a span, the interior is collected up to the closing delimiter. *)
Lemma delim_go_collect (inner post : jsstring) :
  forall i st,
    ~ In h inner -> min <= List.length i + List.length inner ->
    scan (inner ++ dl ++ post) (Some i) 0 st
    = (fst (cb st (rev i ++ inner))
       ++ fst (scan post None 0 (snd (cb st (rev i ++ inner)))),
       snd (scan post None 0 (snd (cb st (rev i ++ inner))))).
Proof.
  induction inner as [|c inner IH]; intros i st Hno Hmin.
  - rewrite app_nil_l, app_nil_r. simpl in Hmin.
    rewrite <- app_comm_cons. cbn [Subst.delim_go].
    rewrite app_comm_cons, starts_with_app.
    replace (min <=? List.length i) with true
      by (symmetry; apply Nat.leb_le; lia).
    cbn [andb]. destruct (cb st (rev i)) as [r st1]. cbn [fst snd].
    rewrite delim_go_past_delimiter.
    destruct (scan post None 0 st1). reflexivity.
  - rewrite <- app_comm_cons. cbn [Subst.delim_go].
    rewrite starts_with_head by (intros ->; apply Hno; left; reflexivity).
    rewrite andb_false_r.
    rewrite IH.
    + cbn [rev]. rewrite <- !app_assoc. reflexivity.
    + intros Hin. apply Hno. right. assumption.
    + simpl in *. lia.
Qed.

(** The first span of a text: what precedes it is copied, the callback
    receives its interior, and the scan goes on behind it. *)
Lemma delim_go_first_span (pre inner post : jsstring) (st : St) :
  ~ In h pre -> ~ In h inner -> min <= List.length inner ->
  scan (pre ++ dl ++ inner ++ dl ++ post) None 0 st
  = (pre ++ fst (cb st inner) ++ fst (scan post None 0 (snd (cb st inner))),
     snd (scan post None 0 (snd (cb st inner)))).
Proof.
  intros Hpre Hin Hmin.
  rewrite delim_go_copy by assumption.
  assert (E : scan (dl ++ inner ++ dl ++ post) None 0 st
              = scan (inner ++ dl ++ post) (Some []) 0 st).
  { rewrite <- app_comm_cons. cbn [Subst.delim_go].
    rewrite app_comm_cons, starts_with_app.
    apply delim_go_past_delimiter. }
  rewrite E, delim_go_collect by (simpl; assumption || lia).
  reflexivity.
Qed.

(** With a span open and no closing delimiter to come, nothing matches. *)
Lemma delim_go_unclosed (s : jsstring) :
  forall i st,
    ~ In h s -> scan s (Some i) 0 st = (dl ++ rev i ++ s, st).
Proof.
  induction s as [|c s IH]; intros i st Hno.
  - simpl. rewrite app_nil_r. reflexivity.
  - cbn [Subst.delim_go].
    rewrite starts_with_head by (intros ->; apply Hno; left; reflexivity).
    rewrite andb_false_r.
    rewrite IH by (intros Hin; apply Hno; right; assumption).
    cbn [rev]. rewrite <- !app_assoc. reflexivity.
Qed.

(** A delimiter that is never closed is left in the text. *)
Lemma delim_go_lone (pre post : jsstring) (st : St) :
  ~ In h pre -> ~ In h post ->
  scan (pre ++ dl ++ post) None 0 st = (pre ++ dl ++ post, st).
Proof.
  intros Hpre Hpost. rewrite delim_go_copy by assumption.
  assert (E : scan (dl ++ post) None 0 st = scan post (Some []) 0 st).
  { rewrite <- app_comm_cons. cbn [Subst.delim_go].
    rewrite app_comm_cons, starts_with_app.
    apply delim_go_past_delimiter. }
  rewrite E, delim_go_unclosed by assumption. reflexivity.
Qed.

(** A text in which the delimiter does not occur has no span. *)
Lemma delim_go_absent (s : jsstring) (st : St) :
  includes dl s = false -> scan s None 0 st = (s, st).
Proof.
  induction s as [|c s IH]; intros Hno; [reflexivity|].
  cbn [includes] in Hno. apply orb_false_iff in Hno. destruct Hno as [H1 H2].
  cbn [Subst.delim_go]. rewrite H1, (IH H2). reflexivity.
Qed.

End FirstSpan.

Section DoubledUnit.

Variable h : char16.

Lemma includes_pair_app (a b : jsstring) :
  ~ In h a -> includes [h; h] (a ++ b) = includes [h; h] b.
Proof.
  induction a as [|c a IH]; intros Hno; [reflexivity|].
  rewrite <- app_comm_cons. cbn [includes].
  rewrite starts_with_head by (intros ->; apply Hno; left; reflexivity).
  apply IH. intros Hin. apply Hno. right. assumption.
Qed.

Lemma includes_pair_quiet (a : jsstring) :
  ~ In h a -> includes [h; h] a = false.
Proof.
  intros Hno. rewrite <- (app_nil_r a), includes_pair_app by assumption.
  reflexivity.
Qed.

(** One [h] followed by something else starts no pair. *)
Lemma includes_pair_single (b : jsstring) :
  ~ In h (firstn 1 b) -> includes [h; h] (h :: b) = includes [h; h] b.
Proof.
  intros Hno. cbn [includes]. 
  destruct b as [|c b]; [simpl; rewrite N.eqb_refl; reflexivity|].
  assert (Hc : c <> h) by (intros ->; apply Hno; left; reflexivity).
  cbn [Re.starts_with]. rewrite N.eqb_refl.
  destruct (N.eqb_spec h c); [congruence|]. reflexivity.
Qed.

(** A single [h ... h] span with a non-empty interior has no pair. *)
Lemma includes_pair_span (pre inner post : jsstring) :
  ~ In h pre -> ~ In h inner -> ~ In h post -> inner <> [] ->
  includes [h; h] (pre ++ [h] ++ inner ++ [h] ++ post) = false.
Proof.
  intros Hpre Hin Hpost Hne.
  rewrite includes_pair_app by assumption. cbn [app].
  rewrite includes_pair_single.
  - rewrite includes_pair_app by assumption.
    rewrite includes_pair_single.
    + apply includes_pair_quiet. assumption.
    + intros H. apply Hpost. destruct post; [destruct H|].
      simpl in H. destruct H as [H|[]]. left. assumption.
  - destruct inner as [|c inner']; [congruence|].
    simpl. intros [H|[]]. apply Hin. left. assumption.
Qed.

(** A single [h] has no pair either. *)
Lemma includes_pair_lone (pre post : jsstring) :
  ~ In h pre -> ~ In h post ->
  includes [h; h] (pre ++ [h] ++ post) = false.
Proof.
  intros Hpre Hpost.
  rewrite includes_pair_app by assumption. cbn [app].
  rewrite includes_pair_single.
  - apply includes_pair_quiet. assumption.
  - intros H. apply Hpost. destruct post; [destruct H|].
    simpl in H. destruct H as [H|[]]. left. assumption.
Qed.

End DoubledUnit.

Lemma normalizeCommonMd_absent (s : jsstring) :
  includes (str "**") s = false -> includes (str "__") s = false ->
  normalizeCommonMd s = s.
Proof.
  intros H1 H2. unfold normalizeCommonMd, Subst.replace_delim.
  change (str "**") with (ch "*" :: [ch "*"]) in *.
  change (str "__") with (ch "_" :: [ch "_"]) in *.
  rewrite (delim_go_absent (ch "*") [ch "*"] 0 _ s tt H1). simpl fst.
  rewrite (delim_go_absent (ch "_") [ch "_"] 0 _ s tt H2). reflexivity.
Qed.

Section OneSpan.

Variable URL : jsstring -> completion jsstring.
Variables pre inner post : jsstring.

Hypothesis pre_quiet : avoids markup_units pre = true.
Hypothesis post_quiet : avoids markup_units post = true.
Hypothesis inner_nonempty : inner <> [].
Hypothesis inner_quiet : avoids (ch "$" :: markup_units) inner = true.

Ltac quiet_parts :=
  repeat first
    [ apply not_in_app_intro
    | apply not_in_cons_intro; [discriminate|]
    | apply in_nil
    | apply escape_keeps_out; [discriminate|]
    | eapply avoids_not_in; [eassumption | simpl; tauto] ].

Lemma inner_length : 1 <= List.length inner.
Proof. destruct inner; [congruence|simpl; lia]. Qed.

Lemma token_0 (k : char16) : token k 0 = c_lbr :: [k; ch "0"; c_rbr].
Proof. reflexivity. Qed.

Lemma escape_token_0 (k : char16) :
  In k categories ->
  escapeMarkdownV2 (c_lbr :: [k; ch "0"; c_rbr]) = c_lbr :: [k; ch "0"; c_rbr].
Proof.
  intros [<-|[<-|[<-|[<-|[]]]]]; reflexivity.
Qed.

(** Putting one stored span back into the escaped text. *)
Lemma restore_one (k : char16) (md : jsstring) :
  In k categories -> ~ In (ch "$") md ->
  Subst.replace_first (token k 0) md
    (escapeMarkdownV2 (pre ++ token k 0 ++ post))
  = escapeMarkdownV2 pre ++ md ++ escapeMarkdownV2 post.
Proof.
  intros Hk Hmd. rewrite !escapeMarkdownV2_app, token_0.
  rewrite (escape_token_0 k Hk).
  apply replace_first_here; [|assumption]. quiet_parts.
Qed.

Lemma token_no_reserved (k : char16) (i : nat) (c : char16) :
  In k categories -> is_reserved c = true -> ~ In c (token k i).
Proof.
  intros Hk Hc Hin.
  pose proof (token_plain i Hk) as F. rewrite Forall_forall in F.
  specialize (F c Hin). congruence.
Qed.

Ltac quiet_token :=
  repeat first
    [ apply not_in_app_intro
    | apply token_no_reserved; [simpl; tauto|reflexivity]
    | eapply avoids_not_in; [eassumption | simpl; tauto] ].

Lemma bold_stage (ph : placeholders) :
  extract_spans (pre ++ str "*" ++ inner ++ str "*" ++ post) ph
  = (pre ++ token (ch "B") (List.length (bolds ph)) ++ post,
     mkPlaceholders (links ph)
       (bolds ph ++ [str "*" ++ escapeMarkdownV2 inner ++ str "*"])
       (italics ph) (spoilers ph)).
Proof.
  unfold extract_spans, Subst.replace_delim.
  change (str "*") with (ch "*" :: []).
  change (str "_") with (ch "_" :: []).
  change (str "||") with (ch "|" :: [ch "|"]).
  rewrite (delim_go_first_span (ch "*") [] 1 bold_cb pre inner post ph);
    [|quiet_parts|quiet_parts|apply inner_length].
  rewrite (@delim_go_quiet _ (ch "*") [] 1 _ post) by quiet_parts.
  unfold bold_cb. cbn [fst snd].
  rewrite (@delim_go_quiet _ (ch "_") [] 1) by quiet_token.
  rewrite (@delim_go_quiet _ (ch "|") [ch "|"] 1) by quiet_token.
  reflexivity.
Qed.

Lemma italic_stage (ph : placeholders) :
  extract_spans (pre ++ str "_" ++ inner ++ str "_" ++ post) ph
  = (pre ++ token (ch "I") (List.length (italics ph)) ++ post,
     mkPlaceholders (links ph) (bolds ph)
       (italics ph ++ [str "_" ++ escapeMarkdownV2 inner ++ str "_"])
       (spoilers ph)).
Proof.
  unfold extract_spans, Subst.replace_delim.
  change (str "*") with (ch "*" :: []).
  change (str "_") with (ch "_" :: []).
  change (str "||") with (ch "|" :: [ch "|"]).
  rewrite (@delim_go_quiet _ (ch "*") [] 1) by quiet_parts.
  rewrite (delim_go_first_span (ch "_") [] 1 italic_cb pre inner post ph);
    [|quiet_parts|quiet_parts|apply inner_length].
  rewrite (@delim_go_quiet _ (ch "_") [] 1 _ post) by quiet_parts.
  unfold italic_cb. cbn [fst snd].
  rewrite (@delim_go_quiet _ (ch "|") [ch "|"] 1) by quiet_token.
  reflexivity.
Qed.

Lemma spoiler_stage (ph : placeholders) :
  extract_spans (pre ++ str "||" ++ inner ++ str "||" ++ post) ph
  = (pre ++ token (ch "S") (List.length (spoilers ph)) ++ post,
     mkPlaceholders (links ph) (bolds ph) (italics ph)
       (spoilers ph ++ [str "||" ++ escapeMarkdownV2 inner ++ str "||"])).
Proof.
  unfold extract_spans, Subst.replace_delim.
  change (str "*") with (ch "*" :: []).
  change (str "_") with (ch "_" :: []).
  change (str "||") with (ch "|" :: [ch "|"]).
  rewrite (@delim_go_quiet _ (ch "*") [] 1) by quiet_parts.
  rewrite (@delim_go_quiet _ (ch "_") [] 1) by quiet_parts.
  rewrite (delim_go_first_span (ch "|") [ch "|"] 1 spoiler_cb pre inner post ph);
    [|quiet_parts|quiet_parts|apply inner_length].
  rewrite (@delim_go_quiet _ (ch "|") [ch "|"] 1 _ post) by quiet_parts.
  reflexivity.
Qed.

(** The text between the normalisations and the result, for one span of
    each kind. *)
Lemma bold_core (inputText : jsstring) :
  inputText <> [] ->
  normalizeHeadings (normalizeCommonMd inputText)
  = pre ++ str "*" ++ inner ++ str "*" ++ post ->
  processMarkdownV2Safe URL inputText
  = Normal (escapeMarkdownV2 pre ++ str "*" ++ escapeMarkdownV2 inner
            ++ str "*" ++ escapeMarkdownV2 post).
Proof.
  intros Hne Hn. rewrite (process_from_normalized URL inputText _ Hne Hn).
  rewrite links_quiet by quiet_parts. cbn [bind fst snd].
  rewrite bold_stage. cbn [fst snd]. f_equal.
  unfold restore_all, no_placeholders.
  cbn [links bolds italics spoilers app restore List.length].
  rewrite restore_one; [|simpl; tauto|quiet_parts].
  rewrite <- !app_assoc. reflexivity.
Qed.

Lemma italic_core (inputText : jsstring) :
  inputText <> [] ->
  normalizeHeadings (normalizeCommonMd inputText)
  = pre ++ str "_" ++ inner ++ str "_" ++ post ->
  processMarkdownV2Safe URL inputText
  = Normal (escapeMarkdownV2 pre ++ str "_" ++ escapeMarkdownV2 inner
            ++ str "_" ++ escapeMarkdownV2 post).
Proof.
  intros Hne Hn. rewrite (process_from_normalized URL inputText _ Hne Hn).
  rewrite links_quiet by quiet_parts. cbn [bind fst snd].
  rewrite italic_stage. cbn [fst snd]. f_equal.
  unfold restore_all, no_placeholders.
  cbn [links bolds italics spoilers app restore List.length].
  rewrite restore_one; [|simpl; tauto|quiet_parts].
  rewrite <- !app_assoc. reflexivity.
Qed.

Lemma spoiler_core (inputText : jsstring) :
  inputText <> [] ->
  normalizeHeadings (normalizeCommonMd inputText)
  = pre ++ str "||" ++ inner ++ str "||" ++ post ->
  processMarkdownV2Safe URL inputText
  = Normal (escapeMarkdownV2 pre ++ str "||" ++ escapeMarkdownV2 inner
            ++ str "||" ++ escapeMarkdownV2 post).
Proof.
  intros Hne Hn. rewrite (process_from_normalized URL inputText _ Hne Hn).
  rewrite links_quiet by quiet_parts. cbn [bind fst snd].
  rewrite spoiler_stage. cbn [fst snd]. f_equal.
  unfold restore_all, no_placeholders.
  cbn [links bolds italics spoilers app restore List.length].
  rewrite restore_one; [|simpl; tauto|quiet_parts].
  rewrite <- !app_assoc. reflexivity.
Qed.

End OneSpan.

Section SpanTheorems.

Variable URL : jsstring -> completion jsstring.
Variables pre inner post : jsstring.

Hypothesis pre_quiet : avoids markup_units pre = true.
Hypothesis post_quiet : avoids markup_units post = true.

Ltac quiet_parts :=
  repeat first
    [ apply not_in_app_intro
    | apply not_in_cons_intro; [discriminate|]
    | apply in_nil
    | eapply avoids_not_in; [eassumption | simpl; tauto] ].

Lemma unchanged_is_escaped (text : jsstring) :
  normalizeCommonMd text = text ->
  ~ In (ch "#") text -> ~ In (ch "[") text ->
  extract_spans text no_placeholders = (text, no_placeholders) ->
  processMarkdownV2Safe URL text = Normal (escapeMarkdownV2 text).
Proof.
  intros Hn Hh Hl He.
  destruct text as [|c0 s] eqn:E; [reflexivity|]. rewrite <- E in *.
  rewrite (process_from_normalized URL text text).
  - rewrite links_quiet by assumption. cbn [bind fst snd].
    rewrite He. reflexivity.
  - rewrite E. discriminate.
  - rewrite Hn. apply normalizeHeadings_quiet. assumption.
Qed.

Lemma lone_delimiter_cases (d : jsstring) :
  In d [str "*"; str "_"; str "|"; str "||"] ->
  processMarkdownV2Safe URL (pre ++ d ++ post)
  = Normal (escapeMarkdownV2 (pre ++ d ++ post)).
Proof.
  intros Hd. apply unchanged_is_escaped.
  - destruct Hd as [<-|[<-|[<-|[<-|[]]]]].
    + apply normalizeCommonMd_absent.
      * apply (includes_pair_lone (ch "*")); quiet_parts.
      * apply (includes_pair_quiet (ch "_")); quiet_parts.
    + apply normalizeCommonMd_absent.
      * apply (includes_pair_quiet (ch "*")); quiet_parts.
      * apply (includes_pair_lone (ch "_")); quiet_parts.
    + apply normalizeCommonMd_quiet; quiet_parts.
    + apply normalizeCommonMd_quiet; quiet_parts.
  - destruct Hd as [<-|[<-|[<-|[<-|[]]]]]; quiet_parts.
  - destruct Hd as [<-|[<-|[<-|[<-|[]]]]]; quiet_parts.
  - unfold extract_spans, Subst.replace_delim.
    change (str "*") with (ch "*" :: []) in *.
    change (str "_") with (ch "_" :: []) in *.
    change (str "||") with (ch "|" :: [ch "|"]) in *.
    change (str "|") with (ch "|" :: []) in *.
    destruct Hd as [<-|[<-|[<-|[<-|[]]]]].
    + rewrite (delim_go_lone (ch "*") [] 1) by quiet_parts.
      rewrite (@delim_go_quiet _ (ch "_") [] 1) by quiet_parts.
      rewrite (@delim_go_quiet _ (ch "|") [ch "|"] 1) by quiet_parts.
      reflexivity.
    + rewrite (@delim_go_quiet _ (ch "*") [] 1) by quiet_parts.
      rewrite (delim_go_lone (ch "_") [] 1) by quiet_parts.
      rewrite (@delim_go_quiet _ (ch "|") [ch "|"] 1) by quiet_parts.
      reflexivity.
    + rewrite (@delim_go_quiet _ (ch "*") [] 1) by quiet_parts.
      rewrite (@delim_go_quiet _ (ch "_") [] 1) by quiet_parts.
      rewrite (delim_go_absent (ch "|") [ch "|"] 1); [reflexivity|].
      apply (includes_pair_lone (ch "|")); quiet_parts.
    + rewrite (@delim_go_quiet _ (ch "*") [] 1) by quiet_parts.
      rewrite (@delim_go_quiet _ (ch "_") [] 1) by quiet_parts.
      rewrite (delim_go_lone (ch "|") [ch "|"] 1) by quiet_parts.
      reflexivity.
Qed.

Hypothesis inner_nonempty : inner <> [].
Hypothesis inner_quiet : avoids (ch "$" :: markup_units) inner = true.

Let span (d : jsstring) : jsstring := pre ++ d ++ inner ++ d ++ post.

Lemma span_nonempty (d : jsstring) : d <> [] -> span d <> [].
Proof.
  intros Hd H. unfold span in H. apply app_eq_nil in H. destruct H as [_ H].
  apply app_eq_nil in H. destruct H as [H _]. congruence.
Qed.

Lemma span_no_hash (d : jsstring) :
  In d [str "*"; str "_"; str "||"] -> normalizeHeadings (span d) = span d.
Proof.
  intros Hd. apply normalizeHeadings_quiet. unfold span.
  destruct Hd as [<-|[<-|[<-|[]]]]; quiet_parts.
Qed.

Lemma span_normal (d : jsstring) :
  In d [str "*"; str "_"; str "||"] -> normalizeCommonMd (span d) = span d.
Proof.
  intros Hd. unfold span. destruct Hd as [<-|[<-|[<-|[]]]].
  - apply normalizeCommonMd_absent.
    + apply (includes_pair_span (ch "*")); try assumption; quiet_parts.
    + apply (includes_pair_quiet (ch "_")); quiet_parts.
  - apply normalizeCommonMd_absent.
    + apply (includes_pair_quiet (ch "*")); quiet_parts.
    + apply (includes_pair_span (ch "_")); try assumption; quiet_parts.
  - apply normalizeCommonMd_quiet; quiet_parts.
Qed.

Lemma single_span_cases (d : jsstring) :
  In d [str "*"; str "_"; str "||"] ->
  processMarkdownV2Safe URL (span d)
  = Normal (escapeMarkdownV2 pre ++ d ++ escapeMarkdownV2 inner ++ d
            ++ escapeMarkdownV2 post).
Proof.
  intros Hd.
  assert (Hn : normalizeHeadings (normalizeCommonMd (span d)) = span d)
    by (rewrite (span_normal d Hd); apply span_no_hash; assumption).
  assert (Hne : span d <> [])
    by (apply span_nonempty; destruct Hd as [<-|[<-|[<-|[]]]]; discriminate).
  destruct Hd as [<-|[<-|[<-|[]]]].
  - apply bold_core; assumption.
  - apply italic_core; assumption.
  - apply spoiler_core; assumption.
Qed.

(** The doubled delimiters are rewritten to the single ones first. *)
Lemma doubled_normal (d2 d1 : jsstring) :
  In (d2, d1) [(str "**", str "*"); (str "__", str "_")] ->
  normalizeCommonMd (span d2) = span d1.
Proof.
  intros Hd. unfold span, normalizeCommonMd, Subst.replace_delim.
  change (str "**") with (ch "*" :: [ch "*"]) in *.
  change (str "__") with (ch "_" :: [ch "_"]) in *.
  destruct Hd as [E|[E|[]]]; injection E as <- <-.
  - rewrite (delim_go_first_span (ch "*") [ch "*"] 0);
      [|quiet_parts|quiet_parts|lia].
    rewrite (@delim_go_quiet _ (ch "*") [ch "*"] 0 _ post) by quiet_parts.
    cbn [fst snd].
    rewrite (@delim_go_quiet _ (ch "_") [ch "_"] 0) by quiet_parts.
    cbn [fst]. rewrite <- !app_assoc. reflexivity.
  - rewrite (@delim_go_quiet _ (ch "*") [ch "*"] 0) by quiet_parts.
    cbn [fst].
    rewrite (delim_go_first_span (ch "_") [ch "_"] 0);
      [|quiet_parts|quiet_parts|lia].
    rewrite (@delim_go_quiet _ (ch "_") [ch "_"] 0 _ post) by quiet_parts.
    cbn [fst snd]. rewrite <- !app_assoc. reflexivity.
Qed.

Lemma doubled_span_cases (d2 d1 : jsstring) :
  In (d2, d1) [(str "**", str "*"); (str "__", str "_")] ->
  processMarkdownV2Safe URL (span d2)
  = Normal (escapeMarkdownV2 pre ++ d1 ++ escapeMarkdownV2 inner ++ d1
            ++ escapeMarkdownV2 post).
Proof.
  intros Hd.
  assert (H1 : In d1 [str "*"; str "_"; str "||"])
    by (destruct Hd as [E|[E|[]]]; injection E as <- <-; simpl; tauto).
  assert (Hn : normalizeHeadings (normalizeCommonMd (span d2)) = span d1)
    by (rewrite (doubled_normal d2 d1 Hd); apply span_no_hash; assumption).
  assert (Hne : span d2 <> [])
    by (apply span_nonempty; destruct Hd as [E|[E|[]]]; injection E as <- <-;
        discriminate).
  destruct Hd as [E|[E|[]]]; injection E as <- <-.
  - apply bold_core; assumption.
  - apply italic_core; assumption.
Qed.

End SpanTheorems.

(** X12.  One bold, italic or spoiler span with a non-empty quiet interior,
    between quiet surroundings: the output keeps the two delimiters as
    markup and escapes the interior and the surroundings. *)
Theorem single_span_rendering (URL : jsstring -> completion jsstring)
    (d pre inner post : jsstring) :
  In d [str "*"; str "_"; str "||"] ->
  avoids markup_units pre = true ->
  avoids markup_units post = true ->
  inner <> [] ->
  avoids (ch "$" :: markup_units) inner = true ->
  processMarkdownV2Safe URL (pre ++ d ++ inner ++ d ++ post)
  = Normal (escapeMarkdownV2 pre ++ d ++ escapeMarkdownV2 inner ++ d
            ++ escapeMarkdownV2 post).
Proof.
  intros Hd Hpre Hpost Hne Hin.
  exact (single_span_cases URL pre inner post Hpre Hpost Hne Hin d Hd).
Qed.

Lemma single_span_rendering_witness :
  processMarkdownV2Safe URL_fragment (str "so ||a.b|| it is.")
  = Normal (str "so ||a\.b|| it is\.").
Proof.
  apply (single_span_rendering URL_fragment (str "||") (str "so ") (str "a.b")
           (str " it is."));
    [simpl; tauto|reflexivity|reflexivity|discriminate|reflexivity].
Defined.

(** X13.  The doubled delimiters of common Markdown are rewritten before
    anything else: a [**] span renders as the [*] span with the same
    interior, and a [__] span as the [_] span. *)
Theorem doubled_span_rendering (URL : jsstring -> completion jsstring)
    (d2 d1 pre inner post : jsstring) :
  In (d2, d1) [(str "**", str "*"); (str "__", str "_")] ->
  avoids markup_units pre = true ->
  avoids markup_units post = true ->
  inner <> [] ->
  avoids (ch "$" :: markup_units) inner = true ->
  processMarkdownV2Safe URL (pre ++ d2 ++ inner ++ d2 ++ post)
  = Normal (escapeMarkdownV2 pre ++ d1 ++ escapeMarkdownV2 inner ++ d1
            ++ escapeMarkdownV2 post).
Proof.
  intros Hd Hpre Hpost Hne Hin.
  exact (doubled_span_cases URL pre inner post Hpre Hpost Hne Hin d2 d1 Hd).
Qed.

Lemma doubled_span_rendering_witness :
  processMarkdownV2Safe URL_fragment (str "a **b-c** d!")
  = Normal (str "a *b\-c* d\!").
Proof.
  apply (doubled_span_rendering URL_fragment (str "**") (str "*") (str "a ")
           (str "b-c") (str " d!"));
    [simpl; tauto|reflexivity|reflexivity|discriminate|reflexivity].
Defined.

(** X14.  A delimiter that nothing closes is no markup: one [*], [_], [|]
    or [||] in quiet text is escaped with the rest of the text. *)
Theorem lone_delimiter_is_escaped (URL : jsstring -> completion jsstring)
    (d pre post : jsstring) :
  In d [str "*"; str "_"; str "|"; str "||"] ->
  avoids markup_units pre = true ->
  avoids markup_units post = true ->
  processMarkdownV2Safe URL (pre ++ d ++ post)
  = Normal (escapeMarkdownV2 (pre ++ d ++ post)).
Proof.
  intros Hd Hpre Hpost.
  exact (lone_delimiter_cases URL pre post Hpre Hpost d Hd).
Qed.

Lemma lone_delimiter_is_escaped_witness :
  processMarkdownV2Safe URL_fragment (str "2 * 3")
  = Normal (str "2 \* 3").
Proof.
  apply (lone_delimiter_is_escaped URL_fragment (str "*") (str "2 ") (str " 3"));
    [simpl; tauto|reflexivity|reflexivity].
Defined.

(** * The escaper: one heading line *)

Section HeadingLine.

Lemma run_inside (p : char16 -> bool) (a b : jsstring) :
  skipn (Re.run p a) a <> [] -> Re.run p (a ++ b) = Re.run p a.
Proof.
  induction a as [|c a IH]; intros H; [simpl in H; congruence|].
  simpl in *. destruct (p c); [|reflexivity].
  f_equal. apply IH. assumption.
Qed.

Lemma run_whole (p : char16 -> bool) (a : jsstring) :
  Forall (fun x => p x = true) a -> Re.run p a = List.length a.
Proof.
  induction 1 as [|x a Hx Ha IH]; simpl; [reflexivity|].
  rewrite Hx, IH. reflexivity.
Qed.

Lemma skipn_run_space (s : jsstring) :
  skipn (Re.run is_space s) s = Subst.trim_start s.
Proof.
  induction s as [|c s IH]; [reflexivity|].
  simpl. destruct (is_space c); [assumption|reflexivity].
Qed.

Lemma run_space_length (s : jsstring) :
  Re.run is_space s + List.length (Subst.trim_start s) = List.length s.
Proof.
  induction s as [|c s IH]; [reflexivity|].
  simpl. destruct (is_space c); simpl; lia.
Qed.

Lemma trim_start_ink (s : jsstring) :
  has_ink s = true -> Subst.trim_start s <> [].
Proof.
  induction s as [|c s IH]; simpl; [discriminate|].
  destruct (is_space c); simpl; [assumption|discriminate].
Qed.

Lemma trim_start_has_ink (s : jsstring) :
  has_ink (Subst.trim_start s) = has_ink s.
Proof.
  induction s as [|c s IH]; [reflexivity|].
  simpl. destruct (is_space c) eqn:E; simpl; [assumption|].
  rewrite E. reflexivity.
Qed.

Lemma trim_start_again (s : jsstring) :
  Subst.trim_start (Subst.trim_start s) = Subst.trim_start s.
Proof.
  induction s as [|c s IH]; [reflexivity|].
  simpl. destruct (is_space c) eqn:E; [assumption|].
  simpl. rewrite E. reflexivity.
Qed.

Lemma trim_ink (s : jsstring) : has_ink s = true -> Subst.trim s <> [].
Proof.
  intros H. unfold Subst.trim. intros E.
  apply (f_equal (@rev char16)) in E. rewrite rev_involutive in E.
  simpl in E. revert E. apply trim_start_ink.
  rewrite has_ink_rev, trim_start_has_ink. assumption.
Qed.

Lemma run_to_line_end (a post : jsstring) :
  one_line a = true -> line_end post = true ->
  Re.run (fun x => negb (is_line_terminator x)) (a ++ post) = List.length a.
Proof.
  intros Ha Hp.
  assert (F : Forall (fun x => negb (is_line_terminator x) = true) a).
  { apply Forall_forall. intros x Hx. unfold one_line in Ha.
    rewrite forallb_forall in Ha. auto. }
  destruct post as [|c post].
  - rewrite app_nil_r. apply run_whole. assumption.
  - apply run_stop; [assumption|]. simpl in Hp. rewrite Hp. reflexivity.
Qed.

Lemma one_line_trim_start (s : jsstring) :
  one_line s = true -> one_line (Subst.trim_start s) = true.
Proof.
  unfold one_line. rewrite !forallb_forall. intros H x Hx. apply H.
  clear H. induction s as [|c s IH]; [assumption|].
  simpl in Hx. destruct (is_space c); [right; auto|assumption].
Qed.

Variables (n : nat) (w : char16) (title post : jsstring).

Hypothesis level : 1 <= n <= 6.
Hypothesis gap : is_space w = true.
Hypothesis title_line : one_line title = true.
Hypothesis title_ink : has_ink title = true.
Hypothesis post_line : line_end post = true.

Lemma heading_at_match (prev : option char16) :
  match prev with None => true | Some c => is_line_terminator c end = true ->
  heading_at prev (repeat (ch "#") n ++ w :: title ++ post)
  = Some (Subst.trim_start title, n + S (List.length title)).
Proof.
  intros Hprev. unfold heading_at. rewrite Hprev.
  assert (Hw : N.eqb (ch "#") w = false).
  { destruct (N.eqb_spec (ch "#") w) as [E|]; [|reflexivity].
    subst w. discriminate. }
  assert (R : Re.run (N.eqb (ch "#")) (repeat (ch "#") n ++ w :: title ++ post) = n).
  { rewrite run_stop; [apply repeat_length| |assumption].
    apply Forall_forall. intros x Hx. apply repeat_spec in Hx. subst x.
    reflexivity. }
  rewrite R.
  replace ((1 <=? n) && (n <=? 6)) with true
    by (symmetry; apply andb_true_iff; split; apply Nat.leb_le; lia).
  assert (S1 : skipn n (repeat (ch "#") n ++ w :: title ++ post)
               = w :: title ++ post).
  { rewrite <- (repeat_length (ch "#") n) at 1. apply skipn_app_exact. }
  rewrite S1. cbn [Re.run]. rewrite gap. cbn [skipn].
  pose proof (trim_start_ink title title_ink) as Hink.
  rewrite run_inside by (rewrite skipn_run_space; assumption).
  pose proof (run_space_length title) as Hlen.
  assert (S2 : skipn (Re.run is_space title) (title ++ post)
               = Subst.trim_start title ++ post).
  { rewrite skipn_app, skipn_run_space.
    replace (Re.run is_space title - List.length title) with 0 by lia.
    reflexivity. }
  rewrite S2.
  rewrite run_to_line_end
    by (try apply one_line_trim_start; assumption).
  rewrite firstn_app_exact. f_equal. f_equal. lia.
Qed.

Lemma headings_copy {St : Type} (cb : St -> jsstring -> jsstring * St)
    (pre rest : jsstring) :
  forall prev st,
    ~ In (ch "#") pre ->
    Subst.replace_at heading_at cb prev (pre ++ rest) 0 st
    = (pre ++ fst (Subst.replace_at heading_at cb
                     (fold_left (fun _ c => Some c) pre prev) rest 0 st),
       snd (Subst.replace_at heading_at cb
              (fold_left (fun _ c => Some c) pre prev) rest 0 st)).
Proof.
  induction pre as [|c pre IH]; intros prev st Hno.
  - simpl. destruct (Subst.replace_at heading_at cb prev rest 0 st).
    reflexivity.
  - rewrite <- app_comm_cons. cbn [Subst.replace_at].
    rewrite heading_at_quiet by (intros ->; apply Hno; left; reflexivity).
    rewrite IH by (intros Hin; apply Hno; right; assumption).
    reflexivity.
Qed.

Lemma headings_skip_quiet {St : Type} (cb : St -> jsstring -> jsstring * St)
    (a b : jsstring) :
  forall prev st,
    ~ In (ch "#") b ->
    Subst.replace_at heading_at cb prev (a ++ b) (List.length a) st = (b, st).
Proof.
  induction a as [|c a IH]; intros prev st Hno.
  - apply normalizeHeadings_go_quiet. assumption.
  - simpl. apply IH. assumption.
Qed.

Lemma line_start_prev (pre : jsstring) :
  line_start pre = true ->
  match fold_left (fun _ c => Some c) pre None with
  | None => true
  | Some c => is_line_terminator c
  end = true.
Proof.
  unfold line_start. rewrite <- fold_left_rev_right.
  destruct (rev pre) as [|c r]; intros H; [reflexivity|exact H].
Qed.

Lemma heading_line_normal (pre : jsstring) :
  ~ In (ch "#") pre -> ~ In (ch "#") post -> line_start pre = true ->
  normalizeHeadings (pre ++ repeat (ch "#") n ++ w :: title ++ post)
  = pre ++ str "*" ++ Subst.trim title ++ str "*" ++ post.
Proof.
  intros Hpre Hpost Hstart. unfold normalizeHeadings.
  rewrite headings_copy by assumption. cbn [fst].
  f_equal.
  assert (R : repeat (ch "#") n = ch "#" :: repeat (ch "#") (n - 1)).
  { clear - level. destruct n as [|m]; [lia|].
    simpl. rewrite Nat.sub_0_r. reflexivity. }
  assert (E : repeat (ch "#") n ++ w :: title ++ post
              = ch "#" :: (repeat (ch "#") (n - 1) ++ w :: title) ++ post).
  { rewrite R. simpl. rewrite <- app_assoc. reflexivity. }
  pose proof (heading_at_match _ (line_start_prev pre Hstart)) as M.
  rewrite E in M. rewrite E. cbn [Subst.replace_at]. rewrite M.
  replace (n + S (List.length title))
    with (S (List.length (repeat (ch "#") (n - 1) ++ w :: title)))
    by (rewrite length_app, repeat_length; simpl; lia).
  rewrite headings_skip_quiet by assumption.
  cbn [fst]. unfold Subst.trim. rewrite trim_start_again.
  simpl. rewrite <- app_assoc. reflexivity.
Qed.

End HeadingLine.

Lemma avoids_trim (l : list char16) (s : jsstring) :
  avoids l s = true -> avoids l (Subst.trim s) = true.
Proof.
  unfold avoids. intros H. apply forallb_forall. apply Forall_forall.
  apply (trim_keep (fun c => negb (mem c l) = true)).
  apply Forall_forall. apply forallb_forall. assumption.
Qed.

Lemma space_not_in (c w : char16) (s : jsstring) :
  is_space c = false -> is_space w = true -> ~ In c s -> ~ In c (w :: s).
Proof.
  intros Hc Hw Hs [H|H]; [subst; congruence|tauto].
Qed.

Lemma not_in_repeat (c x : char16) (n : nat) : c <> x -> ~ In c (repeat x n).
Proof. intros Hc H. apply repeat_spec in H. congruence. Qed.

(** X15.  A heading line: one to six [#] at the start of a line, white
    space, and a quiet title that stays on the line.  The line renders as
    a bold span around the trimmed and escaped title; the [#] and the white
    space around the title are gone. *)
Theorem heading_rendering (URL : jsstring -> completion jsstring)
    (n : nat) (w : char16) (pre title post : jsstring) :
  1 <= n <= 6 ->
  is_space w = true ->
  avoids markup_units pre = true -> line_start pre = true ->
  avoids markup_units post = true -> line_end post = true ->
  avoids (ch "$" :: markup_units) title = true ->
  one_line title = true -> has_ink title = true ->
  processMarkdownV2Safe URL (pre ++ repeat (ch "#") n ++ w :: title ++ post)
  = Normal (escapeMarkdownV2 pre ++ str "*"
            ++ escapeMarkdownV2 (Subst.trim title) ++ str "*"
            ++ escapeMarkdownV2 post).
Proof.
  intros Hn Hw Hpre Hstart Hpost Hend Htitle Hline Hink.
  assert (Q : forall c, In c [ch "*"; ch "_"] ->
                ~ In c (pre ++ repeat (ch "#") n ++ w :: title ++ post)).
  { intros c Hc.
    assert (Hm : In c markup_units) by (simpl in *; tauto).
    apply not_in_app_intro; [exact (avoids_not_in _ _ c Hpre Hm)|].
    apply not_in_app_intro.
    { apply not_in_repeat. destruct Hc as [<-|[<-|[]]]; discriminate. }
    apply space_not_in; [destruct Hc as [<-|[<-|[]]]; reflexivity|assumption|].
    apply not_in_app_intro; [|exact (avoids_not_in _ _ c Hpost Hm)].
    apply (avoids_not_in _ _ c Htitle). right. assumption. }
  apply (bold_core URL pre (Subst.trim title) post Hpre Hpost).
  - apply trim_ink. assumption.
  - apply avoids_trim. assumption.
  - intros E. apply app_eq_nil in E. destruct E as [_ E].
    apply app_eq_nil in E. destruct E as [_ E]. discriminate.
  - rewrite normalizeCommonMd_quiet by (apply Q; simpl; tauto).
    apply heading_line_normal; try assumption.
    + apply (avoids_not_in _ _ _ Hpre). simpl. tauto.
    + apply (avoids_not_in _ _ _ Hpost). simpl. tauto.
Qed.

Lemma heading_rendering_witness :
  processMarkdownV2Safe URL_fragment
    (str "intro" ++ [c_nl] ++ str "##  Plan (v1.2) " ++ [c_nl] ++ str "text")
  = Normal (str "intro" ++ [c_nl] ++ str "*Plan \(v1\.2\)*" ++ [c_nl]
            ++ str "text").
Proof.
  apply (heading_rendering URL_fragment 2 (ch " ") (str "intro" ++ [c_nl])
           (str " Plan (v1.2) ") ([c_nl] ++ str "text"));
    solve [lia | reflexivity].
Defined.

(** * The escaper: destinations without a scheme *)

Section BareDomains.

Variable URL : jsstring -> completion jsstring.

Lemma domain_like_dot (raw : jsstring) :
  domain_like raw = true -> In (ch ".") raw.
Proof.
  unfold domain_like. intros H.
  apply andb_true_iff in H. destruct H as [H _].
  apply andb_true_iff in H. destruct H as [_ H].
  set (n := Re.run is_host_char raw) in *.
  set (host := rev (firstn n raw)) in *.
  set (b := Re.run is_alpha host) in *.
  assert (Hin : In (ch ".") (skipn b host)).
  { destruct (skipn b host) as [|c [|c2 r]]; try discriminate.
    apply N.eqb_eq in H. subst c. left. reflexivity. }
  assert (Hh : In (ch ".") host).
  { rewrite <- (firstn_skipn b host). apply in_or_app. right. assumption. }
  unfold host in Hh. apply in_rev in Hh.
  rewrite <- (firstn_skipn n raw). apply in_or_app. left. assumption.
Qed.

Lemma domain_like_shape (host tld tail : jsstring) :
  host <> [] ->
  forallb is_host_char host = true ->
  forallb is_alpha tld = true ->
  2 <= List.length tld ->
  match tail with
  | [] => true
  | c :: r => mem c [ch "/"; ch ":"; ch "?"; ch "#"] && one_line r
  end = true ->
  domain_like (host ++ ch "." :: tld ++ tail) = true.
Proof.
  intros Hne Hh Ht Hlen Htail.
  assert (Fh : Forall (fun x => is_host_char x = true) host)
    by (apply Forall_forall; rewrite forallb_forall in Hh; assumption).
  assert (Ft : Forall (fun x => is_alpha x = true) tld)
    by (apply Forall_forall; rewrite forallb_forall in Ht; assumption).
  set (hd := host ++ ch "." :: tld).
  assert (Fhd : Forall (fun x => is_host_char x = true) hd).
  { unfold hd. apply Forall_app. split; [assumption|].
    constructor; [reflexivity|].
    eapply Forall_impl; [|exact Ft]. intros x Hx. cbn beta.
    unfold is_host_char. rewrite Hx. reflexivity. }
  assert (E : host ++ ch "." :: tld ++ tail = hd ++ tail)
    by (unfold hd; rewrite <- app_assoc; reflexivity).
  assert (R : Re.run is_host_char (hd ++ tail) = List.length hd).
  { destruct tail as [|c r].
    - rewrite app_nil_r. apply run_whole. assumption.
    - apply run_stop; [assumption|].
      apply andb_true_iff in Htail. destruct Htail as [Hc _].
      unfold mem in Hc. simpl in Hc. rewrite orb_false_r in Hc.
      repeat (apply orb_true_iff in Hc; destruct Hc as [Hc|Hc];
              [apply N.eqb_eq in Hc; subst c; reflexivity|]).
      apply N.eqb_eq in Hc. subst c. reflexivity. }
  unfold domain_like. rewrite E, R, firstn_app_exact, skipn_app_exact.
  assert (Rv : rev hd = rev tld ++ ch "." :: rev host).
  { unfold hd. rewrite rev_app_distr. simpl. rewrite <- app_assoc. reflexivity. }
  rewrite Rv.
  rewrite run_stop;
    [|apply Forall_rev_keep; assumption|reflexivity].
  rewrite skipn_app_exact, length_rev.
  replace (2 <=? List.length tld) with true
    by (symmetry; apply Nat.leb_le; assumption).
  destruct (rev host) as [|c r] eqn:Er.
  { apply (f_equal (@rev char16)) in Er. rewrite rev_involutive in Er.
    simpl in Er. congruence. }
  cbn [andb]. rewrite N.eqb_refl. cbn [andb].
  destruct tail as [|c0 r0]; [reflexivity|]. exact Htail.
Qed.

End BareDomains.

(** X16.  A destination that the URL constructor refuses and that has no
    dot is no domain either: [normalizeAndValidateUrl] gives [null]. *)
Theorem dotless_destination_is_rejected (URL : jsstring -> completion jsstring)
    (url : jsstring) (e : js_error) :
  URL (Subst.trim url) = Throw e ->
  ~ In (ch ".") (Subst.trim url) ->
  normalizeAndValidateUrl URL url = Normal None.
Proof.
  intros Hu Hdot. unfold normalizeAndValidateUrl. cbv zeta.
  rewrite Hu. cbn [bind SubstC.try_return].
  destruct (domain_like (Subst.trim url)) eqn:E; [|reflexivity].
  exfalso. apply Hdot. apply domain_like_dot. assumption.
Qed.

Lemma dotless_destination_is_rejected_witness :
  normalizeAndValidateUrl URL_fragment (str " not a url ") = Normal None.
Proof.
  apply (dotless_destination_is_rejected URL_fragment (str " not a url ")
           TypeError); [reflexivity|].
  vm_compute. intuition discriminate.
Defined.

(** X17.  A destination without a scheme that looks like a domain (a host
    of letters, digits, dots and hyphens, a dot, two or more letters, and
    possibly a tail on one line opened by one of [/ : ? #]) is tried again
    behind [https://]: the result is what the URL constructor makes of
    that, or [null] where it refuses that too. *)
Theorem bare_domain_gets_https (URL : jsstring -> completion jsstring)
    (url host tld tail : jsstring) (e : js_error) :
  Subst.trim url = host ++ ch "." :: tld ++ tail ->
  URL (Subst.trim url) = Throw e ->
  host <> [] ->
  forallb is_host_char host = true ->
  forallb is_alpha tld = true ->
  2 <= List.length tld ->
  match tail with
  | [] => true
  | c :: r => mem c [ch "/"; ch ":"; ch "?"; ch "#"] && one_line r
  end = true ->
  normalizeAndValidateUrl URL url
  = Normal match URL (str "https://" ++ Subst.trim url) with
           | Normal u => Some u
           | Throw _ => None
           end.
Proof.
  intros Hraw Hu Hne Hh Ht Hlen Htail.
  unfold normalizeAndValidateUrl. cbv zeta.
  rewrite Hu. cbn [bind SubstC.try_return].
  rewrite Hraw at 1.
  rewrite (domain_like_shape host tld tail Hne Hh Ht Hlen Htail).
  destruct (URL (str "https://" ++ Subst.trim url)); reflexivity.
Qed.

Lemma bare_domain_gets_https_witness :
  normalizeAndValidateUrl URL_fragment (str " example.com/x ")
  = Normal (Some (str "https://example.com/x")).
Proof.
  apply (bare_domain_gets_https URL_fragment (str " example.com/x ")
           (str "example") (str "com") (str "/x") TypeError);
    solve [reflexivity | discriminate | simpl; lia].
Defined.

(** * The segmenter: two words *)

Section TwoWords.

Local Abbreviation step := (fun (_ : option char16) (c : char16) => Some c).

Lemma split_go_copy_ink (m : Re.sep) (a rest : jsstring) :
  (forall prev c s, is_space c = false -> m prev (c :: s) = 0) ->
  unbroken a = true ->
  forall prev cur,
    Re.split_go m prev (a ++ rest) cur 0
    = Re.split_go m (fold_left step a prev) rest (rev a ++ cur) 0.
Proof.
  intros Hm. induction a as [|c a IH]; intros Ha prev cur; [reflexivity|].
  simpl in Ha. apply andb_true_iff in Ha. destruct Ha as [Hc Ha].
  apply negb_true_iff in Hc.
  rewrite <- app_comm_cons. cbn [Re.split_go]. rewrite (Hm prev c _ Hc).
  rewrite (IH Ha). cbn [rev fold_left]. rewrite <- app_assoc. reflexivity.
Qed.

Lemma split_go_ink_end (m : Re.sep) (a : jsstring) :
  (forall prev c s, is_space c = false -> m prev (c :: s) = 0) ->
  unbroken a = true ->
  forall prev cur, Re.split_go m prev a cur 0 = [rev cur ++ a].
Proof.
  intros Hm Ha prev cur.
  pose proof (split_go_copy_ink m a [] Hm Ha prev cur) as H.
  rewrite app_nil_r in H. rewrite H. simpl.
  rewrite rev_app_distr, rev_involutive. reflexivity.
Qed.

Lemma split_go_skip (m : Re.sep) (a b : jsstring) :
  forall prev cur,
    Re.split_go m prev (a ++ b) cur (List.length a)
    = Re.split_go m (fold_left step a prev) b cur 0.
Proof.
  induction a as [|c a IH]; intros prev cur; [reflexivity|].
  simpl. apply IH.
Qed.

Lemma spaces_ink (prev : option char16) (c : char16) (s : jsstring) :
  is_space c = false -> Re.spaces prev (c :: s) = 0.
Proof. intros H. unfold Re.spaces. simpl. rewrite H. reflexivity. Qed.

Lemma sentence_gap_ink (prev : option char16) (c : char16) (s : jsstring) :
  is_space c = false -> Re.sentence_gap prev (c :: s) = 0.
Proof.
  intros H. unfold Re.sentence_gap. cbn [Re.run]. rewrite H.
  destruct prev as [p|]; [destruct (Re.is_sentence_end p)|]; reflexivity.
Qed.

Lemma space_no_sentence_end (c : char16) :
  is_space c = true -> Re.is_sentence_end c = false.
Proof.
  intros H. destruct (Re.is_sentence_end c) eqn:E; [|reflexivity].
  unfold Re.is_sentence_end, mem in E. simpl in E. rewrite orb_false_r in E.
  repeat (apply orb_true_iff in E; destruct E as [E|E];
          [apply N.eqb_eq in E; subst c; discriminate|]).
  apply N.eqb_eq in E. subst c. discriminate.
Qed.

(** White space that does not follow the end of a sentence is no gap. *)
Lemma sentence_gap_copy_blank (ws rest : jsstring) :
  forallb is_space ws = true ->
  forall prev cur,
    match prev with Some p => Re.is_sentence_end p | None => false end = false ->
    Re.split_go Re.sentence_gap prev (ws ++ rest) cur 0
    = Re.split_go Re.sentence_gap (fold_left step ws prev) rest (rev ws ++ cur) 0.
Proof.
  induction ws as [|c ws IH]; intros Hws prev cur Hprev; [reflexivity|].
  simpl in Hws. apply andb_true_iff in Hws. destruct Hws as [Hc Hws].
  rewrite <- app_comm_cons. cbn [Re.split_go].
  assert (G : Re.sentence_gap prev (c :: ws ++ rest) = 0).
  { unfold Re.sentence_gap. destruct prev as [p|]; [|reflexivity].
    rewrite Hprev. reflexivity. }
  rewrite G, (IH Hws); [|apply space_no_sentence_end; assumption].
  cbn [rev fold_left]. rewrite <- app_assoc. reflexivity.
Qed.

Variables w1 ws w2 : jsstring.

Hypothesis w2_nonempty : w2 <> [].
Hypothesis ws_nonempty : ws <> [].
Hypothesis w1_ink : unbroken w1 = true.
Hypothesis w2_ink : unbroken w2 = true.
Hypothesis ws_blank : forallb is_space ws = true.

Lemma blank_run : Re.run is_space (ws ++ w2) = List.length ws.
Proof.
  destruct w2 as [|c2 r2] eqn:E; [congruence|].
  apply run_stop.
  - apply Forall_forall. rewrite forallb_forall in ws_blank. assumption.
  - simpl in w2_ink. apply andb_true_iff in w2_ink.
    destruct w2_ink as [H _]. apply negb_true_iff. assumption.
Qed.

Lemma split_tail (m : Re.sep) (prev : option char16) :
  (forall prev c s, is_space c = false -> m prev (c :: s) = 0) ->
  Re.split_go m prev w2 [] 0 = [w2].
Proof.
  intros Hm. apply (split_go_ink_end m w2 Hm w2_ink prev []).
Qed.

(** A separator that matches the run of white space between the two
    words, and nothing inside them, splits the text into the two. *)
Lemma split_at_blank (m : Re.sep) :
  (forall prev c s, is_space c = false -> m prev (c :: s) = 0) ->
  m (fold_left step w1 None) (ws ++ w2) = List.length ws ->
  Re.split m (w1 ++ ws ++ w2) = [w1; w2].
Proof.
  intros Hm Hgap. unfold Re.split.
  rewrite (split_go_copy_ink m w1 _ Hm w1_ink). rewrite app_nil_r.
  destruct ws as [|s0 ws'] eqn:E; [congruence|].
  rewrite <- app_comm_cons in *. cbn [Re.split_go]. rewrite Hgap.
  cbn [List.length]. rewrite rev_involutive. f_equal.
  rewrite split_go_skip. apply split_tail. assumption.
Qed.

Lemma split_words : Re.split Re.spaces (w1 ++ ws ++ w2) = [w1; w2].
Proof. apply split_at_blank; [exact spaces_ink|apply blank_run]. Qed.

Lemma split_sentences_end :
  match fold_left step w1 None with
  | Some p => Re.is_sentence_end p
  | None => false
  end = true ->
  Re.split Re.sentence_gap (w1 ++ ws ++ w2) = [w1; w2].
Proof.
  intros H. apply split_at_blank; [exact sentence_gap_ink|].
  unfold Re.sentence_gap. destruct (fold_left step w1 None) as [p|];
    [|discriminate].
  rewrite H, blank_run, skipn_app_exact.
  destruct w2; [congruence|reflexivity].
Qed.

Lemma split_sentences_none :
  match fold_left step w1 None with
  | Some p => Re.is_sentence_end p
  | None => false
  end = false ->
  Re.split Re.sentence_gap (w1 ++ ws ++ w2) = [w1 ++ ws ++ w2].
Proof.
  intros H. unfold Re.split.
  rewrite (split_go_copy_ink Re.sentence_gap w1 _ sentence_gap_ink w1_ink).
  rewrite (sentence_gap_copy_blank ws w2 ws_blank _ _ H).
  rewrite (split_go_ink_end Re.sentence_gap w2 sentence_gap_ink w2_ink).
  rewrite app_nil_r, rev_app_distr, !rev_involutive, <- app_assoc.
  reflexivity.
Qed.

Lemma split_paragraph :
  ~ In c_nl ws -> Re.split Re.newlines2 (w1 ++ ws ++ w2) = [w1 ++ ws ++ w2].
Proof.
  intros Hnl.
  assert (U : forall w, unbroken w = true -> Forall (fun c => c <> c_nl) w).
  { intros w Hw. apply Forall_forall. intros c Hc ->.
    unfold unbroken in Hw. rewrite forallb_forall in Hw.
    specialize (Hw _ Hc). discriminate. }
  assert (F : Forall (fun c => c <> c_nl) (w1 ++ ws ++ w2)).
  { apply Forall_app. split; [auto|]. apply Forall_app. split; [|auto].
    apply Forall_forall. intros c Hc ->. contradiction. }
  unfold Re.split.
  pose proof (split_newlines_copy (w1 ++ ws ++ w2) [] F None []) as Hc.
  rewrite !app_nil_r in Hc. rewrite Hc. simpl. rewrite rev_involutive.
  reflexivity.
Qed.

End TwoWords.

(** X18.  Two words, each within [maxLen <= MAX_TELEGRAM], separated by
    white space without a newline, in a text longer than [maxLen]: they
    come back as one chunk joined by a single space when that fits, and as
    two chunks otherwise, whether or not the first word ends a sentence.
    The white space between them is not kept. *)
Theorem two_words (w1 ws w2 : jsstring) (maxLen : Z) :
  w1 <> [] -> w2 <> [] -> ws <> [] ->
  unbroken w1 = true -> unbroken w2 = true ->
  forallb is_space ws = true -> ~ In c_nl ws ->
  (len w1 <= maxLen)%Z -> (len w2 <= maxLen)%Z ->
  (maxLen <= MAX_TELEGRAM)%Z ->
  (maxLen < len (w1 ++ ws ++ w2))%Z ->
  chunkForTelegram (w1 ++ ws ++ w2) maxLen
  = Normal (if fits (w1 ++ str " " ++ w2) maxLen
            then [w1 ++ str " " ++ w2]
            else [w1; w2]).
Proof.
  intros N1 N2 Ns U1 U2 Hws Hnl L1 L2 Hcap Hlong.
  set (text := w1 ++ ws ++ w2) in *.
  assert (Tt : truthy text = true)
    by (unfold text; destruct w1; [congruence|reflexivity]).
  assert (Ft : fits text maxLen = false)
    by (apply not_true_is_false; rewrite fits_len; lia).
  assert (T1 : truthy w1 = true) by (destruct w1; [congruence|reflexivity]).
  assert (T2 : truthy w2 = true) by (destruct w2; [congruence|reflexivity]).
  assert (F1 : fits w1 maxLen = true) by (apply fits_len; assumption).
  assert (F2 : fits w2 maxLen = true) by (apply fits_len; assumption).
  assert (C1 : candidate [] (str " ") w1 = w1) by reflexivity.
  assert (C2 : candidate w1 (str " ") w2 = w1 ++ str " " ++ w2)
    by (unfold candidate; rewrite T1; reflexivity).
  assert (Tj : truthy (w1 ++ str " " ++ w2) = true)
    by (destruct w1; [congruence|reflexivity]).
  (* the two words packed with a single space, at either level *)
  assert (Pw : pack_words maxLen [w1; w2] [] []
               = Normal (if fits (w1 ++ str " " ++ w2) maxLen
                         then ([], w1 ++ str " " ++ w2) else ([w1], w2))).
  { cbn [pack_words]. rewrite C1, F1, C2.
    destruct (fits (w1 ++ str " " ++ w2) maxLen); [reflexivity|].
    rewrite F2. unfold push_if. rewrite T1. reflexivity. }
  assert (Ps : pack_sentences maxLen [w1; w2] [] []
               = Normal (if fits (w1 ++ str " " ++ w2) maxLen
                         then ([], w1 ++ str " " ++ w2) else ([w1], w2))).
  { cbn [pack_sentences]. rewrite C1, F1, C2.
    destruct (fits (w1 ++ str " " ++ w2) maxLen); [reflexivity|].
    rewrite F2. unfold push_if. rewrite T1. reflexivity. }
  assert (Pu : forall r,
             r = (if fits (w1 ++ str " " ++ w2) maxLen
                  then ([], w1 ++ str " " ++ w2) else ([w1], w2)) ->
             push_if (fst r) (snd r)
             = (if fits (w1 ++ str " " ++ w2) maxLen
                then [w1 ++ str " " ++ w2] else [w1; w2])).
  { intros r ->. destruct (fits (w1 ++ str " " ++ w2) maxLen);
      cbn [fst snd]; unfold push_if; rewrite ?Tj, ?T2; reflexivity. }
  assert (Pp : exists r,
             pack_sentences maxLen (Re.split Re.sentence_gap text) [] []
             = Normal r
             /\ push_if (fst r) (snd r)
                = (if fits (w1 ++ str " " ++ w2) maxLen
                   then [w1 ++ str " " ++ w2] else [w1; w2])).
  { destruct (match fold_left (fun _ c => Some c) w1 None with
              | Some p => Re.is_sentence_end p
              | None => false
              end) eqn:Ee.
    - unfold text. rewrite (split_sentences_end w1 ws w2 N2 Ns U1 U2 Hws Ee).
      eexists. split; [exact Ps|]. apply Pu. reflexivity.
    - unfold text. rewrite (split_sentences_none w1 ws w2 U1 U2 Hws Ee).
      fold text. cbn [pack_sentences].
      change (candidate [] (str " ") text) with text. rewrite Ft.
      unfold text at 1. rewrite (split_words w1 ws w2 N2 Ns U1 U2 Hws).
      change (push_if [] []) with (@nil jsstring). rewrite Pw.
      cbn [bind]. eexists. split; [reflexivity|].
      cbn [fst snd]. unfold push_if at 1. cbn [truthy].
      apply Pu. reflexivity. }
  destruct Pp as (r & Pr & Er).
  unfold chunkForTelegram. fold text. rewrite Tt, Ft. cbn [negb orb].
  unfold text at 1. rewrite (split_paragraph w1 ws w2 U1 U2 Hnl). fold text.
  cbn [pack_paragraphs].
  change (candidate [] [c_nl; c_nl] text) with text. rewrite Ft.
  change (push_if [] []) with (@nil jsstring). rewrite Pr.
  cbn [bind fst snd]. rewrite Er.
  unfold push_if at 1. cbn [truthy]. apply f_equal. apply safety_identity.
  destruct (fits (w1 ++ str " " ++ w2) maxLen) eqn:Ef.
  - constructor; [|constructor]. apply fits_len in Ef. lia.
  - constructor; [lia|]. constructor; [lia|constructor].
Qed.

Lemma two_words_witness :
  chunkForTelegram (str "Done.    Next") 10 = Normal [str "Done. Next"].
Proof.
  apply (two_words (str "Done.") (str "    ") (str "Next") 10);
    solve [discriminate | reflexivity | vm_compute; intuition discriminate
          | vm_compute; discriminate].
Defined.

(** * The escaper: a link whose url does not parse *)

Section UnparseableLink.

Variable URL : jsstring -> completion jsstring.
Variables pre label url post : jsstring.

Hypothesis pre_quiet : avoids markup_units pre = true.
Hypothesis post_quiet : avoids markup_units post = true.
Hypothesis label_nonempty : label <> [].
Hypothesis label_quiet :
  avoids [ch "]"; c_nl; ch "*"; ch "_"; ch "#"; ch "|"] label = true.
Hypothesis url_nonempty : url <> [].
Hypothesis url_quiet : avoids [ch ")"; ch "*"; ch "_"; ch "#"] url = true.

Let input : jsstring :=
  pre ++ ch "[" :: label ++ ch "]" :: ch "(" :: url ++ ch ")" :: post.

Ltac not_in_parts :=
  repeat first
    [ apply not_in_app_intro
    | apply not_in_cons_intro; [discriminate|]
    | apply in_nil
    | apply escape_keeps_out; [discriminate|]
    | eapply avoids_not_in; [eassumption | simpl; tauto] ].

(** The callback hands back the escaped label, and the global pass
    escapes the whole working text, that label included. *)
Lemma rendering_unparseable (r : option jsstring) :
  normalizeAndValidateUrl URL url = Normal r ->
  r = None \/ r = Some [] ->
  processMarkdownV2Safe URL input
  = Normal (escapeMarkdownV2 pre ++ escapeMarkdownV2 (escapeMarkdownV2 label)
            ++ escapeMarkdownV2 post).
Proof.
  intros Hn Hr.
  assert (Hne : input <> []) by (unfold input; destruct pre; discriminate).
  rewrite (process_from_normalized URL input input Hne).
  2:{ rewrite normalizeCommonMd_quiet by (unfold input; not_in_parts).
      apply normalizeHeadings_quiet. unfold input. not_in_parts. }
  unfold input. rewrite replace_links_single.
  - unfold link_cb. rewrite Hn. cbn [bind].
    destruct Hr as [->| ->]; cbn [bind fst snd];
      (rewrite extract_spans_quiet by not_in_parts);
      cbn [fst snd]; rewrite !escapeMarkdownV2_app; reflexivity.
  - not_in_parts.
  - not_in_parts.
  - assumption.
  - assumption.
  - eapply Forall_impl; [|apply (avoids_Forall _ _ label_quiet)].
    intros c Hc. split; apply Hc; simpl; tauto.
  - eapply Forall_impl; [|apply (avoids_Forall _ _ url_quiet)].
    intros c Hc. apply Hc; simpl; tauto.
Qed.

End UnparseableLink.

Lemma escape_unit_length (c : char16) :
  List.length (escape_unit c) = if is_reserved c then 2 else 1.
Proof. unfold escape_unit. destruct (is_reserved c); reflexivity. Qed.

Lemma escape_not_shorter (s : jsstring) :
  List.length s <= List.length (escapeMarkdownV2 s).
Proof.
  rewrite escapeMarkdownV2_flat. induction s as [|c s IH]; [apply le_n|].
  cbn [flat_map]. rewrite length_app, escape_unit_length.
  destruct (is_reserved c); cbn [List.length]; lia.
Qed.

Lemma escape_longer (s : jsstring) :
  existsb is_reserved s = true ->
  List.length s < List.length (escapeMarkdownV2 s).
Proof.
  induction s as [|c s IH]; [discriminate|].
  pose proof (escape_not_shorter s) as G.
  rewrite escapeMarkdownV2_flat in *.
  cbn [existsb flat_map]. rewrite length_app, escape_unit_length.
  destruct (is_reserved c) eqn:E; cbn [orb List.length]; intros H.
  - lia.
  - specialize (IH H). lia.
Qed.

Lemma escape_reserved (s : jsstring) :
  existsb is_reserved s = true ->
  existsb is_reserved (escapeMarkdownV2 s) = true.
Proof.
  rewrite escapeMarkdownV2_flat.
  induction s as [|c s IH]; [discriminate|].
  cbn [existsb flat_map]. rewrite existsb_app. unfold escape_unit at 1.
  destruct (is_reserved c) eqn:E; cbn [orb]; intros H.
  - reflexivity.
  - cbn [existsb]. rewrite E, (IH H). reflexivity.
Qed.

(** C6 (fails on the code).  When neither parse of the url succeeds, the
    link callback returns [escapeMarkdownV2(label)] into the working text,
    and the global escape that follows escapes it again: for a link between
    quiet surroundings the output holds the label escaped twice.  For a
    label with a reserved code unit that is not the escaped label; for
    [[a.b](not a url)] the output is [a\\\.b], not [a\.b]. *)
Theorem unparseable_link_label_escaped_twice
    (URL : jsstring -> completion jsstring) (pre label url post : jsstring) :
  avoids markup_units pre = true ->
  avoids markup_units post = true ->
  label <> [] ->
  avoids [ch "]"; c_nl; ch "*"; ch "_"; ch "#"; ch "|"] label = true ->
  url <> [] ->
  avoids [ch ")"; ch "*"; ch "_"; ch "#"] url = true ->
  normalizeAndValidateUrl URL url = Normal None ->
  processMarkdownV2Safe URL
    (pre ++ str "[" ++ label ++ str "](" ++ url ++ str ")" ++ post)
  = Normal (escapeMarkdownV2 pre ++ escapeMarkdownV2 (escapeMarkdownV2 label)
            ++ escapeMarkdownV2 post)
  /\ (existsb is_reserved label = true ->
      escapeMarkdownV2 pre ++ escapeMarkdownV2 (escapeMarkdownV2 label)
        ++ escapeMarkdownV2 post
      <> escapeMarkdownV2 pre ++ escapeMarkdownV2 label
         ++ escapeMarkdownV2 post).
Proof.
  intros Hpre Hpost Hl Hlq Hu Huq Hn. split.
  - apply (rendering_unparseable URL pre label url post Hpre Hpost Hl Hlq Hu
             Huq None Hn). left. reflexivity.
  - intros Hr E. apply app_inv_head in E. apply app_inv_tail in E.
    pose proof (escape_longer _ (escape_reserved _ Hr)) as Hlen.
    rewrite E in Hlen. lia.
Qed.

Lemma unparseable_link_label_escaped_twice_witness :
  processMarkdownV2Safe URL_fragment (str "[a.b](not a url)")
  = Normal (str "a\\\.b")
  /\ str "a\\\.b" <> escapeMarkdownV2 (str "a.b").
Proof.
  destruct (unparseable_link_label_escaped_twice URL_fragment [] (str "a.b")
              (str "not a url") []) as [H1 H2];
    try reflexivity; try discriminate.
  split; [exact H1|exact (H2 eq_refl)].
Defined.

(** X20.  A link whose url parses, between quiet surroundings: the output
    is the escaped surroundings around the link span made of the escaped
    label and the serialised url, escaped for [)] and the backslash only.
    Quiet means free of the code units that start other markup; label and
    serialised url must not contain [$]. *)
Theorem valid_link_rendering (URL : jsstring -> completion jsstring)
    (pre label url post href : jsstring) :
  avoids markup_units pre = true ->
  avoids markup_units post = true ->
  label <> [] ->
  avoids [ch "]"; c_nl; ch "*"; ch "_"; ch "#"; ch "$"] label = true ->
  url <> [] ->
  avoids [ch ")"; ch "*"; ch "_"; ch "#"] url = true ->
  normalizeAndValidateUrl URL url = Normal (Some href) ->
  href <> [] -> avoids [ch "$"] href = true ->
  processMarkdownV2Safe URL
    (pre ++ str "[" ++ label ++ str "](" ++ url ++ str ")" ++ post)
  = Normal (escapeMarkdownV2 pre
            ++ str "[" ++ escapeMarkdownV2 label ++ str "]("
            ++ escapeForUrl href ++ str ")" ++ escapeMarkdownV2 post).
Proof.
  intros Hpre Hpost Hl Hlq Hu Huq Hn Hne Hd.
  apply rendering_valid; assumption.
Qed.

Lemma valid_link_rendering_witness :
  processMarkdownV2Safe URL_fragment (str "see [a.b](https://x.y/) now")
  = Normal (str "see [a\.b](https://x.y/) now").
Proof.
  apply (valid_link_rendering URL_fragment (str "see ") (str "a.b")
           (str "https://x.y/") (str " now") (str "https://x.y/"));
    solve [reflexivity | discriminate].
Defined.
